(** * bm25_ql: inverted index, BM25 and query-likelihood ranking

    A shallow embedding of [indexer.py].

    - Python [str]/[int] values are [string]/[nat]; [float] scores are real
      numbers (exact arithmetic, rounding is outside the model).  The
      operations that can raise in Python ([/] on a zero divisor,
      [math.log] outside its domain, [dict] lookup of a missing key) return
      [option].
    - [index] and [cqi] are only looked up by key: they are [gmap]s.  The
      per-document [doc_index] and the query [Counter] are iterated, so they
      are association lists in insertion order.
    - [Posting] objects are shared between the index and the result lists
      and are mutated by the scorers.  A posting object is named by the
      place where the index holds it, a [Ref] (term, offset in the posting
      list); result lists are lists of [Ref]s and scores are read through
      the index as it is when the scorer returns. *)

From Stdlib Require Import Reals Lra Lia Sorted Permutation.
From stdpp Require Import gmap strings list fin_maps sorting.

#[local] Set Warnings "-clear-no-such-hyp".

(** ** Data model *)

Record Doc := mkDoc { sceneId : string; text : string }.

Record Posting := mkPosting {
  doc_id : string;
  positions : list nat;
  termCount : nat;
  docLen : nat;
  score : R;
  N : nat
}.

Definition set_score (p : Posting) (s : R) : Posting :=
  mkPosting (doc_id p) (positions p) (termCount p) (docLen p) s (N p).

(** [posting.score += s] *)
Definition add_score (p : Posting) (s : R) : Posting :=
  set_score p (score p + s)%R.

Definition Ref : Type := string * nat.

(** ** [str.split()]: maximal runs of non-whitespace characters *)

(** The characters of a [string] stand for the code points below 256;
    [str.isspace] holds of 9-13, 28-32, 133 and 160 among them. *)
Definition is_space (c : Ascii.ascii) : bool :=
  let n := Ascii.nat_of_ascii c in
  ((9 <=? n) && (n <=? 13)) || ((28 <=? n) && (n <=? 32)) ||
  (n =? 133) || (n =? 160).

Fixpoint split_from (cur : string) (s : string) : list string :=
  match s with
  | EmptyString => if String.eqb cur "" then [] else [cur]
  | String c s' =>
      if is_space c
      then (if String.eqb cur "" then split_from "" s'
            else cur :: split_from "" s')
      else split_from (cur +:+ String c "") s'
  end.

Definition split (s : string) : list string := split_from "" s.

Definition enumerate {A} (l : list A) : list (nat * A) :=
  combine (seq 0 (length l)) l.

(** ** Dictionaries *)

(** [collections.defaultdict(list)]: reading a missing key stores [[]]
    under it. *)
Definition index_get (index : gmap string (list Posting)) (term : string)
  : list Posting * gmap string (list Posting) :=
  match index !! term with
  | Some l => (l, index)
  | None => ([], <[term := []]> index)
  end.

(** [doc_index[term].append(i)] on an insertion-ordered [defaultdict(list)]. *)
Fixpoint doc_index_append (term : string) (i : nat)
    (doc_index : list (string * list nat)) : list (string * list nat) :=
  match doc_index with
  | [] => [(term, [i])]
  | (t, ps) :: rest =>
      if String.eqb t term then (t, ps ++ [i]) :: rest
      else (t, ps) :: doc_index_append term i rest
  end.

(** [collections.Counter(terms)]: counts in first-occurrence order. *)
Fixpoint counter_incr (term : string) (c : list (string * nat))
  : list (string * nat) :=
  match c with
  | [] => [(term, 1)]
  | (t, n) :: rest =>
      if String.eqb t term then (t, S n) :: rest
      else (t, n) :: counter_incr term rest
  end.

Definition Counter (terms : list string) : list (string * nat) :=
  fold_left (fun c t => counter_incr t c) terms [].

(** [queryTerms[term]]: a [Counter] answers 0 for a missing key. *)
Fixpoint counter_get (c : list (string * nat)) (term : string) : nat :=
  match c with
  | [] => 0
  | (t, n) :: rest => if String.eqb t term then n else counter_get rest term
  end.

(** ** [build_index] *)

Definition tokens_step (st : list (string * list nat) * nat)
    (it : nat * string) : list (string * list nat) * nat :=
  (doc_index_append (snd it) (fst it) (fst st), snd st + 1).

Definition postings_step (doc : Doc) (ncorpus : nat)
    (st : gmap string (list Posting) * gmap string nat)
    (it : string * list nat)
  : gmap string (list Posting) * gmap string nat :=
  let term := fst it in
  let positions := snd it in
  let l := fst (index_get (fst st) term) in
  let p := mkPosting (sceneId doc) positions (length positions)
                     (length (split (text doc))) 0 ncorpus in
  (<[term := l ++ [p]]> (fst st),
   match snd st !! term with
   | None => <[term := length positions]> (snd st)
   | Some c => <[term := c + length positions]> (snd st)
   end).

Definition doc_step (ncorpus : nat)
    (st : gmap string (list Posting) * nat * gmap string nat) (doc : Doc)
  : gmap string (list Posting) * nat * gmap string nat :=
  let '(index, collectionLength, cqi) := st in
  let di := fold_left tokens_step (enumerate (split (text doc)))
                      ([], collectionLength) in
  let ic := fold_left (postings_step doc ncorpus) (fst di) (index, cqi) in
  (fst ic, snd di, snd ic).

Definition build_index (corpus : list Doc)
  : gmap string (list Posting) * list Doc * nat * gmap string nat :=
  let '(index, collectionLength, cqi) :=
    fold_left (doc_step (length corpus)) corpus (∅, 0, ∅) in
  (index, corpus, collectionLength, cqi).

(** The four values [build_index] returns, by name. *)
Definition built_index (corpus : list Doc) : gmap string (list Posting) :=
  (build_index corpus).1.1.1.
Definition built_length (corpus : list Doc) : nat := (build_index corpus).1.2.
Definition built_cqi (corpus : list Doc) : gmap string nat :=
  (build_index corpus).2.

(** ** Float operations that can raise *)

(** [a / b]: [ZeroDivisionError] on a zero divisor. *)
Definition pydiv (a b : R) : option R :=
  if Req_dec_T b 0 then None else Some (a / b)%R.

Definition math_e : R := exp 1.

(** [math.log(x, base)] is [log(x) / log(base)]: [ValueError] outside the
    domain of the logarithm, [ZeroDivisionError] for base 1. *)
Definition math_log (x base : R) : option R :=
  if Rle_dec x 0 then None
  else if Rle_dec base 0 then None
  else pydiv (ln x) (ln base).

(** ** Reading postings through the index *)

Definition deref (index : gmap string (list Posting)) (r : Ref)
  : option Posting :=
  default [] (index !! fst r) !! snd r.

(** The sort key [lambda x: x.score], read when the sort runs. *)
Definition score_of (index : gmap string (list Posting)) (r : Ref) : R :=
  match deref index r with Some p => score p | None => 0%R end.

(** What a caller reads off a returned list: [(posting.doc_id, posting.score)]. *)
Definition entries (index : gmap string (list Posting)) (top100 : list Ref)
  : list (string * R) :=
  omap (fun r => p ← deref index r; Some (doc_id p, score p)) top100.

(** ** [list.sort(key=..., reverse=True)] and the slice [[:100]] *)

Section Sort.
Context {A : Type} (key : A → R).

(** [x] stood before every element of [l] in the unsorted list: it goes
    behind the strictly larger keys and in front of equal ones. *)
Fixpoint insert_desc (x : A) (l : list A) : list A :=
  match l with
  | [] => [x]
  | y :: l' =>
      if Rlt_dec (key x) (key y) then y :: insert_desc x l'
      else x :: y :: l'
  end.

Definition sort_desc (l : list A) : list A := foldr insert_desc [] l.

Definition top_k (k : nat) (l : list A) : list A := take k (sort_desc l).
End Sort.

#[global] Instance R_eq_dec : EqDecision R := Req_dec_T.

(** Non-increasing in the key. *)
Definition desc_sorted {A : Type} (key : A → R) : list A → Prop :=
  StronglySorted (fun x y => (key y <= key x)%R).


(** ** [bm25_ranking] *)

Module BM25.
Definition k1 : R := 1.8.
Definition k2 : R := 5.
Definition b : R := 0.75.
End BM25.

(** Lines 116-123: the contribution of one matching posting. *)
Definition bm25_term (Nc ni qfi : nat) (avgdl : R) (posting : Posting)
  : option R :=
  let fi := INR (termCount posting) in
  let dl := INR (docLen posting) in
  r ← pydiv dl avgdl;
  let K := (BM25.k1 * ((1 - BM25.b) + BM25.b * r))%R in
  q ← pydiv (INR Nc - INR ni + 0.5)%R (INR ni + 0.5)%R;
  first ← math_log q math_e;
  second ← pydiv ((BM25.k1 + 1) * fi)%R (K + fi)%R;
  third ← pydiv ((BM25.k2 + 1) * INR qfi)%R (BM25.k2 + INR qfi)%R;
  Some (first * second * third)%R.

(** [for posting in index[term]]: the posting at offset [i] onwards.  The
    list returned carries the scores written by the loop. *)
Fixpoint bm25_postings (sid term : string) (Nc ni qfi : nat) (avgdl : R)
    (i : nat) (ps : list Posting) (score : R) (top100 : list Ref)
  : option (list Posting * R * list Ref) :=
  match ps with
  | [] => Some ([], score, top100)
  | posting :: ps' =>
      if String.eqb (doc_id posting) sid then
        c ← bm25_term Nc ni qfi avgdl posting;
        let score := (score + c)%R in
        '(ps'', score', top100') ←
          bm25_postings sid term Nc ni qfi avgdl (S i) ps' score
                        (top100 ++ [(term, i)]);
        Some (set_score posting score :: ps'', score', top100')
      else
        '(ps'', score', top100') ←
          bm25_postings sid term Nc ni qfi avgdl (S i) ps' score top100;
        Some (posting :: ps'', score', top100')
  end.

(** [for term in uniqueQueryTerms] for one document. *)
Fixpoint bm25_terms (sid : string) (Nc : nat) (avgdl : R)
    (queryTerms : list (string * nat)) (terms : list string)
    (index : gmap string (list Posting)) (score : R) (top100 : list Ref)
  : option (gmap string (list Posting) * R * list Ref) :=
  match terms with
  | [] => Some (index, score, top100)
  | term :: terms' =>
      let '(l, index) := index_get index term in
      let ni := length l in
      let qfi := counter_get queryTerms term in
      let '(l, index) := index_get index term in
      '(l', score, top100) ←
        bm25_postings sid term Nc ni qfi avgdl 0 l score top100;
      bm25_terms sid Nc avgdl queryTerms terms'
                 (<[term := l']> index) score top100
  end.

(** [for docs in corpus]. *)
Fixpoint bm25_docs (Nc : nat) (avgdl : R) (queryTerms : list (string * nat))
    (terms : list string) (docs : list Doc)
    (index : gmap string (list Posting)) (top100 : list Ref)
  : option (gmap string (list Posting) * list Ref) :=
  match docs with
  | [] => Some (index, top100)
  | d :: docs' =>
      '(index, _, top100) ←
        bm25_terms (sceneId d) Nc avgdl queryTerms terms index 0%R top100;
      bm25_docs Nc avgdl queryTerms terms docs' index top100
  end.

(** Lines 105-107. *)
Definition unique_terms (queryTerms : list (string * nat)) : list string :=
  fold_left (fun u t => if existsb (String.eqb t) u then u else u ++ [t])
            (map fst queryTerms) [].

(** Lines 96-125: everything before the sort. *)
Definition bm25_scoring (index : gmap string (list Posting))
    (queryTerms : list (string * nat)) (corpus : list Doc)
    (collectionLength : nat)
  : option (list Ref * gmap string (list Posting)) :=
  avgdl ← pydiv (INR collectionLength) (INR (length corpus));
  '(index, top100) ←
    bm25_docs (length corpus) avgdl queryTerms (unique_terms queryTerms)
              corpus index [];
  Some (top100, index).

Definition bm25_ranking (index : gmap string (list Posting))
    (queryTerms : list (string * nat)) (corpus : list Doc)
    (collectionLength : nat)
  : option (list Ref * gmap string (list Posting)) :=
  '(top100, index) ← bm25_scoring index queryTerms corpus collectionLength;
  Some (top_k (score_of index) 100 top100, index).

(** ** [ql_ranking] *)

Module QL.
Definition mue : R := 300.
End QL.

(** Lines 154-155 and 163-164. *)
Definition ql_term (cqi : gmap string nat) (cardC : nat) (term : string)
    (fqi cardD : nat) : option R :=
  c ← cqi !! term;
  r ← pydiv (INR c) (INR cardC);
  q ← pydiv (INR fqi + QL.mue * r)%R (INR cardD + QL.mue)%R;
  math_log q math_e.

Fixpoint ql_postings (sid term : string) (cqi : gmap string nat)
    (cardC : nat) (i : nat) (ps : list Posting) (score : R)
    (top100 : list Ref)
  : option (list Posting * R * list Ref) :=
  match ps with
  | [] => Some ([], score, top100)
  | posting :: ps' =>
      if String.eqb (doc_id posting) sid then
        let fqi := termCount posting in
        let cardD := docLen posting in
        score ← ql_term cqi cardC term fqi cardD;
        '(ps'', score', top100') ←
          ql_postings sid term cqi cardC (S i) ps' score
                      (top100 ++ [(term, i)]);
        Some (add_score posting score :: ps'', score', top100')
      else
        let fqi := 0 in
        let cardD := docLen posting in
        score ← ql_term cqi cardC term fqi cardD;
        '(ps'', score', top100') ←
          ql_postings sid term cqi cardC (S i) ps' score
                      (top100 ++ [(term, i)]);
        Some (add_score posting score :: ps'', score', top100')
  end.

Fixpoint ql_terms (sid : string) (cqi : gmap string nat) (cardC : nat)
    (terms : list string)
    (index : gmap string (list Posting)) (score : R) (top100 : list Ref)
  : option (gmap string (list Posting) * R * list Ref) :=
  match terms with
  | [] => Some (index, score, top100)
  | term :: terms' =>
      let '(l, index) := index_get index term in
      '(l', score, top100) ←
        ql_postings sid term cqi cardC 0 l score top100;
      ql_terms sid cqi cardC terms' (<[term := l']> index) score top100
  end.

Fixpoint ql_docs (cqi : gmap string nat) (cardC : nat) (terms : list string)
    (docs : list Doc)
    (index : gmap string (list Posting)) (top100 : list Ref)
  : option (gmap string (list Posting) * list Ref) :=
  match docs with
  | [] => Some (index, top100)
  | d :: docs' =>
      '(index, _, top100) ←
        ql_terms (sceneId d) cqi cardC terms index 0%R top100;
      ql_docs cqi cardC terms docs' index top100
  end.

Definition ql_scoring (index : gmap string (list Posting))
    (terms : list (string * nat)) (corpus : list Doc)
    (collectionLength : nat) (cqi : gmap string nat)
  : option (list Ref * gmap string (list Posting)) :=
  '(index, top100) ←
    ql_docs cqi collectionLength (map fst terms) corpus index [];
  Some (top100, index).

Definition ql_ranking (index : gmap string (list Posting))
    (terms : list (string * nat)) (corpus : list Doc)
    (collectionLength : nat) (cqi : gmap string nat)
  : option (list Ref * gmap string (list Posting)) :=
  '(top100, index) ← ql_scoring index terms corpus collectionLength cqi;
  Some (top_k (score_of index) 100 top100, index).

(** ** The corpus, as the claims speak of it *)

Definition tokens (d : Doc) : list string := split (text d).

(** Offsets, counted from [i], at which [t] occurs. *)
Fixpoint positions_from (t : string) (i : nat) (toks : list string)
  : list nat :=
  match toks with
  | [] => []
  | x :: rest =>
      if String.eqb x t then i :: positions_from t (S i) rest
      else positions_from t (S i) rest
  end.

Definition term_positions (t : string) (d : Doc) : list nat :=
  positions_from t 0 (tokens d).

(** Term frequency of [t] in [d]. *)
Definition tf (t : string) (d : Doc) : nat := length (term_positions t d).

(** The posting a fresh index holds for term [t] and document [d]. *)
Definition posting_of (n : nat) (t : string) (d : Doc) : Posting :=
  mkPosting (sceneId d) (term_positions t d) (tf t d)
            (length (tokens d)) 0 n.

Definition postings_of (n : nat) (t : string) (docs : list Doc)
  : list Posting :=
  map (posting_of n t) (filter (fun d => t ∈ tokens d) docs).

(** Document frequency and corpus-wide frequency of a term. *)
Definition df (t : string) (docs : list Doc) : nat :=
  length (filter (fun d => t ∈ tokens d) docs).

Definition cf (t : string) (docs : list Doc) : nat :=
  sum_list (map (tf t) docs).

Definition total_length (docs : list Doc) : nat :=
  sum_list (map (fun d => length (tokens d)) docs).

Definition postings_at (index : gmap string (list Posting)) (t : string)
  : list Posting := default [] (index !! t).

Fixpoint doc_index_get (doc_index : list (string * list nat)) (t : string)
  : option (list nat) :=
  match doc_index with
  | [] => None
  | (t', ps) :: rest =>
      if String.eqb t' t then Some ps else doc_index_get rest t
  end.

(** ** The scoring formulas, as the specification writes them *)

Definition sum_R (l : list R) : R := foldr Rplus 0%R l.

Definition avgdl_of (corpus : list Doc) : R :=
  (INR (total_length corpus) / INR (length corpus))%R.

Definition bm25_K (dl avgdl : R) : R :=
  (BM25.k1 * ((1 - BM25.b) + BM25.b * (dl / avgdl)))%R.

Definition bm25_idf (Nc ni : nat) : R :=
  ln ((INR Nc - INR ni + 0.5) / (INR ni + 0.5))%R.

Definition bm25_tf_weight (K fi : R) : R :=
  (((BM25.k1 + 1) * fi) / (K + fi))%R.

Definition bm25_qtf_weight (qfi : nat) : R :=
  (((BM25.k2 + 1) * INR qfi) / (BM25.k2 + INR qfi))%R.

Definition bm25_weight (Nc ni qfi : nat) (avgdl : R) (fi dl : nat) : R :=
  (bm25_idf Nc ni * bm25_tf_weight (bm25_K (INR dl) avgdl) (INR fi) *
   bm25_qtf_weight qfi)%R.

(** The contribution of query term [t] to document [d]. *)
Definition bm25_term_weight (corpus : list Doc) (q : list (string * nat))
    (t : string) (d : Doc) : R :=
  bm25_weight (length corpus) (df t corpus) (counter_get q t)
              (avgdl_of corpus) (tf t d) (length (tokens d)).

(** The sum of the contributions of those of the terms [ts] that occur in
    [d]. *)
Definition bm25_sum (corpus : list Doc) (q : list (string * nat)) (d : Doc)
    (ts : list string) : R :=
  sum_R (map (fun t => bm25_term_weight corpus q t d)
             (filter (fun t => t ∈ tokens d) ts)).

(** The BM25 score of [d]: the sum over the unique query terms it holds. *)
Definition bm25_score (corpus : list Doc) (q : list (string * nat)) (d : Doc)
  : R := bm25_sum corpus q d (unique_terms q).

(** The terms of [ts] up to and including the first [t]. *)
Fixpoint prefix_upto (t : string) (ts : list string) : list string :=
  match ts with
  | [] => []
  | x :: rest => if String.eqb x t then [x] else x :: prefix_upto t rest
  end.

(** The running BM25 sum of [d] when the term loop has just handled [t]. *)
Definition bm25_partial (corpus : list Doc) (q : list (string * nat))
    (d : Doc) (t : string) : R :=
  bm25_sum corpus q d (prefix_upto t (unique_terms q)).

Definition ql_weight (c cardC fqi cardD : nat) : R :=
  ln ((INR fqi + QL.mue * (INR c / INR cardC)) / (INR cardD + QL.mue))%R.

(** A posting with its score field blanked: what scoring never changes. *)
Definition erase (p : Posting) : Posting := set_score p 0.

Definition doc_by_id (corpus : list Doc) (sid : string) : option Doc :=
  head (filter (fun d => sceneId d = sid) corpus).

(** The references one document adds to [top100]: for each term, the
    offsets of the postings that carry the document's id. *)
Definition doc_refs (index : gmap string (list Posting))
    (terms : list string) (sid : string) : list Ref :=
  terms ≫= fun t =>
    map (pair t) (positions_from sid 0 (map doc_id (postings_at index t))).

Definition all_refs (index : gmap string (list Posting))
    (terms : list string) (docs : list Doc) : list Ref :=
  docs ≫= fun d => doc_refs index terms (sceneId d).

(** Two indexes that differ in score fields only (keys bound to [[]]
    count as absent). *)
Definition same_shape (index index' : gmap string (list Posting)) : Prop :=
  ∀ t, map erase (postings_at index' t) = map erase (postings_at index t).

(** Every contribution the BM25 loops may ask for is defined. *)
Definition bm25_defined (Nc : nat) (avgdl : R)
    (index : gmap string (list Posting)) : Prop :=
  ∀ t p qfi, p ∈ postings_at index t →
    is_Some (bm25_term Nc (length (postings_at index t)) qfi avgdl p).

(** [index] is an index of [corpus], whatever scores and empty entries
    earlier queries left in it. *)
Definition shaped (corpus : list Doc) (index : gmap string (list Posting))
  : Prop :=
  ∀ t, map erase (postings_at index t) = postings_of (length corpus) t corpus.

(** What term [t] adds to the BM25 sum of [d]. *)
Definition bm25_hit (corpus : list Doc) (q : list (string * nat)) (d : Doc)
    (t : string) : R :=
  if decide (t ∈ tokens d) then bm25_term_weight corpus q t d else 0%R.

(** A corpus of 101 documents with distinct ids, each with text ["a"]. *)
Fixpoint doc_name (n : nat) : string :=
  match n with
  | 0 => "d"
  | S k => "x" +:+ doc_name k
  end.

Definition corpus101 : list Doc :=
  map (fun n => mkDoc (doc_name n) "a") (seq 0 101).

(** The BM25 result covers exactly the documents sharing a query term:
    the reading of the specification that the truncation to 100 breaks. *)
Definition bm25_covers (corpus : list Doc) (terms : list string) : Prop :=
  ∃ top index',
    bm25_ranking (built_index corpus) (Counter terms) corpus
                 (built_length corpus) = Some (top, index') ∧
    (∀ d, d ∈ corpus → (∃ t, t ∈ terms ∧ t ∈ tokens d) →
          sceneId d ∈ map fst (entries index' top)) ∧
    (∀ d, d ∈ corpus → (∀ t, t ∈ terms → t ∉ tokens d) →
          sceneId d ∉ map fst (entries index' top)).

(** Two documents of equal length, the first with the higher frequency
    of ["a"]: once where ["a"] is in every document, once where it is in
    two of five. *)
Definition corpus_common : list Doc :=
  [mkDoc "d1" "a a"; mkDoc "d2" "a b"].

Definition corpus_rare : list Doc :=
  [mkDoc "d1" "a a"; mkDoc "d2" "a b"; mkDoc "d3" "c"; mkDoc "d4" "c";
   mkDoc "d5" "c"].

(** Every contribution the QL loops may ask for is defined. *)
Definition ql_defined (cqi : gmap string nat) (cardC : nat)
    (index : gmap string (list Posting)) : Prop :=
  ∀ t p fqi, p ∈ postings_at index t →
    is_Some (ql_term cqi cardC t fqi (docLen p)).

(** Two indexes that hold the same under every key but [u], and no
    posting under [u]. *)
Definition agree_but (u : string) (i1 i2 : gmap string (list Posting))
  : Prop :=
  postings_at i1 u = [] ∧ postings_at i2 u = [] ∧
  ∀ t, t ≠ u → i1 !! t = i2 !! t.

(** Two runs end alike: both raise, or both return the same score and
    references and indexes that agree but for the key [u]. *)
Definition same_terms_outcome (u : string)
    (r1 r2 : option (gmap string (list Posting) * R * list Ref)) : Prop :=
  match r1, r2 with
  | Some (i1, s1, t1), Some (i2, s2, t2) =>
      s1 = s2 ∧ t1 = t2 ∧ agree_but u i1 i2
  | None, None => True
  | _, _ => False
  end.

Definition same_docs_outcome (u : string)
    (r1 r2 : option (gmap string (list Posting) * list Ref)) : Prop :=
  match r1, r2 with
  | Some (i1, t1), Some (i2, t2) => t1 = t2 ∧ agree_but u i1 i2
  | None, None => True
  | _, _ => False
  end.

Definition same_ranking (u : string)
    (r1 r2 : option (list Ref * gmap string (list Posting))) : Prop :=
  match r1, r2 with
  | Some (t1, i1), Some (t2, i2) =>
      t1 = t2 ∧ entries i1 t1 = entries i2 t2 ∧ agree_but u i1 i2
  | None, None => True
  | _, _ => False
  end.

(** Small corpora on which the QL scorer is run below. *)
Definition corpus_ab : list Doc := [mkDoc "d1" "a"; mkDoc "d2" "b"].

Definition corpus_one : list Doc := [mkDoc "d1" "a b"].

(** ** Further notions: tokens, totals *)

(** A token: not empty, no whitespace character in it. *)
Definition is_token (t : string) : Prop :=
  t ≠ "" ∧
  Forall (fun c => is_space c = false) (String.list_ascii_of_string t).

(** [" ".join(toks)] *)
Fixpoint join_spaces (toks : list string) : string :=
  match toks with
  | [] => ""
  | [t] => t
  | t :: rest => t +:+ " " +:+ join_spaces rest
  end.

(** The sum of the values of [cqi]. *)
Definition cqi_total (cqi : gmap string nat) : nat :=
  sum_list (map snd (map_to_list cqi)).

(** ** [Posting.__eq__] and [Posting.__hash__] *)

Definition Posting_eq (self other : Posting) : bool :=
  String.eqb (doc_id self) (doc_id other) &&
  bool_decide (positions self = positions other).

Section PostingHash.
(** Python's [hash] on a tuple of a string and a tuple of integers: some
    function of the value. *)
Variable hash : string * list nat → Z.

Definition Posting_hash (self : Posting) : Z :=
  hash (doc_id self, positions self).
End PostingHash.

(** The references the QL loops add for one document: every posting of
    every query term. *)
Definition ql_doc_refs (index : gmap string (list Posting))
    (terms : list string) : list Ref :=
  terms ≫= fun t => map (pair t) (seq 0 (length (postings_at index t))).

Definition ql_all_refs (index : gmap string (list Posting))
    (terms : list string) (docs : list Doc) : list Ref :=
  docs ≫= fun _ => ql_doc_refs index terms.

(** What one pass of the document loop of [ql_ranking] (lines 144-166)
    adds to the score of a posting [p] of [t] while it is at the document
    [sid], and what the whole loop over [docs] adds. *)
Definition ql_step (cqi : gmap string nat) (cardC : nat) (t sid : string)
    (p : Posting) : R :=
  ql_weight (default 0 (cqi !! t)) cardC
            (if String.eqb (doc_id p) sid then termCount p else 0)
            (docLen p).

Definition ql_gain (cqi : gmap string nat) (cardC : nat) (t : string)
    (docs : list Doc) (p : Posting) : R :=
  sum_R (map (fun d => ql_step cqi cardC t (sceneId d) p) docs).

(** A query whose every term either has no posting or has a positive
    collection count over a positive collection length: the condition
    under which the logarithm of lines 154 and 163 is defined. *)
Definition ql_ready (cqi : gmap string nat) (cardC : nat)
    (index : gmap string (list Posting)) (ts : list string) : Prop :=
  ∀ t, t ∈ ts →
    postings_at index t = [] ∨ ∃ c, cqi !! t = Some c ∧ 0 < c ∧ 0 < cardC.

(** ** [main] *)

(** A line [main] writes (lines 187-188 and 193-194): the first two fields
    of the query row, the document id of the posting and its score, read
    from the posting when the line is written, that is after the ranking
    has returned. The score is kept as the number it is; the decimal
    text of the f-string is not modelled. *)
Record Line := mkLine {
  line_query : string;
  line_name : string;
  line_doc : string;
  line_score : R
}.

Definition path_of (outputFolder r0 : string) : string :=
  outputFolder +:+ "/" +:+ r0 +:+ ".txt".

Definition write_lines (r0 r1 : string) (es : list (string * R))
  : list Line :=
  map (fun e => mkLine r0 r1 e.1 e.2) es.

(** One pass of the loop over the rows of the queries file (lines
    179-194), on the files written so far and the index as the earlier
    rows left it. The rows are the lists [csv.reader] yields.
    [can_open path] is the answer of the file system to
    [open(path, "w")] of line 180: the call raises where it is [false]
    (a first field with a slash that names no directory, a name that is
    too long, a folder that cannot be written) and creates or empties the
    file where it is [true]; a file that has been opened can be written.
    [None] for the index is an exception, which ends the program:
    [IndexError] at [row[0]] before the file is opened, the error of
    [open], [IndexError] at [row[2]] after the file has been opened and so
    emptied, or whatever the ranking raises. *)
Definition main_row (can_open : string → bool) (outputFolder : string)
    (corpus : list Doc) (collectionLength : nat) (cqi : gmap string nat)
    (files : gmap string (list Line))
    (index : gmap string (list Posting)) (row : list string)
  : gmap string (list Line) * option (gmap string (list Posting)) :=
  match row with
  | [] => (files, None)
  | r0 :: rest =>
      let path := path_of outputFolder r0 in
      if can_open path then
        let files := <[path := []]> files in
        match rest with
        | r1 :: model :: ts =>
            let terms := Counter ts in
            if String.eqb model "bm25" then
              match bm25_ranking index terms corpus collectionLength with
              | Some (top100, index) =>
                  (<[path := write_lines r0 r1 (entries index top100)]>
                     files,
                   Some index)
              | None => (files, None)
              end
            else if String.eqb model "ql" then
              match ql_ranking index terms corpus collectionLength cqi with
              | Some (top100, index) =>
                  (<[path := write_lines r0 r1 (entries index top100)]>
                     files,
                   Some index)
              | None => (files, None)
              end
            else (files, Some index)
        | _ => (files, None)
        end
      else (files, None)
  end.

Fixpoint main_rows (can_open : string → bool) (outputFolder : string)
    (corpus : list Doc) (collectionLength : nat) (cqi : gmap string nat)
    (files : gmap string (list Line))
    (index : gmap string (list Posting)) (rows : list (list string))
  : gmap string (list Line) * option (gmap string (list Posting)) :=
  match rows with
  | [] => (files, Some index)
  | row :: rows' =>
      match main_row can_open outputFolder corpus collectionLength cqi
                     files index row with
      | (files, Some index) =>
          main_rows can_open outputFolder corpus collectionLength cqi files
                    index rows'
      | (files, None) => (files, None)
      end
  end.

(** [main], on the corpus [read_data] returns and the rows of the
    queries file, from the files [files] the output folder has. *)
Definition main (can_open : string → bool) (corpus : list Doc)
    (rows : list (list string)) (outputFolder : string)
    (files : gmap string (list Line))
  : gmap string (list Line) * option (gmap string (list Posting)) :=
  let '(index, corpus, collectionLength, cqi) := build_index corpus in
  main_rows can_open outputFolder corpus collectionLength cqi files index
            rows.

(** Every row with a first field names a file that can be opened. *)
Definition rows_open (can_open : string → bool) (outputFolder : string)
    (rows : list (list string)) : Prop :=
  ∀ row r0, row ∈ rows → head row = Some r0 →
    can_open (path_of outputFolder r0) = true.

(** What the lines of a file written for a row [r0, r1, ...] are: at most
    100, each with the two fields and the id of a document of the
    corpus. *)
Definition lines_of (corpus : list Doc) (r0 r1 : string)
    (lines : list Line) : Prop :=
  length lines ≤ 100 ∧
  ∀ l, l ∈ lines →
    line_query l = r0 ∧ line_name l = r1 ∧
    line_doc l ∈ map sceneId corpus.

(* ================================================================= *)
(** * Theorems *)

(** ** Facts about [build_index] *)

Lemma positions_from_nil t i toks :
  positions_from t i toks = [] ↔ t ∉ toks.
Proof.
  revert i. induction toks as [|x toks IH]; intros i; simpl.
  - split; [intros _; apply not_elem_of_nil | done].
  - destruct (String.eqb_spec x t) as [->|Hne].
    + split; [done | intros H; exfalso; apply H; left].
    + rewrite IH, not_elem_of_cons. naive_solver.
Qed.

Lemma positions_from_app t i l1 l2 :
  positions_from t i (l1 ++ l2) =
  positions_from t i l1 ++ positions_from t (i + length l1) l2.
Proof.
  revert i. induction l1 as [|x l1 IH]; intros i; simpl.
  - by rewrite Nat.add_0_r.
  - rewrite IH, <- Nat.add_succ_comm. by destruct (String.eqb x t).
Qed.

Lemma positions_from_bounds t i toks :
  Forall (fun j => i ≤ j < i + length toks) (positions_from t i toks).
Proof.
  revert i. induction toks as [|x toks IH]; intros i; simpl; [constructor|].
  assert (Forall (fun j => i ≤ j < i + S (length toks))
                 (positions_from t (S i) toks)) as Hrest.
  { eapply Forall_impl; [apply IH|]. simpl. intros; lia. }
  destruct (String.eqb x t); [constructor; [lia | done] | done].
Qed.

Lemma positions_from_increasing t i toks :
  StronglySorted lt (positions_from t i toks).
Proof.
  revert i. induction toks as [|x toks IH]; intros i; simpl; [constructor|].
  destruct (String.eqb x t); [|apply IH].
  constructor; [apply IH|].
  eapply Forall_impl; [apply positions_from_bounds|]. simpl. intros; lia.
Qed.

Lemma doc_index_get_append di t i t' :
  doc_index_get (doc_index_append t i di) t' =
  if decide (t = t')
  then Some (default [] (doc_index_get di t') ++ [i])
  else doc_index_get di t'.
Proof.
  induction di as [|[k ps] di IH]; simpl.
  - destruct (String.eqb_spec t t'); case_decide; naive_solver.
  - destruct (String.eqb_spec k t) as [->|Hkt]; simpl.
    + destruct (String.eqb_spec t t'); case_decide; naive_solver.
    + destruct (String.eqb_spec k t') as [->|Hkt'].
      * case_decide; naive_solver.
      * apply IH.
Qed.

Lemma doc_index_append_keys di t i :
  NoDup (map fst di) →
  NoDup (map fst (doc_index_append t i di)) ∧
  (∀ k, k ∈ map fst (doc_index_append t i di) ↔ k = t ∨ k ∈ map fst di).
Proof.
  induction di as [|[k ps] di IH]; simpl; intros Hnd.
  - split; [apply NoDup_singleton | intros k'; set_solver].
  - apply NoDup_cons in Hnd as [Hk Hnd].
    destruct (String.eqb_spec k t) as [->|Hkt]; simpl.
    + split; [by apply NoDup_cons | intros k'; set_solver].
    + destruct (IH Hnd) as [IH1 IH2]. split.
      * apply NoDup_cons. split; [|done]. rewrite IH2. naive_solver.
      * intros k'. rewrite !elem_of_cons, IH2. naive_solver.
Qed.

Lemma doc_index_get_None di t :
  doc_index_get di t = None ↔ t ∉ map fst di.
Proof.
  induction di as [|[k ps] di IH]; simpl.
  - split; [intros _; apply not_elem_of_nil | done].
  - destruct (String.eqb_spec k t) as [->|Hkt].
    + split; [done | intros H; exfalso; apply H; left].
    + rewrite IH, not_elem_of_cons. naive_solver.
Qed.

Lemma tokens_fold toks : ∀ i di cl,
  NoDup (map fst di) →
  let r := fold_left tokens_step (combine (seq i (length toks)) toks)
                     (di, cl) in
  r.2 = cl + length toks ∧
  NoDup (map fst r.1) ∧
  (∀ k, k ∈ map fst r.1 ↔ k ∈ toks ∨ k ∈ map fst di) ∧
  (∀ t, default [] (doc_index_get r.1 t) =
        default [] (doc_index_get di t) ++ positions_from t i toks).
Proof.
  induction toks as [|x toks IH]; intros i di cl Hnd; simpl.
  - split_and!; [lia | done | set_solver |].
    intros t. by rewrite app_nil_r.
  - destruct (doc_index_append_keys di x i Hnd) as [Hnd' Hkeys].
    destruct (IH (S i) (doc_index_append x i di) (cl + 1) Hnd')
      as (H1 & H2 & H3 & H4).
    unfold tokens_step at 2. simpl.
    split_and!; [lia | done | |].
    + intros k. rewrite H3, Hkeys, elem_of_cons. naive_solver.
    + intros t. rewrite H4, doc_index_get_append.
      destruct (String.eqb_spec x t) as [->|Hne].
      * rewrite decide_True by done. simpl. by rewrite <- app_assoc.
      * by rewrite decide_False by done.
Qed.

Lemma index_get_fst index t : (index_get index t).1 = postings_at index t.
Proof. unfold index_get, postings_at. by destruct (index !! t). Qed.

Lemma postings_fold doc n di : ∀ index cqi,
  NoDup (map fst di) →
  let r := fold_left (postings_step doc n) di (index, cqi) in
  ∀ t,
    r.1 !! t =
      match doc_index_get di t with
      | Some ps =>
          Some (postings_at index t ++
                [mkPosting (sceneId doc) ps (length ps)
                           (length (split (text doc))) 0 n])
      | None => index !! t
      end ∧
    r.2 !! t =
      match doc_index_get di t with
      | Some ps => Some (default 0 (cqi !! t) + length ps)
      | None => cqi !! t
      end.
Proof.
  induction di as [|[k ps] di IH]; intros index cqi Hnd; simpl; [done|].
  apply NoDup_cons in Hnd as [Hk Hnd]. intros t.
  specialize (IH (postings_step doc n (index, cqi) (k, ps)).1
                 (postings_step doc n (index, cqi) (k, ps)).2 Hnd t).
  rewrite <- surjective_pairing in IH. destruct IH as [IH1 IH2].
  rewrite IH1, IH2. clear IH1 IH2.
  unfold postings_step; simpl. rewrite index_get_fst.
  destruct (String.eqb_spec k t) as [->|Hkt].
  - assert (doc_index_get di t = None) as ->
      by (by apply doc_index_get_None).
    split.
    + by rewrite lookup_insert_eq.
    + destruct (cqi !! t); by rewrite lookup_insert_eq.
  - assert (∀ l, postings_at (<[k:=l]> index) t = postings_at index t) as Hpa.
    { intros l. unfold postings_at. by rewrite lookup_insert_ne. }
    rewrite Hpa, lookup_insert_ne by done.
    assert ((match cqi !! k with
             | Some c => <[k:=c + length ps]> cqi
             | None => <[k:=length ps]> cqi
             end) !! t = cqi !! t) as ->.
    { destruct (cqi !! k); by rewrite lookup_insert_ne. }
    done.
Qed.

Lemma doc_step_spec n index cl cqi d :
  let r := doc_step n (index, cl, cqi) d in
  r.1.2 = cl + length (tokens d) ∧
  ∀ t,
    r.1.1 !! t =
      (if decide (t ∈ tokens d)
       then Some (postings_at index t ++ [posting_of n t d])
       else index !! t) ∧
    r.2 !! t =
      (if decide (t ∈ tokens d)
       then Some (default 0 (cqi !! t) + tf t d)
       else cqi !! t).
Proof.
  unfold doc_step, enumerate. simpl.
  destruct (tokens_fold (split (text d)) 0 [] cl (NoDup_nil_2))
    as (H1 & H2 & H3 & H4).
  split; [exact H1|]. intros t.
  destruct (postings_fold d n _ index cqi H2 t) as [Hi Hc].
  rewrite Hi, Hc. clear Hi Hc.
  specialize (H4 t). simpl in H4.
  destruct (doc_index_get _ t) as [ps|] eqn:Hget.
  - assert (t ∈ tokens d) as Hin.
    { assert (t ∈ map fst
        (fold_left tokens_step
           (combine (seq 0 (length (split (text d)))) (split (text d)))
           ([], cl)).1) as Hk.
      { destruct (decide (t ∈ map fst
          (fold_left tokens_step
             (combine (seq 0 (length (split (text d)))) (split (text d)))
             ([], cl)).1)) as [|Hn]; [done|].
        apply doc_index_get_None in Hn. congruence. }
      apply H3 in Hk as [Hk|Hk]; [done | by apply elem_of_nil in Hk]. }
    rewrite !decide_True by done. simpl in H4. subst ps.
    unfold posting_of, tf, term_positions, tokens. done.
  - assert (t ∉ tokens d) as Hnin.
    { apply doc_index_get_None in Hget. rewrite H3 in Hget. naive_solver. }
    by rewrite !decide_False.
Qed.

Lemma docs_fold n docs : ∀ index cl cqi,
  let r := fold_left (doc_step n) docs (index, cl, cqi) in
  r.1.2 = cl + total_length docs ∧
  ∀ t,
    postings_at r.1.1 t = postings_at index t ++ postings_of n t docs ∧
    (r.1.1 !! t = None ↔ index !! t = None ∧ df t docs = 0) ∧
    default 0 (r.2 !! t) = default 0 (cqi !! t) + cf t docs ∧
    (r.2 !! t = None ↔ cqi !! t = None ∧ df t docs = 0).
Proof.
  induction docs as [|d docs IH]; intros index cl cqi; cbn [fold_left].
  - simpl. split; [unfold total_length; simpl; lia|]. intros t.
    unfold postings_of, df, cf. simpl.
    rewrite app_nil_r. split_and!; [done | naive_solver | lia | naive_solver].
  - destruct (doc_step_spec n index cl cqi d) as [Hcl Hd].
    destruct (doc_step n (index, cl, cqi) d) as [[index1 cl1] cqi1].
    simpl in Hcl, Hd. destruct (IH index1 cl1 cqi1) as [IHcl IHt].
    split.
    { rewrite IHcl, Hcl. unfold total_length. simpl. lia. }
    intros t. destruct (IHt t) as (I1 & I2 & I3 & I4).
    destruct (Hd t) as [Hi Hc].
    rewrite I1, I2, I3, I4. clear I1 I2 I3 I4.
    unfold postings_of, df, cf, postings_at in *. rewrite filter_cons. simpl.
    rewrite Hi, Hc. destruct (decide (t ∈ tokens d)) as [Hin|Hnin]; simpl.
    + rewrite <- app_assoc. simpl.
      split_and!; [done | naive_solver | lia | naive_solver].
    + assert (tf t d = 0) as ->.
      { unfold tf, term_positions.
        by rewrite (proj2 (positions_from_nil t 0 (tokens d))). }
      split_and!; [done | naive_solver | lia | naive_solver].
Qed.

Lemma build_index_eq corpus :
  build_index corpus =
  (built_index corpus, corpus, built_length corpus, built_cqi corpus).
Proof.
  unfold built_index, built_length, built_cqi, build_index.
  by destruct (fold_left _ _ _) as [[? ?] ?].
Qed.

(** What a fresh index holds, term by term. *)
Lemma build_index_spec corpus :
  built_length corpus = total_length corpus ∧
  ∀ t,
    postings_at (built_index corpus) t =
      postings_of (length corpus) t corpus ∧
    (built_index corpus !! t = None ↔ df t corpus = 0) ∧
    default 0 (built_cqi corpus !! t) = cf t corpus ∧
    (built_cqi corpus !! t = None ↔ df t corpus = 0).
Proof.
  destruct (docs_fold (length corpus) corpus ∅ 0 ∅) as [Hcl Ht].
  unfold built_index, built_length, built_cqi, build_index.
  destruct (fold_left _ _ _) as [[index cl] cqi]. simpl in *.
  split; [done|]. intros t. destruct (Ht t) as (H1 & H2 & H3 & H4).
  rewrite H1, H2, H3, H4. unfold postings_at.
  rewrite !lookup_empty. simpl. naive_solver.
Qed.

Lemma postings_of_ids n t docs :
  map doc_id (postings_of n t docs) =
  map sceneId (filter (fun d => t ∈ tokens d) docs).
Proof. unfold postings_of. rewrite map_map. done. Qed.

Lemma postings_of_length n t docs : length (postings_of n t docs) = df t docs.
Proof. unfold postings_of, df. by rewrite length_map. Qed.

Lemma postings_of_NoDup n t docs :
  NoDup (map sceneId docs) → NoDup (map doc_id (postings_of n t docs)).
Proof.
  rewrite postings_of_ids. intros Hnd.
  eapply sublist_NoDup; [exact Hnd | apply fmap_sublist, sublist_filter].
Qed.

Lemma postings_of_termCount n t docs :
  sum_list (map termCount (postings_of n t docs)) = cf t docs.
Proof.
  unfold postings_of, cf. induction docs as [|d docs IH]; [done|].
  rewrite filter_cons. destruct (decide (t ∈ tokens d)) as [Hin|Hnin]; simpl.
  - by rewrite IH.
  - rewrite IH. unfold tf at 2, term_positions.
    by rewrite (proj2 (positions_from_nil t 0 (tokens d))).
Qed.

Lemma build_index_lookup corpus t l :
  built_index corpus !! t = Some l →
  l = postings_of (length corpus) t corpus ∧ df t corpus ≠ 0.
Proof.
  intros Hl. destruct (build_index_spec corpus) as [_ Hs].
  destruct (Hs t) as (H1 & H2 & _). unfold postings_at in H1.
  rewrite Hl in H1. simpl in H1. split; [done|].
  intros Hdf. apply H2 in Hdf. congruence.
Qed.

(** C6: in the index [build_index] returns, every key has a non-empty
    posting list holding exactly one posting for each document that
    contains the term, in corpus order (so the document frequency is the
    length of the list, and the ids in the list are distinct when the
    corpus ids are); every posting's [termCount] is the length of its
    strictly increasing, non-empty [positions]; [collectionLength] is the
    sum of the document lengths; and [cqi] of the term is the sum of
    [termCount] over its postings. *)
Theorem build_index_invariants (corpus : list Doc) (t : string)
    (l : list Posting) :
  built_index corpus !! t = Some l →
  l ≠ [] ∧
  map doc_id l = map sceneId (filter (fun d => t ∈ tokens d) corpus) ∧
  length l = df t corpus ∧
  (NoDup (map sceneId corpus) → NoDup (map doc_id l)) ∧
  Forall (fun p => termCount p = length (positions p) ∧
                   positions p ≠ [] ∧
                   StronglySorted lt (positions p) ∧
                   N p = length corpus) l ∧
  Forall2 (fun p d => docLen p = length (tokens d)) l
          (filter (fun d => t ∈ tokens d) corpus) ∧
  built_length corpus = sum_list (map (fun d => length (tokens d)) corpus) ∧
  built_cqi corpus !! t = Some (sum_list (map termCount l)).
Proof.
  intros Hl. destruct (build_index_lookup corpus t l Hl) as [-> Hdf].
  destruct (build_index_spec corpus) as [Hcl Hs].
  destruct (Hs t) as (_ & _ & H3 & H4).
  split_and!.
  - intros Hnil. apply Hdf. by rewrite <- (postings_of_length (length corpus)), Hnil.
  - apply postings_of_ids.
  - apply postings_of_length.
  - apply postings_of_NoDup.
  - unfold postings_of. apply Forall_fmap, Forall_forall.
    intros d Hd. apply list_elem_of_filter in Hd as [Hin _]. simpl.
    split_and!; [done | | apply positions_from_increasing | done].
    unfold term_positions. rewrite positions_from_nil. by intros Hn.
  - unfold postings_of. apply Forall2_fmap_l, Forall_Forall2_diag, Forall_forall.
    done.
  - exact Hcl.
  - rewrite postings_of_termCount, <- H3.
    destruct (built_cqi corpus !! t) eqn:Hc; [done|].
    exfalso. by apply Hdf, H4.
Qed.

Lemma build_index_invariants_witness :
  ∃ l, built_index [mkDoc "doc" "a b a"] !! "a" = Some l ∧
       map doc_id l = ["doc"] ∧ l ≠ [] ∧
       built_cqi [mkDoc "doc" "a b a"] !! "a" = Some (sum_list (map termCount l)).
Proof.
  exists [mkPosting "doc" [0; 2] 2 3 0 1].
  assert (built_index [mkDoc "doc" "a b a"] !! "a" =
          Some [mkPosting "doc" [0; 2] 2 3 0 1]) as H
    by (vm_compute; reflexivity).
  split; [exact H|].
  pose proof (build_index_invariants _ _ _ H) as (H1 & H2 & _ & _ & _ & _ & _ & H8).
  split; [reflexivity|]. split; [exact H1 | exact H8].
Defined.

(** C7: indexing the one-document corpus with text ["a b a"] gives exactly
    two index entries: ["a"] with one posting (positions [0; 2], term
    frequency 2, document length 3) and ["b"] with one posting (positions
    [1], term frequency 1, document length 3), both for that document. *)
Theorem build_index_a_b_a (doc : string) :
  build_index [mkDoc doc "a b a"] =
  ({[ "a" := [mkPosting doc [0; 2] 2 3 0 1];
      "b" := [mkPosting doc [1] 1 3 0 1] ]},
   [mkDoc doc "a b a"], 3, {[ "a" := 2; "b" := 1 ]}).
Proof. vm_compute. reflexivity. Qed.

(** ** The sort and the slice *)

Section SortFacts.
Context {A : Type} (key : A → R).

Lemma insert_desc_perm x l : insert_desc key x l ≡ₚ x :: l.
Proof.
  induction l as [|y l IH]; simpl; [done|].
  destruct (Rlt_dec (key x) (key y)); [|done].
  rewrite IH. apply perm_swap.
Qed.

Lemma sort_desc_perm l : sort_desc key l ≡ₚ l.
Proof.
  induction l as [|x l IH]; simpl; [done|].
  by rewrite insert_desc_perm, IH.
Qed.

Lemma sort_desc_length l : length (sort_desc key l) = length l.
Proof. apply Permutation_length, sort_desc_perm. Qed.

Lemma insert_desc_sorted x l :
  desc_sorted key l → desc_sorted key (insert_desc key x l).
Proof.
  unfold desc_sorted. induction l as [|y l IH]; simpl; intros Hs.
  - repeat constructor.
  - apply StronglySorted_cons in Hs as [Hy Hs].
    destruct (Rlt_dec (key x) (key y)) as [Hlt|Hge].
    + apply StronglySorted_cons. split; [|by apply IH].
      rewrite insert_desc_perm. constructor; [lra | done].
    + apply StronglySorted_cons. split.
      * constructor; [lra|]. eapply Forall_impl; [exact Hy|].
        simpl. intros; lra.
      * by apply StronglySorted_cons.
Qed.

Lemma sort_desc_sorted l : desc_sorted key (sort_desc key l).
Proof.
  induction l as [|x l IH]; simpl; [constructor|].
  by apply insert_desc_sorted.
Qed.



Lemma insert_desc_id x l :
  Forall (fun y => (key y <= key x)%R) l → insert_desc key x l = x :: l.
Proof.
  destruct l as [|y l]; simpl; [done|]. intros Hy.
  apply Forall_cons in Hy as [Hy _].
  destruct (Rlt_dec (key x) (key y)); [lra | done].
Qed.

Lemma sort_desc_id l : desc_sorted key l → sort_desc key l = l.
Proof.
  unfold desc_sorted. induction l as [|x l IH]; simpl; [done|].
  intros Hs. apply StronglySorted_cons in Hs as [Hx Hs].
  rewrite IH by done. by apply insert_desc_id.
Qed.

Lemma top_k_length k l : length (top_k key k l) = min k (length l).
Proof. unfold top_k. by rewrite length_take, sort_desc_length. Qed.

Lemma top_k_sorted k l : desc_sorted key (top_k key k l).
Proof.
  unfold top_k, desc_sorted.
  apply (StronglySorted_app_1_l _ _ (drop k (sort_desc key l))).
  rewrite take_drop. apply sort_desc_sorted.
Qed.

Lemma top_k_all k l : length l ≤ k → top_k key k l = sort_desc key l.
Proof.
  intros Hk. unfold top_k. apply take_ge. by rewrite sort_desc_length.
Qed.

Lemma top_k_sublist k l x : x ∈ top_k key k l → x ∈ l.
Proof.
  unfold top_k. intros Hx. rewrite <- (sort_desc_perm l).
  eapply elem_of_sublist; [exact Hx | apply sublist_take].
Qed.
End SortFacts.


(** ** Float operations *)

Lemma pydiv_Some a b : b ≠ 0%R → pydiv a b = Some (a / b)%R.
Proof. intros Hb. unfold pydiv. by destruct (Req_dec_T b 0). Qed.

Lemma pydiv_zero a : pydiv a 0 = None.
Proof. unfold pydiv. by destruct (Req_dec_T 0 0). Qed.

Lemma math_log_e x : (0 < x)%R → math_log x math_e = Some (ln x).
Proof.
  intros Hx. unfold math_log, math_e.
  destruct (Rle_dec x 0) as [Hle|_]; [lra|].
  pose proof (exp_pos 1) as He.
  destruct (Rle_dec (exp 1) 0) as [Hle|_]; [lra|].
  rewrite ln_exp, pydiv_Some by lra. f_equal. field.
Qed.

Lemma INR_half_pos n : (0 < INR n + 0.5)%R.
Proof. pose proof (pos_INR n). lra. Qed.

Lemma Rdiv_nonneg a b : (0 <= a)%R → (0 < b)%R → (0 <= a / b)%R.
Proof.
  intros [Ha| <-] Hb.
  - left. by apply Rdiv_lt_0_compat.
  - right. unfold Rdiv. by rewrite Rmult_0_l.
Qed.

Lemma bm25_K_pos dl avgdl : (0 < avgdl)%R → (0 < bm25_K (INR dl) avgdl)%R.
Proof.
  intros Ha. unfold bm25_K, BM25.k1, BM25.b.
  assert (0 <= INR dl / avgdl)%R.
  { apply Rdiv_nonneg; [apply pos_INR | done]. }
  lra.
Qed.

(** ** List helpers *)

Lemma filter_none {A} (P : A → Prop) `{!∀ x, Decision (P x)} (l : list A) :
  (∀ x, x ∈ l → ¬ P x) → filter P l = [].
Proof.
  induction l as [|x l IH]; intros Hl; [done|].
  rewrite filter_cons, decide_False by (apply Hl; by left).
  apply IH. intros y Hy. apply Hl. by right.
Qed.

Lemma map_id_on {A} (f : A → A) (l : list A) :
  (∀ x, x ∈ l → f x = x) → map f l = l.
Proof.
  induction l as [|x l IH]; intros H; simpl; [done|].
  rewrite H by (by left). f_equal. apply IH. intros y Hy. apply H. by right.
Qed.

Lemma map_ext_on {A B} (f g : A → B) (l : list A) :
  (∀ x, x ∈ l → f x = g x) → map f l = map g l.
Proof.
  induction l as [|x l IH]; intros H; simpl; [done|].
  rewrite H by (by left). f_equal. apply IH. intros y Hy. apply H. by right.
Qed.

(** ** The BM25 loops *)

Lemma bm25_term_Some Nc ni qfi avgdl p :
  ni ≤ Nc → (0 < avgdl)%R →
  bm25_term Nc ni qfi avgdl p =
  Some (bm25_weight Nc ni qfi avgdl (termCount p) (docLen p)).
Proof.
  intros Hni Havg. unfold bm25_term.
  rewrite (pydiv_Some _ avgdl) by lra. simpl.
  pose proof (INR_half_pos ni) as Hd.
  pose proof (le_INR _ _ Hni) as Hle.
  rewrite (pydiv_Some _ (INR ni + 0.5)) by lra. simpl.
  rewrite math_log_e by (apply Rdiv_lt_0_compat; lra). simpl.
  pose proof (bm25_K_pos (docLen p) avgdl Havg) as HK.
  unfold bm25_K in HK.
  pose proof (pos_INR (termCount p)) as Hfi.
  assert (∀ K, (0 < K)%R → (K + INR (termCount p))%R ≠ 0%R) as HKf
    by (intros; lra).
  rewrite (pydiv_Some _ (_ + INR (termCount p))) by (apply HKf, HK). simpl.
  pose proof (pos_INR qfi) as Hq.
  rewrite pydiv_Some by (unfold BM25.k2; lra). simpl.
  reflexivity.
Qed.

Lemma bm25_term_erase Nc ni qfi avgdl p :
  bm25_term Nc ni qfi avgdl (erase p) = bm25_term Nc ni qfi avgdl p.
Proof. reflexivity. Qed.

Lemma map_doc_id_erase l : map doc_id (map erase l) = map doc_id l.
Proof. by rewrite map_map. Qed.

Lemma same_shape_ids l l' :
  map erase l = map erase l' → map doc_id l = map doc_id l'.
Proof. intros H. by rewrite <- (map_doc_id_erase l), H, map_doc_id_erase. Qed.

Lemma same_shape_length l l' : map erase l = map erase l' → length l = length l'.
Proof. intros H. by rewrite <- (length_map erase l), H, length_map. Qed.

Lemma bm25_postings_shape sid t Nc ni qfi avgdl ps :
  ∀ i s top ps' s' top',
    bm25_postings sid t Nc ni qfi avgdl i ps s top = Some (ps', s', top') →
    map erase ps' = map erase ps ∧
    top' = top ++ map (pair t) (positions_from sid i (map doc_id ps)).
Proof.
  induction ps as [|p ps IH]; intros i s top ps' s' top' H; simpl in H.
  - injection H as <- <- <-. simpl. by rewrite app_nil_r.
  - simpl. destruct (String.eqb (doc_id p) sid).
    + destruct (bm25_term Nc ni qfi avgdl p) as [c|]; simpl in H; [|done].
      destruct (bm25_postings _ _ _ _ _ _ _ _ _ _)
        as [[[ps'' s''] top'']|] eqn:Hrec; simpl in H; [|done].
      injection H as <- <- <-. apply IH in Hrec as [H1 ->].
      simpl. rewrite H1. split; [done|]. by rewrite <- app_assoc.
    + destruct (bm25_postings _ _ _ _ _ _ _ _ _ _)
        as [[[ps'' s''] top'']|] eqn:Hrec; simpl in H; [|done].
      injection H as <- <- <-. apply IH in Hrec as [H1 ->].
      simpl. by rewrite H1.
Qed.

Lemma bm25_postings_total sid t Nc ni qfi avgdl ps :
  ∀ i s top,
    (∀ p, p ∈ ps → is_Some (bm25_term Nc ni qfi avgdl p)) →
    is_Some (bm25_postings sid t Nc ni qfi avgdl i ps s top).
Proof.
  induction ps as [|p ps IH]; intros i s top Hdef; simpl; [done|].
  assert (∀ p', p' ∈ ps → is_Some (bm25_term Nc ni qfi avgdl p')) as Hdef'.
  { intros p' Hp'. apply Hdef. by right. }
  destruct (String.eqb (doc_id p) sid).
  - destruct (Hdef p) as [c ->]; [by left|]. simpl.
    destruct (IH (S i) (s + c)%R (top ++ [(t, i)]) Hdef')
      as [[[ps'' s''] top''] ->]. done.
  - destruct (IH (S i) s top Hdef') as [[[ps'' s''] top''] ->]. done.
Qed.

Lemma bm25_postings_miss sid t Nc ni qfi avgdl ps :
  ∀ i s top,
    sid ∉ map doc_id ps →
    bm25_postings sid t Nc ni qfi avgdl i ps s top = Some (ps, s, top).
Proof.
  induction ps as [|p ps IH]; intros i s top Hnin; simpl; [done|].
  simpl in Hnin. apply not_elem_of_cons in Hnin as [Hne Hnin].
  destruct (String.eqb_spec (doc_id p) sid) as [Heq|_]; [congruence|].
  by rewrite IH.
Qed.

(** With at most one posting per document id, the loop writes one score. *)
Lemma bm25_postings_exact sid t Nc ni qfi avgdl (w : Posting → R) ps :
  ∀ i s top,
    NoDup (map doc_id ps) →
    (∀ p, p ∈ ps → bm25_term Nc ni qfi avgdl p = Some (w p)) →
    bm25_postings sid t Nc ni qfi avgdl i ps s top =
    Some (map (fun p => if String.eqb (doc_id p) sid
                        then set_score p (s + w p) else p) ps,
          (s + sum_R (map w (filter (fun p => doc_id p = sid) ps)))%R,
          top ++ map (pair t) (positions_from sid i (map doc_id ps))).
Proof.
  induction ps as [|p ps IH]; intros i s top Hnd Hw; simpl.
  - rewrite app_nil_r. do 3 f_equal. lra.
  - simpl in Hnd. apply NoDup_cons in Hnd as [Hp Hnd].
    assert (∀ p', p' ∈ ps → bm25_term Nc ni qfi avgdl p' = Some (w p'))
      as Hw' by (intros p' Hp'; apply Hw; by right).
    rewrite filter_cons.
    destruct (String.eqb_spec (doc_id p) sid) as [Heq|Hne].
    + rewrite (Hw p) by (by left). simpl.
      rewrite Heq in Hp. rewrite bm25_postings_miss by done. simpl.
      rewrite decide_True by done. simpl.
      assert (filter (fun p0 => doc_id p0 = sid) ps = []) as ->.
      { apply filter_none. intros p' Hp' Hid.
        apply Hp. rewrite <- Hid. by apply list_elem_of_fmap_2. }
      assert (positions_from sid (S i) (map doc_id ps) = []) as ->
        by (by apply positions_from_nil).
      simpl. do 3 f_equal; [|lra]. f_equal.
      symmetry. apply map_id_on. intros p' Hp'.
      destruct (String.eqb_spec (doc_id p') sid) as [Hid|]; [|done].
      exfalso. apply Hp. rewrite <- Hid. by apply list_elem_of_fmap_2.
    + rewrite decide_False by done.
      rewrite IH by done. done.
Qed.

Lemma postings_at_insert index t l t' :
  postings_at (<[t := l]> index) t' =
  if decide (t = t') then l else postings_at index t'.
Proof.
  unfold postings_at. rewrite lookup_insert.
  by destruct (decide (t = t')).
Qed.

Lemma same_shape_refl index : same_shape index index.
Proof. by intros t. Qed.

Lemma same_shape_trans i1 i2 i3 :
  same_shape i1 i2 → same_shape i2 i3 → same_shape i1 i3.
Proof. intros H1 H2 t. by rewrite H2, H1. Qed.

Lemma same_shape_insert index t l :
  map erase l = map erase (postings_at index t) →
  same_shape index (<[t := l]> index).
Proof.
  intros Hl t'. rewrite postings_at_insert.
  by destruct (decide (t = t')) as [<-|].
Qed.

Lemma doc_refs_shape index index' terms sid :
  same_shape index index' → doc_refs index' terms sid = doc_refs index terms sid.
Proof.
  intros Hs. unfold doc_refs. induction terms as [|t ts IH]; [done|].
  rewrite !bind_cons, IH. do 3 f_equal. apply same_shape_ids, Hs.
Qed.

Lemma all_refs_shape index index' terms docs :
  same_shape index index' → all_refs index' terms docs = all_refs index terms docs.
Proof.
  intros Hs. unfold all_refs. induction docs as [|d ds IH]; [done|].
  by rewrite !bind_cons, IH, (doc_refs_shape index index').
Qed.

Lemma bm25_terms_cons sid Nc avgdl q t ts index s top :
  bm25_terms sid Nc avgdl q (t :: ts) index s top =
  '(l', s1, top1) ←
    bm25_postings sid t Nc (length (postings_at index t)) (counter_get q t)
                  avgdl 0 (postings_at index t) s top;
  bm25_terms sid Nc avgdl q ts (<[t := l']> index) s1 top1.
Proof.
  simpl. unfold index_get, postings_at.
  destruct (index !! t) as [l|] eqn:Hl; simpl.
  - rewrite Hl. done.
  - rewrite lookup_insert_eq. simpl. by rewrite insert_insert_eq.
Qed.

Lemma bm25_terms_shape sid Nc avgdl q ts :
  ∀ index s top index' s' top',
    bm25_terms sid Nc avgdl q ts index s top = Some (index', s', top') →
    same_shape index index' ∧
    (∀ t, t ∈ ts → is_Some (index' !! t)) ∧
    (∀ t, is_Some (index !! t) → is_Some (index' !! t)) ∧
    (∀ t, t ∉ ts → index' !! t = index !! t) ∧
    top' = top ++ doc_refs index ts sid.
Proof.
  induction ts as [|t ts IH]; intros index s top index' s' top' H.
  - simpl in H. injection H as <- <- <-. unfold doc_refs. simpl.
    rewrite app_nil_r. split_and!; try done.
    + intros t Ht. by apply elem_of_nil in Ht.
  - rewrite bm25_terms_cons in H.
    destruct (bm25_postings _ _ _ _ _ _ _ _ _ _) as [[[l' s1] top1]|] eqn:Hp;
      simpl in H; [|done].
    apply bm25_postings_shape in Hp as [Hl' ->].
    apply IH in H as (H1 & H2 & H3 & H4 & ->).
    pose proof (same_shape_insert index t l' Hl') as Hs.
    split_and!.
    + by eapply same_shape_trans.
    + intros t' [->|Ht']%elem_of_cons; [|by apply H2].
      apply H3. rewrite lookup_insert_eq. done.
    + intros t' Ht'. apply H3. rewrite lookup_insert_is_Some.
      destruct (decide (t = t')); naive_solver.
    + intros t' [Hne Ht']%not_elem_of_cons.
      rewrite H4 by done. by rewrite lookup_insert_ne.
    + rewrite (doc_refs_shape index _ ts sid Hs).
      unfold doc_refs. rewrite bind_cons. by rewrite app_assoc.
Qed.

Lemma bm25_defined_shape Nc avgdl index index' :
  same_shape index index' → bm25_defined Nc avgdl index →
  bm25_defined Nc avgdl index'.
Proof.
  intros Hs Hd t p qfi Hp.
  rewrite (same_shape_length _ _ (Hs t)), <- bm25_term_erase.
  assert (erase p ∈ map erase (postings_at index t)) as Hin.
  { rewrite <- (Hs t). by apply list_elem_of_fmap_2. }
  apply list_elem_of_fmap in Hin as (p0 & -> & Hp0).
  rewrite bm25_term_erase. by apply Hd.
Qed.

Lemma bm25_terms_total sid Nc avgdl q ts :
  ∀ index s top,
    bm25_defined Nc avgdl index →
    is_Some (bm25_terms sid Nc avgdl q ts index s top).
Proof.
  induction ts as [|t ts IH]; intros index s top Hd; [done|].
  rewrite bm25_terms_cons.
  destruct (bm25_postings_total sid t Nc (length (postings_at index t))
              (counter_get q t) avgdl (postings_at index t) 0 s top)
    as [[[l' s1] top1] Hp]; [intros p Hp; by apply Hd|].
  rewrite Hp. simpl. apply IH.
  apply bm25_postings_shape in Hp as [Hl' _].
  eapply bm25_defined_shape; [|exact Hd]. by apply same_shape_insert.
Qed.

Lemma bm25_docs_shape Nc avgdl q ts docs :
  ∀ index top index' top',
    bm25_docs Nc avgdl q ts docs index top = Some (index', top') →
    same_shape index index' ∧
    (docs ≠ [] → ∀ t, t ∈ ts → is_Some (index' !! t)) ∧
    (∀ t, is_Some (index !! t) → is_Some (index' !! t)) ∧
    (∀ t, t ∉ ts → index' !! t = index !! t) ∧
    top' = top ++ all_refs index ts docs.
Proof.
  induction docs as [|d docs IH]; intros index top index' top' H.
  - simpl in H. injection H as <- <-. unfold all_refs. simpl.
    rewrite app_nil_r. split_and!; done.
  - simpl in H.
    destruct (bm25_terms _ _ _ _ _ _ _ _) as [[[index1 s1] top1]|] eqn:Ht;
      simpl in H; [|done].
    apply bm25_terms_shape in Ht as (T1 & T2 & T3 & T4 & ->).
    apply IH in H as (H1 & H2 & H3 & H4 & ->).
    split_and!.
    + by eapply same_shape_trans.
    + intros _ t Ht. by apply H3, T2.
    + intros t Ht. by apply H3, T3.
    + intros t Ht. rewrite H4 by done. by apply T4.
    + rewrite (all_refs_shape index index1) by done.
      unfold all_refs. rewrite bind_cons. by rewrite app_assoc.
Qed.

Lemma bm25_docs_total Nc avgdl q ts docs :
  ∀ index top,
    bm25_defined Nc avgdl index →
    is_Some (bm25_docs Nc avgdl q ts docs index top).
Proof.
  induction docs as [|d docs IH]; intros index top Hd; [done|].
  simpl.
  destruct (bm25_terms_total (sceneId d) Nc avgdl q ts index 0%R top Hd)
    as [[[index1 s1] top1] Ht].
  rewrite Ht. simpl. apply IH.
  apply bm25_terms_shape in Ht as (T1 & _).
  by eapply bm25_defined_shape.
Qed.

(** ** Indexes of a corpus *)

Lemma postings_of_erase n t docs :
  map erase (postings_of n t docs) = postings_of n t docs.
Proof. unfold postings_of. by rewrite map_map. Qed.

Lemma built_shaped corpus : shaped corpus (built_index corpus).
Proof.
  intros t. destruct (build_index_spec corpus) as [_ Hs].
  destruct (Hs t) as (-> & _). apply postings_of_erase.
Qed.

Lemma shaped_same_shape corpus index index' :
  shaped corpus index → same_shape index index' → shaped corpus index'.
Proof. intros Hs Hsame t. by rewrite Hsame. Qed.

Lemma shaped_length corpus index t :
  shaped corpus index → length (postings_at index t) = df t corpus.
Proof.
  intros Hs. by rewrite <- (length_map erase), Hs, postings_of_length.
Qed.

Lemma shaped_ids corpus index t :
  shaped corpus index →
  map doc_id (postings_at index t) =
  map sceneId (filter (fun d => t ∈ tokens d) corpus).
Proof.
  intros Hs. by rewrite <- map_doc_id_erase, Hs, postings_of_ids.
Qed.

Lemma shaped_elem corpus index t p :
  shaped corpus index → p ∈ postings_at index t →
  ∃ d, d ∈ corpus ∧ t ∈ tokens d ∧ erase p = posting_of (length corpus) t d.
Proof.
  intros Hs Hp.
  assert (erase p ∈ map erase (postings_at index t)) as Hin
    by (by apply list_elem_of_fmap_2).
  rewrite Hs in Hin. unfold postings_of in Hin.
  apply list_elem_of_fmap in Hin as (d & Hd & Hin).
  apply list_elem_of_filter in Hin as [Ht Hin]. eauto.
Qed.

Lemma df_le t docs : df t docs ≤ length docs.
Proof. apply length_filter. Qed.

Lemma total_length_pos corpus d t :
  d ∈ corpus → t ∈ tokens d → 0 < total_length corpus.
Proof.
  unfold total_length. induction corpus as [|d' corpus IH]; intros Hd Ht.
  - by apply elem_of_nil in Hd.
  - simpl. apply elem_of_cons in Hd as [<-|Hd].
    + destruct (tokens d); [by apply elem_of_nil in Ht | simpl; lia].
    + specialize (IH Hd Ht). lia.
Qed.

Lemma avgdl_of_pos corpus d t :
  d ∈ corpus → t ∈ tokens d → (0 < avgdl_of corpus)%R.
Proof.
  intros Hd Ht. unfold avgdl_of. apply Rdiv_lt_0_compat.
  - apply (lt_INR 0). by eapply total_length_pos.
  - apply (lt_INR 0). destruct corpus; [by apply elem_of_nil in Hd|simpl; lia].
Qed.

Lemma shaped_term corpus index q t p :
  shaped corpus index → p ∈ postings_at index t →
  bm25_term (length corpus) (length (postings_at index t)) q
            (avgdl_of corpus) p =
  Some (bm25_weight (length corpus) (df t corpus) q (avgdl_of corpus)
                    (termCount p) (docLen p)).
Proof.
  intros Hs Hp. destruct (shaped_elem _ _ _ _ Hs Hp) as (d & Hd & Ht & _).
  rewrite (shaped_length corpus) by done.
  apply bm25_term_Some; [apply df_le | by eapply avgdl_of_pos].
Qed.

Lemma shaped_defined corpus index :
  shaped corpus index →
  bm25_defined (length corpus) (avgdl_of corpus) index.
Proof. intros Hs t p qfi Hp. by erewrite shaped_term. Qed.

Lemma pydiv_avgdl corpus :
  corpus ≠ [] →
  pydiv (INR (total_length corpus)) (INR (length corpus)) =
  Some (avgdl_of corpus).
Proof.
  intros Hne. apply pydiv_Some, not_0_INR. by destruct corpus.
Qed.

(** On an index of a non-empty corpus BM25 scoring returns; it leaves the
    index as it was up to scores and empty entries for the query terms,
    and produces one reference per (document, query term, posting of the
    term with the document's id). *)
Lemma bm25_scoring_shaped corpus index q :
  corpus ≠ [] → shaped corpus index →
  ∃ index',
    bm25_scoring index q corpus (total_length corpus) =
      Some (all_refs index (unique_terms q) corpus, index') ∧
    same_shape index index' ∧
    (∀ t, t ∈ unique_terms q → is_Some (index' !! t)) ∧
    (∀ t, is_Some (index !! t) → is_Some (index' !! t)) ∧
    (∀ t, t ∉ unique_terms q → index' !! t = index !! t).
Proof.
  intros Hne Hs. unfold bm25_scoring. rewrite pydiv_avgdl by done. simpl.
  destruct (bm25_docs_total (length corpus) (avgdl_of corpus) q
              (unique_terms q) corpus index [] (shaped_defined _ _ Hs))
    as [[index' top] Hd].
  rewrite Hd. simpl.
  apply bm25_docs_shape in Hd as (H1 & H2 & H3 & H4 & ->).
  exists index'. simpl. split_and!; auto.
Qed.

(** ** BM25 scores on a corpus with distinct document ids *)

Lemma filter_by_id corpus d t :
  NoDup (map sceneId corpus) → d ∈ corpus →
  filter (fun d' => sceneId d' = sceneId d)
         (filter (fun d' => t ∈ tokens d') corpus) =
  if decide (t ∈ tokens d) then [d] else [].
Proof.
  induction corpus as [|d' c IH]; intros Hnd Hd.
  - by apply elem_of_nil in Hd.
  - simpl in Hnd. apply NoDup_cons in Hnd as [Hd' Hnd].
    destruct (decide (sceneId d' = sceneId d)) as [Hid|Hid].
    + assert (d = d') as <-.
      { apply elem_of_cons in Hd as [Hd|Hd]; [done|].
        exfalso. apply Hd'. rewrite Hid. by apply list_elem_of_fmap_2. }
      assert (filter (fun d' => sceneId d' = sceneId d)
                     (filter (fun d' => t ∈ tokens d') c) = []) as Hrest.
      { apply filter_none. intros d'' Hd'' Hid'. apply Hd'.
        rewrite <- Hid'. apply list_elem_of_fmap_2.
        by apply list_elem_of_filter in Hd'' as [_ ?]. }
      rewrite (filter_cons _ d). destruct (decide (t ∈ tokens d)).
      * by rewrite filter_cons, decide_True, Hrest.
      * done.
    + apply elem_of_cons in Hd as [->|Hd]; [done|].
      rewrite (filter_cons _ d'). destruct (decide (t ∈ tokens d')).
      * rewrite filter_cons, decide_False by done. by apply IH.
      * by apply IH.
Qed.

Lemma matching_weights n t sid (W : nat → nat → R) l : ∀ L,
  map erase l = map (posting_of n t) L →
  map (fun p => W (termCount p) (docLen p))
      (filter (fun p => doc_id p = sid) l) =
  map (fun d => W (tf t d) (length (tokens d)))
      (filter (fun d => sceneId d = sid) L).
Proof.
  induction l as [|p l IH]; intros [|d L] H; simpl in H; try done.
  injection H as Hid _ Htc Hdl _ Hl. rewrite !filter_cons, Hid.
  destruct (decide (sceneId d = sid)); simpl; rewrite (IH L Hl); [|done].
  by rewrite Htc, Hdl.
Qed.

Lemma shaped_hit corpus index q d t :
  NoDup (map sceneId corpus) → d ∈ corpus → shaped corpus index →
  sum_R (map (fun p => bm25_weight (length corpus) (df t corpus)
                         (counter_get q t) (avgdl_of corpus)
                         (termCount p) (docLen p))
             (filter (fun p => doc_id p = sceneId d) (postings_at index t))) =
  bm25_hit corpus q d t.
Proof.
  intros Hnd Hd Hs.
  rewrite (matching_weights (length corpus) t (sceneId d)
             (bm25_weight (length corpus) (df t corpus) (counter_get q t)
                          (avgdl_of corpus))
             _ (filter (fun d' => t ∈ tokens d') corpus)) by apply Hs.
  rewrite filter_by_id by done. unfold bm25_hit, bm25_term_weight.
  destruct (decide (t ∈ tokens d)); simpl; lra.
Qed.

Lemma shaped_match corpus index d t p :
  NoDup (map sceneId corpus) → d ∈ corpus → shaped corpus index →
  p ∈ postings_at index t → doc_id p = sceneId d →
  t ∈ tokens d ∧ termCount p = tf t d ∧ docLen p = length (tokens d).
Proof.
  intros Hnd Hd Hs Hp Hid.
  destruct (shaped_elem _ _ _ _ Hs Hp) as (d' & Hd' & Ht & He).
  pose proof (f_equal doc_id He) as Hsid. simpl in Hsid.
  pose proof (f_equal termCount He) as Htc. simpl in Htc.
  pose proof (f_equal docLen He) as Hdl. simpl in Hdl.
  rewrite Hid in Hsid. symmetry in Hsid.
  assert (d' = d) as ->.
  { pose proof (filter_by_id corpus d t Hnd Hd) as Hf.
    assert (d' ∈ filter (fun d0 => sceneId d0 = sceneId d)
                   (filter (fun d0 => t ∈ tokens d0) corpus)) as Hin.
    { apply list_elem_of_filter. split; [done|].
      by apply list_elem_of_filter. }
    rewrite Hf in Hin. destruct (decide (t ∈ tokens d)).
    - by apply list_elem_of_singleton in Hin.
    - by apply elem_of_nil in Hin. }
  done.
Qed.

Lemma bm25_sum_cons corpus q d t ts :
  bm25_sum corpus q d (t :: ts) =
  (bm25_hit corpus q d t + bm25_sum corpus q d ts)%R.
Proof.
  unfold bm25_sum, bm25_hit. rewrite filter_cons.
  destruct (decide (t ∈ tokens d)); simpl; lra.
Qed.

Lemma bm25_sum_nil corpus q d : bm25_sum corpus q d [] = 0%R.
Proof. reflexivity. Qed.

Lemma set_score_ext p x y : x = y → set_score p x = set_score p y.
Proof. by intros ->. Qed.

(** One document's pass over the query terms: the running sum ends at
    [s] plus the document's BM25 sum, and the posting the document has for
    a query term holds the running sum as it was after that term. *)
Lemma bm25_terms_exact corpus q d :
  NoDup (map sceneId corpus) → d ∈ corpus →
  ∀ ts, NoDup ts →
  ∀ index s top index' s' top',
    shaped corpus index →
    bm25_terms (sceneId d) (length corpus) (avgdl_of corpus) q ts
               index s top = Some (index', s', top') →
    s' = (s + bm25_sum corpus q d ts)%R ∧
    ∀ t, postings_at index' t =
         map (fun p =>
                if decide (t ∈ ts ∧ doc_id p = sceneId d)
                then set_score p
                       (s + bm25_sum corpus q d (prefix_upto t ts))
                else p)
             (postings_at index t).
Proof.
  intros Hnd Hd ts. induction ts as [|t ts IH];
    intros Hts index s top index' s' top' Hs H.
  - simpl in H. injection H as <- <- <-. split; [rewrite bm25_sum_nil; lra|].
    intros t. symmetry. apply map_id_on. intros p _.
    rewrite decide_False; [done|]. intros [Ht _]. by apply elem_of_nil in Ht.
  - apply NoDup_cons in Hts as [Ht Hts].
    rewrite bm25_terms_cons in H.
    rewrite (bm25_postings_exact _ _ _ _ _ _
               (fun p => bm25_weight (length corpus) (df t corpus)
                           (counter_get q t) (avgdl_of corpus)
                           (termCount p) (docLen p))) in H.
    2:{ rewrite (shaped_ids corpus) by done.
        eapply sublist_NoDup; [exact Hnd|].
        apply fmap_sublist, sublist_filter. }
    2:{ intros p Hp. by apply shaped_term. }
    simpl in H. rewrite shaped_hit in H by done.
    set (l' := map _ (postings_at index t)) in H.
    assert (map erase l' = map erase (postings_at index t)) as Hl'.
    { subst l'. rewrite map_map. apply map_ext_on. intros p _.
      by destruct (String.eqb (doc_id p) (sceneId d)). }
    apply IH in H as [-> Hidx]; [|done|].
    2:{ eapply shaped_same_shape; [exact Hs|]. by apply same_shape_insert. }
    split; [rewrite bm25_sum_cons; lra|].
    intros t'. rewrite Hidx, postings_at_insert.
    destruct (decide (t = t')) as [<-|Hne].
    + subst l'. rewrite map_map. apply map_ext_on. intros p Hp.
      simpl. rewrite String.eqb_refl. rewrite bm25_sum_cons, bm25_sum_nil.
      destruct (String.eqb_spec (doc_id p) (sceneId d)) as [Hid|Hid].
      * rewrite decide_False by (simpl; naive_solver).
        rewrite decide_True by (split; [by left | done]).
        apply set_score_ext.
        destruct (shaped_match corpus index d t p) as (Hin & -> & ->);
          try done.
        unfold bm25_hit, bm25_term_weight. rewrite decide_True by done. lra.
      * rewrite decide_False by naive_solver.
        rewrite decide_False by naive_solver. done.
    + apply map_ext_on. intros p Hp. simpl.
      destruct (String.eqb_spec t t') as [Heq|_]; [done|].
      rewrite bm25_sum_cons.
      destruct (decide (t' ∈ ts ∧ doc_id p = sceneId d)) as [[Hin Hid]|Hn].
      * rewrite decide_True by (split; [by right | done]).
        apply set_score_ext. lra.
      * rewrite decide_False; [done|].
        intros [[Heq|Hin]%elem_of_cons Hid]; [congruence | naive_solver].
Qed.

Lemma doc_by_id_cons d docs sid :
  doc_by_id (d :: docs) sid =
  if decide (sceneId d = sid) then Some d else doc_by_id docs sid.
Proof.
  unfold doc_by_id. rewrite filter_cons.
  by destruct (decide (sceneId d = sid)).
Qed.

Lemma doc_by_id_None docs sid :
  sid ∉ map sceneId docs → doc_by_id docs sid = None.
Proof.
  intros Hnin. unfold doc_by_id. rewrite filter_none; [done|].
  intros d Hd Hid. apply Hnin. rewrite <- Hid. by apply list_elem_of_fmap_2.
Qed.

Lemma doc_by_id_Some docs d :
  NoDup (map sceneId docs) → d ∈ docs → doc_by_id docs (sceneId d) = Some d.
Proof.
  induction docs as [|d' docs IH]; intros Hnd Hd.
  - by apply elem_of_nil in Hd.
  - simpl in Hnd. apply NoDup_cons in Hnd as [Hd' Hnd].
    rewrite doc_by_id_cons.
    apply elem_of_cons in Hd as [->|Hd]; [by rewrite decide_True|].
    rewrite decide_False; [by apply IH|].
    intros Hid. apply Hd'. rewrite Hid. by apply list_elem_of_fmap_2.
Qed.

(** The pass over the documents: the posting a processed document has for
    a query term ends up holding that document's running sum. *)
Lemma bm25_docs_exact corpus q ts :
  NoDup (map sceneId corpus) → NoDup ts →
  ∀ docs,
    (∀ d, d ∈ docs → d ∈ corpus) → NoDup (map sceneId docs) →
  ∀ index top index' top',
    shaped corpus index →
    bm25_docs (length corpus) (avgdl_of corpus) q ts docs index top =
      Some (index', top') →
    ∀ t, postings_at index' t =
         map (fun p =>
                match doc_by_id docs (doc_id p) with
                | Some d =>
                    if decide (t ∈ ts)
                    then set_score p
                           (bm25_sum corpus q d (prefix_upto t ts))
                    else p
                | None => p
                end)
             (postings_at index t).
Proof.
  intros Hnd Hts docs. induction docs as [|d docs IH];
    intros Hsub Hnd' index top index' top' Hs H t.
  - simpl in H. injection H as <- <-. symmetry. by apply map_id_on.
  - simpl in H.
    destruct (bm25_terms _ _ _ _ _ _ _ _) as [[[index1 s1] top1]|] eqn:Ht;
      simpl in H; [|done].
    simpl in Hnd'. apply NoDup_cons in Hnd' as [Hd Hnd'].
    assert (d ∈ corpus) as Hdc by (apply Hsub; by left).
    pose proof (bm25_terms_shape _ _ _ _ _ _ _ _ _ _ _ Ht) as (Hsh & _).
    destruct (bm25_terms_exact corpus q d Hnd Hdc ts Hts _ _ _ _ _ _ Hs Ht)
      as [_ Hidx1].
    assert (∀ d', d' ∈ docs → d' ∈ corpus) as Hsub'
      by (intros d' Hd'; apply Hsub; by right).
    rewrite (IH Hsub' Hnd' index1 top1 index' top'
                (shaped_same_shape _ _ _ Hs Hsh) H t).
    rewrite Hidx1, map_map. apply map_ext_on. intros p Hp.
    rewrite doc_by_id_cons.
    destruct (decide (t ∈ ts ∧ doc_id p = sceneId d)) as [[Hin Hid]|Hn].
    + simpl. rewrite Hid, doc_by_id_None by done.
      rewrite decide_True by done. rewrite decide_True by done.
      apply set_score_ext. lra.
    + destruct (decide (sceneId d = doc_id p)) as [Hid|Hid].
      * rewrite <- Hid, doc_by_id_None by done.
        rewrite decide_False; [done|naive_solver].
      * done.
Qed.

(** ** Query counters *)

Lemma counter_incr_keys t c :
  NoDup (map fst c) →
  NoDup (map fst (counter_incr t c)) ∧
  (∀ k, k ∈ map fst (counter_incr t c) ↔ k = t ∨ k ∈ map fst c).
Proof.
  induction c as [|[k n] c IH]; simpl; intros Hnd.
  - split; [apply NoDup_singleton | intros k'; set_solver].
  - apply NoDup_cons in Hnd as [Hk Hnd].
    destruct (String.eqb_spec k t) as [->|Hkt]; simpl.
    + split; [by apply NoDup_cons | intros k'; set_solver].
    + destruct (IH Hnd) as [IH1 IH2]. split.
      * apply NoDup_cons. split; [|done]. rewrite IH2. naive_solver.
      * intros k'. rewrite !elem_of_cons, IH2. naive_solver.
Qed.

Lemma counter_get_incr t c t' :
  counter_get (counter_incr t c) t' =
  if decide (t = t') then S (counter_get c t') else counter_get c t'.
Proof.
  induction c as [|[k n] c IH]; simpl.
  - destruct (String.eqb_spec t t'); case_decide; naive_solver.
  - destruct (String.eqb_spec k t) as [->|Hkt]; simpl.
    + destruct (String.eqb_spec t t'); case_decide; naive_solver.
    + destruct (String.eqb_spec k t') as [->|Hkt'].
      * case_decide; naive_solver.
      * apply IH.
Qed.

Lemma Counter_fold terms : ∀ c,
  NoDup (map fst c) →
  let r := fold_left (fun c t => counter_incr t c) terms c in
  NoDup (map fst r) ∧
  (∀ k, k ∈ map fst r ↔ k ∈ terms ∨ k ∈ map fst c) ∧
  (∀ t, counter_get r t =
        counter_get c t + length (filter (fun x => x = t) terms)).
Proof.
  induction terms as [|x terms IH]; intros c Hnd; simpl.
  - split_and!; [done | set_solver | intros; lia].
  - destruct (counter_incr_keys x c Hnd) as [Hnd' Hk].
    destruct (IH (counter_incr x c) Hnd') as (H1 & H2 & H3).
    split_and!; [done | |].
    + intros k. rewrite H2, Hk, elem_of_cons. naive_solver.
    + intros t. rewrite H3, counter_get_incr, filter_cons.
      destruct (decide (x = t)); simpl; lia.
Qed.

Lemma Counter_keys_NoDup terms : NoDup (map fst (Counter terms)).
Proof. apply (Counter_fold terms []). constructor. Qed.

Lemma Counter_keys terms t : t ∈ map fst (Counter terms) ↔ t ∈ terms.
Proof.
  destruct (Counter_fold terms [] (NoDup_nil_2)) as (_ & H & _).
  unfold Counter. rewrite (H t). simpl. set_solver.
Qed.

Lemma Counter_get terms t :
  counter_get (Counter terms) t = length (filter (fun x => x = t) terms).
Proof.
  destruct (Counter_fold terms [] (NoDup_nil_2)) as (_ & _ & H).
  apply (H t).
Qed.

Lemma existsb_eqb t u : existsb (String.eqb t) u = bool_decide (t ∈ u).
Proof.
  induction u as [|x u IH]; cbn [existsb].
  - symmetry. apply bool_decide_eq_false_2, not_elem_of_nil.
  - rewrite IH. destruct (String.eqb_spec t x) as [->|Hne]; cbn [orb].
    + symmetry. apply bool_decide_eq_true_2. by left.
    + apply bool_decide_ext. rewrite elem_of_cons. naive_solver.
Qed.

Lemma unique_fold keys : ∀ u,
  NoDup u →
  let r := fold_left (fun u t => if existsb (String.eqb t) u
                                 then u else u ++ [t]) keys u in
  NoDup r ∧ (∀ t, t ∈ r ↔ t ∈ u ∨ t ∈ keys) ∧
  (NoDup (u ++ keys) → r = u ++ keys).
Proof.
  induction keys as [|k keys IH]; intros u Hu; simpl.
  - split_and!; [done | set_solver | by rewrite app_nil_r].
  - rewrite existsb_eqb. case_bool_decide as Hk.
    + destruct (IH u Hu) as (H1 & H2 & H3). split_and!; [done | |].
      * intros t. rewrite H2, elem_of_cons. naive_solver.
      * intros Hnd. apply NoDup_app in Hnd as (_ & Hd & _).
        exfalso. apply (Hd k Hk). by left.
    + assert (NoDup (u ++ [k])) as Hu'.
      { apply NoDup_app. split_and!; [done | | apply NoDup_singleton].
        intros x Hx ->%list_elem_of_singleton. done. }
      destruct (IH (u ++ [k]) Hu') as (H1 & H2 & H3). split_and!; [done | |].
      * intros t. rewrite H2. set_solver.
      * intros Hnd. rewrite <- app_assoc in H3. by apply H3.
Qed.

Lemma unique_terms_NoDup q : NoDup (unique_terms q).
Proof. apply (unique_fold (map fst q) []). constructor. Qed.

Lemma unique_terms_elem q t : t ∈ unique_terms q ↔ t ∈ map fst q.
Proof.
  destruct (unique_fold (map fst q) [] (NoDup_nil_2)) as (_ & H & _).
  unfold unique_terms. rewrite (H t). set_solver.
Qed.

Lemma unique_terms_keys q : NoDup (map fst q) → unique_terms q = map fst q.
Proof.
  intros Hnd.
  destruct (unique_fold (map fst q) [] (NoDup_nil_2)) as (_ & _ & H).
  by apply H.
Qed.

Lemma unique_terms_Counter terms t :
  t ∈ unique_terms (Counter terms) ↔ t ∈ terms.
Proof. by rewrite unique_terms_elem, Counter_keys. Qed.

(** ** The references a scorer produces *)

Lemma positions_from_elem x l : ∀ i j,
  j ∈ positions_from x i l ↔ ∃ k, j = i + k ∧ l !! k = Some x.
Proof.
  induction l as [|y l IH]; intros i j; simpl.
  - split; [intros H; by apply elem_of_nil in H | by intros (k & _ & ?)].
  - assert (j ∈ positions_from x (S i) l ↔
            ∃ k, j = i + S k ∧ l !! k = Some x) as Hrest.
    { rewrite IH. split; intros (k & -> & Hk); exists k; split; [lia|done|lia|done]. }
    destruct (String.eqb_spec y x) as [->|Hne].
    + rewrite elem_of_cons, Hrest. split.
      * intros [->|(k & -> & Hk)]; [exists 0 | exists (S k)]; split; [lia|done..].
      * intros ([|k] & -> & Hk); [left; lia | right; eauto].
    + rewrite Hrest. split.
      * intros (k & -> & Hk). exists (S k). done.
      * intros ([|k] & -> & Hk); [simpl in Hk; congruence | eauto].
Qed.

Lemma doc_refs_elem index ts sid (r : Ref) :
  r ∈ doc_refs index ts sid ↔
  r.1 ∈ ts ∧ ∃ p, postings_at index r.1 !! r.2 = Some p ∧ doc_id p = sid.
Proof.
  unfold doc_refs. rewrite list_elem_of_bind. destruct r as [t j]. simpl.
  split.
  - intros (t' & Hr & Ht'). apply list_elem_of_fmap in Hr as (j' & Heq & Hj').
    injection Heq as -> ->. split; [done|].
    apply positions_from_elem in Hj' as (k & -> & Hk). simpl.
    rewrite list_lookup_fmap in Hk.
    destruct (postings_at index t' !! k) as [p|]; [|done].
    injection Hk as <-. eauto.
  - intros (Ht & p & Hp & Hid). exists t. split; [|done].
    apply list_elem_of_fmap. exists j. split; [done|].
    apply positions_from_elem. exists j. split; [done|].
    by rewrite list_lookup_fmap, Hp, <- Hid.
Qed.

Lemma all_refs_elem index ts docs (r : Ref) :
  r ∈ all_refs index ts docs ↔
  ∃ d p, d ∈ docs ∧ r.1 ∈ ts ∧
         postings_at index r.1 !! r.2 = Some p ∧ doc_id p = sceneId d.
Proof.
  unfold all_refs. rewrite list_elem_of_bind. split.
  - intros (d & Hr & Hd). apply doc_refs_elem in Hr as (Ht & p & Hp & Hid).
    eauto 10.
  - intros (d & p & Hd & Ht & Hp & Hid). exists d. split; [|done].
    apply doc_refs_elem. eauto.
Qed.

Lemma entries_elem index top (r : Ref) p :
  r ∈ top → deref index r = Some p →
  (doc_id p, score p) ∈ entries index top.
Proof.
  intros Hr Hp. unfold entries. apply list_elem_of_omap.
  exists r. split; [done|]. by rewrite Hp.
Qed.

Lemma entries_elem_inv index top sid s :
  (sid, s) ∈ entries index top →
  ∃ r p, r ∈ top ∧ deref index r = Some p ∧ doc_id p = sid ∧ score p = s.
Proof.
  unfold entries. intros (r & Hr & Hp)%list_elem_of_omap.
  destruct (deref index r) as [p|] eqn:Hd; [|done]. simpl in Hp.
  injection Hp as <- <-. by exists r, p.
Qed.

(** ** BM25 on an index of a corpus with distinct ids *)

Lemma bm25_scoring_exact corpus index q :
  corpus ≠ [] → NoDup (map sceneId corpus) → shaped corpus index →
  ∃ index',
    bm25_scoring index q corpus (total_length corpus) =
      Some (all_refs index (unique_terms q) corpus, index') ∧
    same_shape index index' ∧
    (∀ t, t ∈ unique_terms q → is_Some (index' !! t)) ∧
    (∀ t, t ∉ unique_terms q → index' !! t = index !! t) ∧
    ∀ t, postings_at index' t =
         map (fun p =>
                match doc_by_id corpus (doc_id p) with
                | Some d =>
                    if decide (t ∈ unique_terms q)
                    then set_score p (bm25_partial corpus q d t)
                    else p
                | None => p
                end)
             (postings_at index t).
Proof.
  intros Hne Hnd Hs. unfold bm25_scoring. rewrite pydiv_avgdl by done. simpl.
  destruct (bm25_docs_total (length corpus) (avgdl_of corpus) q
              (unique_terms q) corpus index [] (shaped_defined _ _ Hs))
    as [[index' top] Hd].
  rewrite Hd. simpl.
  pose proof (bm25_docs_exact corpus q (unique_terms q) Hnd
                (unique_terms_NoDup q) corpus (fun d H => H) Hnd
                index [] index' top Hs Hd) as Hex.
  apply bm25_docs_shape in Hd as (H1 & H2 & H3 & H4 & ->).
  exists index'. simpl. split_and!; auto.
Qed.

Lemma shaped_posting corpus index d t :
  shaped corpus index → d ∈ corpus → t ∈ tokens d →
  ∃ j p, postings_at index t !! j = Some p ∧
         erase p = posting_of (length corpus) t d.
Proof.
  intros Hs Hd Ht.
  assert (posting_of (length corpus) t d ∈ map erase (postings_at index t))
    as Hin.
  { rewrite Hs. unfold postings_of. apply list_elem_of_fmap_2.
    by apply list_elem_of_filter. }
  apply list_elem_of_lookup in Hin as [j Hj].
  rewrite list_lookup_fmap in Hj.
  destruct (postings_at index t !! j) as [p|] eqn:Hp; [|done].
  simpl in Hj. exists j, p. split; [done | congruence].
Qed.

Lemma prefix_upto_last corpus q d ts :
  NoDup ts → (∃ t, t ∈ ts ∧ t ∈ tokens d) →
  ∃ t, t ∈ ts ∧ t ∈ tokens d ∧
       bm25_sum corpus q d (prefix_upto t ts) = bm25_sum corpus q d ts.
Proof.
  induction ts as [|x ts IH]; intros Hnd (t & Ht & Hd).
  - by apply elem_of_nil in Ht.
  - apply NoDup_cons in Hnd as [Hx Hnd].
    destruct (decide (Exists (fun t => t ∈ tokens d) ts)) as [He|Hn].
    + apply Exists_exists in He as (t' & Ht' & Hd').
      destruct (IH Hnd (ex_intro _ t' (conj Ht' Hd'))) as (u & Hu & Hud & Hs).
      exists u. split_and!; [by right | done |].
      simpl. destruct (String.eqb_spec x u) as [->|_]; [done|].
      by rewrite !bm25_sum_cons, Hs.
    + assert (t = x) as ->.
      { apply elem_of_cons in Ht as [->|Ht]; [done|].
        exfalso. apply Hn, Exists_exists. eauto. }
      exists x. split_and!; [by left | done |].
      simpl. rewrite String.eqb_refl, !bm25_sum_cons. f_equal.
      unfold bm25_sum. rewrite (filter_none _ ts); [done|].
      intros u Hu Hud. apply Hn, Exists_exists. eauto.
Qed.

Lemma built_length_total corpus : built_length corpus = total_length corpus.
Proof. apply build_index_spec. Qed.

(** What BM25 scoring does on a fresh index of a non-empty corpus with
    distinct ids: it returns; every reference it produces is the posting of
    a corpus document for a query term the document holds, scored with
    the document's running sum at that term; and every such posting is
    referenced. *)
Lemma bm25_built corpus terms :
  corpus ≠ [] → NoDup (map sceneId corpus) →
  ∃ top index',
    bm25_scoring (built_index corpus) (Counter terms) corpus
                 (built_length corpus) = Some (top, index') ∧
    (∀ r : Ref, r ∈ top →
       ∃ d p, d ∈ corpus ∧ r.1 ∈ terms ∧ r.1 ∈ tokens d ∧
              deref index' r = Some p ∧ doc_id p = sceneId d ∧
              score p = bm25_partial corpus (Counter terms) d r.1) ∧
    (∀ d t, d ∈ corpus → t ∈ terms → t ∈ tokens d →
       ∃ j p, (t, j) ∈ top ∧ deref index' (t, j) = Some p ∧
              doc_id p = sceneId d ∧
              score p = bm25_partial corpus (Counter terms) d t) ∧
    (∀ t, t ∈ terms → is_Some (index' !! t)) ∧
    top = all_refs (built_index corpus) (unique_terms (Counter terms)) corpus.
Proof.
  intros Hne Hnd. rewrite built_length_total.
  pose proof (built_shaped corpus) as Hs.
  destruct (bm25_scoring_exact corpus (built_index corpus) (Counter terms)
              Hne Hnd Hs) as (index' & Hsc & Hsh & Hk & _ & Hex).
  exists (all_refs (built_index corpus) (unique_terms (Counter terms)) corpus),
         index'.
  split_and!; [done | | | | done].
  - intros [t j] (d & p & Hd & Ht & Hp & Hid)%all_refs_elem. simpl in *.
    assert (p ∈ postings_at (built_index corpus) t) as Hin
      by (by eapply list_elem_of_lookup_2).
    destruct (shaped_match corpus _ d t p Hnd Hd Hs Hin Hid) as (Htd & _).
    exists d. eexists. split_and!; [done | by apply unique_terms_Counter | done | ..].
    + unfold deref. simpl. fold (postings_at index' t).
      rewrite Hex, list_lookup_fmap, Hp. simpl. reflexivity.
    + rewrite Hid, doc_by_id_Some by done. by destruct (decide _).
    + rewrite Hid, doc_by_id_Some, decide_True by done. done.
  - intros d t Hd Ht Htd.
    destruct (shaped_posting corpus _ d t Hs Hd Htd) as (j & p & Hp & He).
    pose proof (f_equal doc_id He) as Hid. simpl in Hid.
    apply unique_terms_Counter in Ht.
    exists j. eexists. split_and!.
    + apply all_refs_elem. exists d, p. simpl. done.
    + unfold deref. simpl. fold (postings_at index' t).
      rewrite Hex, list_lookup_fmap, Hp. simpl. reflexivity.
    + rewrite Hid, doc_by_id_Some by done. by destruct (decide _).
    + rewrite Hid, doc_by_id_Some, decide_True by done. done.
  - intros t Ht. by apply Hk, unique_terms_Counter.
Qed.

Lemma bm25_built_full corpus terms (top : list Ref) index' d :
  NoDup (unique_terms (Counter terms)) →
  (∀ d t, d ∈ corpus → t ∈ terms → t ∈ tokens d →
     ∃ j p, (t, j) ∈ top ∧ deref index' (t, j) = Some p ∧
            doc_id p = sceneId d ∧
            score p = bm25_partial corpus (Counter terms) d t) →
  d ∈ corpus → (∃ t, t ∈ terms ∧ t ∈ tokens d) →
  ∃ (r : Ref) p, r ∈ top ∧ deref index' r = Some p ∧ doc_id p = sceneId d ∧
         score p = bm25_score corpus (Counter terms) d.
Proof.
  intros Hnd Hd Hdc (t & Ht & Htd).
  destruct (prefix_upto_last corpus (Counter terms) d
              (unique_terms (Counter terms)) Hnd) as (u & Hu & Hud & Hsum).
  { exists t. split; [by apply unique_terms_Counter | done]. }
  apply (proj1 (unique_terms_Counter terms u)) in Hu.
  destruct (Hd d u Hdc Hu Hud) as (j & p & Hin & Hp & Hid & Hs).
  exists (u, j), p. split_and!; [done..|].
  rewrite Hs. exact Hsum.
Qed.

Lemma bm25_ranking_scoring index q corpus cl top index' :
  bm25_scoring index q corpus cl = Some (top, index') →
  bm25_ranking index q corpus cl =
  Some (top_k (score_of index') 100 top, index').
Proof. intros H. unfold bm25_ranking. by rewrite H. Qed.

Lemma entries_top_k index k top x :
  x ∈ entries index (top_k (score_of index) k top) → x ∈ entries index top.
Proof.
  destruct x as [sid s].
  intros (r & p & Hr & Hp & <- & <-)%entries_elem_inv.
  eapply entries_elem; [|done]. by eapply top_k_sublist.
Qed.

Lemma entries_top_k_all index k top x :
  length top ≤ k →
  x ∈ entries index top → x ∈ entries index (top_k (score_of index) k top).
Proof.
  destruct x as [sid s].
  intros Hk (r & p & Hr & Hp & <- & <-)%entries_elem_inv.
  eapply entries_elem; [|done].
  rewrite top_k_all by done. by rewrite sort_desc_perm.
Qed.

Lemma entries_ids index top sid :
  sid ∈ map fst (entries index top) ↔
  ∃ r p, r ∈ top ∧ deref index r = Some p ∧ doc_id p = sid.
Proof.
  split.
  - intros ([sid' s] & -> & Hin)%list_elem_of_fmap.
    apply entries_elem_inv in Hin as (r & p & ? & ? & ? & ?). eauto.
  - intros (r & p & Hr & Hp & <-).
    apply list_elem_of_fmap. exists (doc_id p, score p).
    split; [done|]. by eapply entries_elem.
Qed.

Lemma corpus_id_inj corpus d d' :
  NoDup (map sceneId corpus) → d ∈ corpus → d' ∈ corpus →
  sceneId d = sceneId d' → d = d'.
Proof.
  intros Hnd Hd Hd' Hid.
  pose proof (doc_by_id_Some corpus d Hnd Hd) as H1.
  pose proof (doc_by_id_Some corpus d' Hnd Hd') as H2.
  rewrite Hid in H1. congruence.
Qed.

Lemma bm25_ranking_length index q corpus cl top index' :
  bm25_ranking index q corpus cl = Some (top, index') → length top ≤ 100.
Proof.
  unfold bm25_ranking.
  destruct (bm25_scoring index q corpus cl) as [[top0 index0]|]; [|done].
  simpl. intros [= <- <-]. rewrite top_k_length. lia.
Qed.

Lemma entries_length index top : length (entries index top) ≤ length top.
Proof.
  unfold entries. induction top as [|r top IH]; [done|].
  cbn [omap list_omap].
  destruct (deref index r ≫= _); simpl; lia.
Qed.

(** C3, as amended: on a non-empty corpus with distinct ids the BM25
    result before truncation holds an entry for every document that
    shares a term with the query and none for a document that shares no
    term; [bm25_ranking] returns the first 100 entries of the sorted
    result, which still hold no entry of a document sharing no term, and
    an entry of every sharing document whenever at most 100 entries were
    produced. *)
Theorem bm25_coverage (corpus : list Doc) (terms : list string) :
  corpus ≠ [] → NoDup (map sceneId corpus) →
  ∃ top index',
    bm25_scoring (built_index corpus) (Counter terms) corpus
                 (built_length corpus) = Some (top, index') ∧
    bm25_ranking (built_index corpus) (Counter terms) corpus
                 (built_length corpus) =
      Some (top_k (score_of index') 100 top, index') ∧
    (∀ d, d ∈ corpus → (∃ t, t ∈ terms ∧ t ∈ tokens d) →
          sceneId d ∈ map fst (entries index' top)) ∧
    (∀ d, d ∈ corpus → (∀ t, t ∈ terms → t ∉ tokens d) →
          (sceneId d ∉ map fst (entries index' top)) ∧
          (sceneId d ∉
            map fst (entries index' (top_k (score_of index') 100 top)))) ∧
    (length top ≤ 100 →
     ∀ d, d ∈ corpus → (∃ t, t ∈ terms ∧ t ∈ tokens d) →
          sceneId d ∈
            map fst (entries index' (top_k (score_of index') 100 top))).
Proof.
  intros Hne Hnd.
  destruct (bm25_built corpus terms Hne Hnd) as (top & index' & Hsc & Hr & Hd & _).
  exists top, index'.
  assert (∀ d, d ∈ corpus → (∃ t, t ∈ terms ∧ t ∈ tokens d) →
               sceneId d ∈ map fst (entries index' top)) as Hcov.
  { intros d Hdc (t & Ht & Htd).
    destruct (Hd d t Hdc Ht Htd) as (j & p & Hin & Hp & Hid & _).
    apply entries_ids. eauto. }
  assert (∀ d, d ∈ corpus → (∀ t, t ∈ terms → t ∉ tokens d) →
               sceneId d ∉ map fst (entries index' top)) as Hnone.
  { intros d Hdc Hno (r & p & Hin & Hp & Hid)%entries_ids.
    destruct (Hr r Hin) as (d' & p' & Hd' & Ht & Htd & Hp' & Hid' & _).
    assert (d' = d) as ->.
    { apply (corpus_id_inj corpus); [done..|]. congruence. }
    by apply (Hno r.1). }
  split_and!; [done | by apply bm25_ranking_scoring | done | |].
  - intros d Hdc Hno. split; [by apply Hnone|].
    intros ([sid s] & Heq & Hin)%list_elem_of_fmap.
    apply entries_top_k in Hin. apply (Hnone d Hdc Hno).
    apply list_elem_of_fmap. by exists (sid, s).
  - intros Hlen d Hdc Hsh.
    pose proof (Hcov d Hdc Hsh) as Hin0.
    apply list_elem_of_fmap in Hin0 as ([sid s] & Heq & Hin).
    apply list_elem_of_fmap. exists (sid, s). split; [done|].
    by apply entries_top_k_all.
Qed.

Lemma bm25_coverage_witness :
  ∃ top index',
    bm25_ranking
      (built_index [mkDoc "d1" "the cat sat"; mkDoc "d2" "the dog sat"])
      (Counter ["cat"])
      [mkDoc "d1" "the cat sat"; mkDoc "d2" "the dog sat"]
      (built_length [mkDoc "d1" "the cat sat"; mkDoc "d2" "the dog sat"])
      = Some (top, index') ∧
    "d2" ∉ map fst (entries index' top).
Proof.
  assert ([mkDoc "d1" "the cat sat"; mkDoc "d2" "the dog sat"] ≠ []) as Hne
    by done.
  assert (NoDup (map sceneId
            [mkDoc "d1" "the cat sat"; mkDoc "d2" "the dog sat"]))
    as Hnd by (apply (bool_decide_unpack _); vm_compute; exact I).
  destruct (bm25_coverage _ ["cat"] Hne Hnd)
    as (top & index' & _ & Hrk & _ & Hnone & _).
  exists (top_k (score_of index') 100 top), index'.
  split; [exact Hrk|].
  apply (Hnone (mkDoc "d2" "the dog sat")).
  - right. left.
  - intros t ->%list_elem_of_singleton.
    apply (bool_decide_unpack _). vm_compute. exact I.
Defined.

Lemma bm25_ranking_empty index q cl : bm25_ranking index q [] cl = None.
Proof.
  unfold bm25_ranking, bm25_scoring. simpl. by rewrite pydiv_zero.
Qed.

(** C3, as stated, fails on 101 one-word documents that all hold the query
    term (the slice keeps 100 entries), and on the empty corpus (no result
    at all). *)
Lemma bm25_covers_counterexample :
  ¬ bm25_covers corpus101 ["a"] ∧ ¬ bm25_covers [] ["a"].
Proof.
  split.
  - intros (top & index' & Hrk & Hcov & _).
    apply bm25_ranking_length in Hrk.
    assert (NoDup (map sceneId corpus101)) as Hnd
      by (apply (bool_decide_unpack _); vm_compute; exact I).
    assert (map sceneId corpus101 ⊆+ map fst (entries index' top)) as Hsub.
    { apply NoDup_submseteq; [done|].
      intros sid (d & -> & Hd)%list_elem_of_fmap. apply Hcov; [done|].
      exists "a". split; [by left|].
      unfold corpus101 in Hd. apply list_elem_of_fmap in Hd as (n & -> & _).
      by left. }
    apply submseteq_length in Hsub.
    rewrite !length_map in Hsub. pose proof (entries_length index' top).
    assert (length corpus101 = 101) as Hlen by reflexivity. lia.
  - intros (top & index' & Hrk & _). by rewrite bm25_ranking_empty in Hrk.
Qed.

Lemma Rdiv_lt_one a b : (0 < b)%R → (a < b)%R → (a / b < 1)%R.
Proof.
  intros Hb Hab. apply (Rmult_lt_reg_r b); [done|].
  unfold Rdiv. rewrite Rmult_assoc, Rinv_l by lra. lra.
Qed.

Lemma Rdiv_gt_one a b : (0 < b)%R → (b < a)%R → (1 < a / b)%R.
Proof.
  intros Hb Hab. apply (Rmult_lt_reg_r b); [done|].
  unfold Rdiv. rewrite Rmult_assoc, Rinv_l by lra. lra.
Qed.

Lemma bm25_idf_neg Nc ni :
  ni ≤ Nc → Nc < 2 * ni → (bm25_idf Nc ni < 0)%R.
Proof.
  intros Hle Hlt. unfold bm25_idf. rewrite <- ln_1.
  pose proof (le_INR _ _ Hle) as H1. pose proof (lt_INR _ _ Hlt) as H2.
  rewrite mult_INR in H2. simpl in H2.
  pose proof (INR_half_pos ni) as Hd.
  apply ln_increasing.
  - apply Rdiv_lt_0_compat; lra.
  - apply Rdiv_lt_one; lra.
Qed.

Lemma bm25_idf_pos Nc ni :
  2 * ni < Nc → (0 < bm25_idf Nc ni)%R.
Proof.
  intros Hlt. unfold bm25_idf. rewrite <- ln_1.
  pose proof (lt_INR _ _ Hlt) as H2.
  rewrite mult_INR in H2. simpl in H2.
  pose proof (INR_half_pos ni) as Hd.
  apply ln_increasing; [lra|].
  apply Rdiv_gt_one; lra.
Qed.

Lemma bm25_terms_accumulator corpus q d index top :
  NoDup (map sceneId corpus) → d ∈ corpus → shaped corpus index →
  ∃ index1 top1,
    bm25_terms (sceneId d) (length corpus) (avgdl_of corpus) q
               (unique_terms q) index 0 top =
    Some (index1, bm25_score corpus q d, top1).
Proof.
  intros Hnd Hd Hs.
  destruct (bm25_terms_total (sceneId d) (length corpus) (avgdl_of corpus) q
              (unique_terms q) index 0%R top (shaped_defined _ _ Hs))
    as [[[index1 s1] top1] Ht].
  destruct (bm25_terms_exact corpus q d Hnd Hd _ (unique_terms_NoDup q)
              _ _ _ _ _ _ Hs Ht) as [-> _].
  exists index1, top1. rewrite Ht. do 3 f_equal. unfold bm25_score. lra.
Qed.

(** X16: on a non-empty corpus (ids distinct) the BM25 scorer returns, and
    the accumulator of lines 110-123 ends, for a document, at the sum over
    the unique query terms the document holds of
    [idf * tf_weight * qtf_weight] with [ni], [avgdl], [K], [idf],
    [tf_weight], [qtf_weight] of lines 96-122 and [k1 = 1.8], [k2 = 5],
    [b = 0.75].  What is returned is one entry for each pair of a document
    and a query term it holds, carrying the running sum of the document up
    to that term; only the entry of the last query term a document holds
    carries the complete sum.  [idf] is negative for a term held by more
    than half of the documents, and enters the sum as it is. *)
Theorem bm25_scores (corpus : list Doc) (terms : list string) :
  corpus ≠ [] → NoDup (map sceneId corpus) →
  let q := Counter terms in
  ∃ top index',
    bm25_scoring (built_index corpus) q corpus (built_length corpus) =
      Some (top, index') ∧
    bm25_ranking (built_index corpus) q corpus (built_length corpus) =
      Some (top_k (score_of index') 100 top, index') ∧
    (∀ d index0 top0, d ∈ corpus → shaped corpus index0 →
       ∃ index1 top1,
         bm25_terms (sceneId d) (length corpus) (avgdl_of corpus) q
                    (unique_terms q) index0 0 top0 =
         Some (index1, bm25_score corpus q d, top1)) ∧
    (∀ r : Ref, r ∈ top →
       ∃ d p, d ∈ corpus ∧ r.1 ∈ terms ∧ r.1 ∈ tokens d ∧
              deref index' r = Some p ∧ doc_id p = sceneId d ∧
              score p =
                bm25_sum corpus q d (prefix_upto r.1 (unique_terms q))) ∧
    (∀ d, d ∈ corpus → (∃ t, t ∈ terms ∧ t ∈ tokens d) →
       ∃ r p, r ∈ top ∧ deref index' r = Some p ∧ doc_id p = sceneId d ∧
              score p = bm25_score corpus q d) ∧
    (∀ d ts,
       bm25_sum corpus q d ts =
       sum_R (map (fun t =>
                ln ((INR (length corpus) - INR (df t corpus) + 0.5) /
                    (INR (df t corpus) + 0.5)) *
                (((1.8 + 1) * INR (tf t d)) /
                 (1.8 * ((1 - 0.75) +
                         0.75 * (INR (length (tokens d)) /
                                 (INR (built_length corpus) /
                                  INR (length corpus)))) +
                  INR (tf t d))) *
                (((5 + 1) * INR (counter_get q t)) /
                 (5 + INR (counter_get q t))))%R
              (filter (fun t => t ∈ tokens d) ts))) ∧
    (∀ d, bm25_score corpus q d = bm25_sum corpus q d (unique_terms q)) ∧
    NoDup (unique_terms q) ∧
    (∀ t, t ∈ unique_terms q ↔ t ∈ terms) ∧
    (∀ t, counter_get q t = length (filter (fun x => x = t) terms)) ∧
    (∀ t l, built_index corpus !! t = Some l → length l = df t corpus) ∧
    (∀ t, length corpus < 2 * df t corpus →
          (bm25_idf (length corpus) (df t corpus) < 0)%R).
Proof.
  intros Hne Hnd q.
  destruct (bm25_built corpus terms Hne Hnd)
    as (top & index' & Hsc & Hr & Hd & _).
  exists top, index'.
  split_and!; [done | by apply bm25_ranking_scoring | ..].
  - intros d index0 top0 Hdc Hs. by apply bm25_terms_accumulator.
  - exact Hr.
  - intros d Hdc Hsh.
    by apply (bm25_built_full corpus terms top index' d
                (unique_terms_NoDup _) Hd).
  - intros d ts. rewrite built_length_total. reflexivity.
  - done.
  - apply unique_terms_NoDup.
  - intros t. apply unique_terms_Counter.
  - intros t. apply Counter_get.
  - intros t l Hl. apply build_index_lookup in Hl as [-> _].
    apply postings_of_length.
  - intros t Hlt. apply bm25_idf_neg; [apply df_le | done].
Qed.

Lemma bm25_scores_witness :
  ∃ top index' r p,
    bm25_scoring
      (built_index [mkDoc "d1" "the cat sat"; mkDoc "d2" "the dog sat"])
      (Counter ["the"; "cat"])
      [mkDoc "d1" "the cat sat"; mkDoc "d2" "the dog sat"]
      (built_length [mkDoc "d1" "the cat sat"; mkDoc "d2" "the dog sat"])
      = Some (top, index') ∧
    r ∈ top ∧ deref index' r = Some p ∧ doc_id p = "d1" ∧
    score p = bm25_score [mkDoc "d1" "the cat sat"; mkDoc "d2" "the dog sat"]
                         (Counter ["the"; "cat"]) (mkDoc "d1" "the cat sat").
Proof.
  assert ([mkDoc "d1" "the cat sat"; mkDoc "d2" "the dog sat"] ≠ []) as Hne
    by done.
  assert (NoDup (map sceneId
            [mkDoc "d1" "the cat sat"; mkDoc "d2" "the dog sat"]))
    as Hnd by (apply (bool_decide_unpack _); vm_compute; exact I).
  destruct (bm25_scores _ ["the"; "cat"] Hne Hnd)
    as (top & index' & Hsc & _ & _ & _ & Hfull & _).
  destruct (Hfull (mkDoc "d1" "the cat sat")) as (r & p & H1 & H2 & H3 & H4).
  - left.
  - exists "cat". split; [right; left|].
    apply (bool_decide_unpack _). vm_compute. exact I.
  - exists top, index', r, p. split; [exact Hsc|]. split; [exact H1|].
    split; [exact H2|]. split; [exact H3|exact H4].
Defined.

(** ** Monotonicity of the BM25 term weight *)

Lemma bm25_tf_weight_mono K f1 f2 :
  (0 < K)%R → (0 <= f2)%R → (f2 < f1)%R →
  (bm25_tf_weight K f2 < bm25_tf_weight K f1)%R.
Proof.
  intros HK H2 H12. unfold bm25_tf_weight, BM25.k1.
  apply Rlt_0_minus.
  replace ((1.8 + 1) * f1 / (K + f1) - (1.8 + 1) * f2 / (K + f2))%R
    with ((1.8 + 1) * K * (f1 - f2) / ((K + f1) * (K + f2)))%R
    by (field; lra).
  apply Rdiv_lt_0_compat; [|nra].
  apply Rmult_lt_0_compat; lra.
Qed.

Lemma bm25_tf_weight_pos K f :
  (0 < K)%R → (0 < f)%R → (0 < bm25_tf_weight K f)%R.
Proof.
  intros HK Hf. unfold bm25_tf_weight, BM25.k1.
  apply Rdiv_lt_0_compat; lra.
Qed.

Lemma bm25_qtf_weight_pos qfi : 0 < qfi → (0 < bm25_qtf_weight qfi)%R.
Proof.
  intros Hq. apply (lt_INR 0) in Hq. simpl in Hq.
  unfold bm25_qtf_weight, BM25.k2. apply Rdiv_lt_0_compat; lra.
Qed.

Lemma sum_R_lt {A} (f g : A → R) (l : list A) :
  l ≠ [] → (∀ x, x ∈ l → (f x < g x)%R) →
  (sum_R (map f l) < sum_R (map g l))%R.
Proof.
  induction l as [|x l IH]; intros Hne Hlt; [done|].
  simpl. pose proof (Hlt x (list_elem_of_here _ _)) as Hx.
  destruct l as [|y l].
  - simpl. lra.
  - assert (sum_R (map f (y :: l)) < sum_R (map g (y :: l)))%R.
    { apply IH; [done|]. intros z Hz. apply Hlt. by right. }
    lra.
Qed.

Lemma tf_pos t d : 0 < tf t d ↔ t ∈ tokens d.
Proof.
  unfold tf, term_positions.
  pose proof (positions_from_nil t 0 (tokens d)) as H.
  destruct (positions_from t 0 (tokens d)) as [|x l] eqn:E; simpl.
  - split; [lia|]. intros Hin. exfalso. by apply (proj1 H).
  - split; [|lia]. intros _.
    destruct (decide (t ∈ tokens d)) as [|Hn]; [done|].
    apply H in Hn. congruence.
Qed.

Lemma prefix_upto_elem t ts x : x ∈ prefix_upto t ts → x ∈ ts.
Proof.
  induction ts as [|y ts IH]; simpl; [done|].
  destruct (String.eqb y t).
  - intros ->%list_elem_of_singleton. by left.
  - intros [->|Hx]%elem_of_cons; [by left | right; by apply IH].
Qed.

Lemma prefix_upto_nonempty t ts : ts ≠ [] → prefix_upto t ts ≠ [].
Proof. destruct ts as [|y ts]; simpl; [done|]. by destruct (String.eqb y t). Qed.

Lemma filter_all {A} (P : A → Prop) `{!∀ x, Decision (P x)} (l : list A) :
  (∀ x, x ∈ l → P x) → filter P l = l.
Proof.
  induction l as [|x l IH]; intros Hl; [done|].
  rewrite filter_cons, decide_True by (apply Hl; by left).
  f_equal. apply IH. intros y Hy. apply Hl. by right.
Qed.

Lemma bm25_weight_mono Nc ni qfi avgdl f1 f2 dl :
  (0 < bm25_idf Nc ni)%R → (0 < avgdl)%R → 0 < qfi → f2 < f1 →
  (bm25_weight Nc ni qfi avgdl f2 dl < bm25_weight Nc ni qfi avgdl f1 dl)%R.
Proof.
  intros Hidf Havg Hq Hf. unfold bm25_weight.
  pose proof (bm25_K_pos dl avgdl Havg) as HK.
  pose proof (bm25_qtf_weight_pos qfi Hq) as Hqw.
  pose proof (bm25_tf_weight_mono _ _ _ HK (pos_INR f2) (lt_INR _ _ Hf)) as Ht.
  apply Rmult_lt_compat_r; [done|]. by apply Rmult_lt_compat_l.
Qed.

Lemma bm25_weight_antitone Nc ni qfi avgdl f1 f2 dl :
  (bm25_idf Nc ni < 0)%R → (0 < avgdl)%R → 0 < qfi → f2 < f1 →
  (bm25_weight Nc ni qfi avgdl f1 dl < bm25_weight Nc ni qfi avgdl f2 dl)%R.
Proof.
  intros Hidf Havg Hq Hf. unfold bm25_weight.
  pose proof (bm25_K_pos dl avgdl Havg) as HK.
  pose proof (bm25_qtf_weight_pos qfi Hq) as Hqw.
  pose proof (bm25_tf_weight_mono _ _ _ HK (pos_INR f2) (lt_INR _ _ Hf)) as Ht.
  apply Rmult_lt_compat_r; [done|].
  by apply Rmult_lt_gt_compat_neg_l.
Qed.

Lemma counter_get_pos terms t : t ∈ terms → 0 < counter_get (Counter terms) t.
Proof.
  intros Ht. rewrite Counter_get.
  assert (t ∈ filter (fun x => x = t) terms) as Hin
    by (by apply list_elem_of_filter).
  destruct (filter _ terms); [by apply elem_of_nil in Hin | simpl; lia].
Qed.

(** Term by term higher frequencies, equal lengths, positive [idf]: every
    running sum of the first document is the higher one. *)
Lemma bm25_sum_mono corpus terms d1 d2 ts :
  d2 ∈ corpus → ts ≠ [] →
  (∀ t, t ∈ ts → t ∈ terms ∧ t ∈ tokens d1 ∧ t ∈ tokens d2 ∧
                 tf t d2 < tf t d1 ∧ 2 * df t corpus < length corpus) →
  length (tokens d1) = length (tokens d2) →
  (bm25_sum corpus (Counter terms) d2 ts <
   bm25_sum corpus (Counter terms) d1 ts)%R.
Proof.
  intros Hd2 Hne Hts Hlen. unfold bm25_sum.
  rewrite !filter_all by (intros t Ht; by apply Hts).
  apply sum_R_lt; [done|]. intros t Ht.
  destruct (Hts t Ht) as (Hin & H1 & H2 & Htf & Hdf).
  unfold bm25_term_weight. rewrite Hlen.
  apply bm25_weight_mono; [by apply bm25_idf_pos | | by apply counter_get_pos | done].
  by eapply avgdl_of_pos.
Qed.

(** C8, as amended: in a corpus with distinct ids, for a non-empty query
    whose terms every one occur in fewer than half of the documents
    (positive [idf]), a document that holds every query term more often
    than another document of the same length (same [K]) that holds them
    all too has the strictly higher BM25 score; and of the two entries
    produced for a query term, the first document's scores higher. *)
Theorem bm25_tf_monotone (corpus : list Doc) (terms : list string)
    (d1 d2 : Doc) :
  NoDup (map sceneId corpus) → d1 ∈ corpus → d2 ∈ corpus → terms ≠ [] →
  (∀ t, t ∈ terms → t ∈ tokens d1 ∧ t ∈ tokens d2 ∧ tf t d2 < tf t d1) →
  length (tokens d1) = length (tokens d2) →
  (∀ t, t ∈ terms → 2 * df t corpus < length corpus) →
  let q := Counter terms in
  (bm25_score corpus q d2 < bm25_score corpus q d1)%R ∧
  ∃ top index',
    bm25_scoring (built_index corpus) q corpus (built_length corpus) =
      Some (top, index') ∧
    bm25_ranking (built_index corpus) q corpus (built_length corpus) =
      Some (top_k (score_of index') 100 top, index') ∧
    (∃ r1 p1 r2 p2,
       r1 ∈ top ∧ r2 ∈ top ∧
       deref index' r1 = Some p1 ∧ deref index' r2 = Some p2 ∧
       doc_id p1 = sceneId d1 ∧ doc_id p2 = sceneId d2 ∧
       score p1 = bm25_score corpus q d1 ∧
       score p2 = bm25_score corpus q d2) ∧
    (∀ (r1 r2 : Ref) p1 p2,
       r1 ∈ top → r2 ∈ top → r1.1 = r2.1 →
       deref index' r1 = Some p1 → deref index' r2 = Some p2 →
       doc_id p1 = sceneId d1 → doc_id p2 = sceneId d2 →
       (score p2 < score p1)%R).
Proof.
  intros Hnd Hd1 Hd2 Hne Hts Hlen Hdf q.
  assert (corpus ≠ []) as Hcne by (intros ->; by apply elem_of_nil in Hd1).
  assert (∀ ts, ts ≠ [] → (∀ t, t ∈ ts → t ∈ unique_terms q) →
            (bm25_sum corpus q d2 ts < bm25_sum corpus q d1 ts)%R) as Hsum.
  { intros ts Hts' Hsub. apply bm25_sum_mono; [done..| |done].
    intros t Ht. apply Hsub in Ht.
    apply (proj1 (unique_terms_Counter terms t)) in Ht.
    destruct (Hts t Ht) as (? & ? & ?). split_and!; try done.
    by apply Hdf. }
  assert (unique_terms q ≠ []) as Hune.
  { destruct terms as [|t terms]; [done|].
    intros Hnil. assert (t ∈ unique_terms q) as Hin
      by (apply unique_terms_Counter; by left).
    rewrite Hnil in Hin. by apply elem_of_nil in Hin. }
  split; [by apply Hsum|].
  destruct (bm25_built corpus terms Hcne Hnd)
    as (top & index' & Hsc & Hr & Hd & _).
  pose proof (fun d => bm25_built_full corpus terms top index' d
                         (unique_terms_NoDup _) Hd) as Hfull.
  exists top, index'.
  split_and!; [done | by apply bm25_ranking_scoring | |].
  - destruct terms as [|t terms]; [done|].
    destruct (Hts t) as (Ht1 & Ht2 & _); [by left|].
    destruct (Hfull d1 Hd1) as (r1 & p1 & ? & ? & ? & ?);
      [exists t; split; [by left | done]|].
    destruct (Hfull d2 Hd2) as (r2 & p2 & ? & ? & ? & ?);
      [exists t; split; [by left | done]|].
    exists r1, p1, r2, p2. done.
  - intros r1 r2 p1 p2 Hr1 Hr2 Heq Hp1 Hp2 Hid1 Hid2.
    destruct (Hr r1 Hr1) as (d1' & p1' & Hd1' & Ht1 & _ & Hp1' & Hid1' & Hs1).
    destruct (Hr r2 Hr2) as (d2' & p2' & Hd2' & Ht2 & _ & Hp2' & Hid2' & Hs2).
    assert (p1' = p1) as -> by congruence.
    assert (p2' = p2) as -> by congruence.
    assert (d1' = d1) as ->
      by (apply (corpus_id_inj corpus); [done..| congruence]).
    assert (d2' = d2) as ->
      by (apply (corpus_id_inj corpus); [done..| congruence]).
    rewrite Hs1, Hs2, <- Heq. apply Hsum.
    + by apply prefix_upto_nonempty.
    + intros t Ht. by eapply prefix_upto_elem.
Qed.

Lemma bm25_tf_monotone_witness :
  (bm25_score corpus_rare (Counter ["a"]) (mkDoc "d2" "a b") <
   bm25_score corpus_rare (Counter ["a"]) (mkDoc "d1" "a a"))%R.
Proof.
  apply (bm25_tf_monotone corpus_rare ["a"]
           (mkDoc "d1" "a a") (mkDoc "d2" "a b")).
  - apply (bool_decide_unpack _). vm_compute. exact I.
  - left.
  - right. left.
  - discriminate.
  - intros t Ht. apply list_elem_of_singleton in Ht. subst t.
    split; [|split].
    + apply (bool_decide_unpack _). vm_compute. exact I.
    + apply (bool_decide_unpack _). vm_compute. exact I.
    + vm_compute. lia.
  - reflexivity.
  - intros t Ht. apply list_elem_of_singleton in Ht. subst t.
    vm_compute. lia.
Defined.

(** C8, as stated, fails where the query term is in every document: of
    two documents of equal length that both hold ["a"], the one with the
    higher frequency gets the strictly lower BM25 score. *)
Lemma bm25_tf_monotone_counterexample :
  NoDup (map sceneId corpus_common) ∧
  (∀ t, t ∈ ["a"] →
        t ∈ tokens (mkDoc "d1" "a a") ∧ t ∈ tokens (mkDoc "d2" "a b") ∧
        tf t (mkDoc "d2" "a b") < tf t (mkDoc "d1" "a a")) ∧
  length (tokens (mkDoc "d1" "a a")) = length (tokens (mkDoc "d2" "a b")) ∧
  ∃ top index',
    bm25_ranking (built_index corpus_common) (Counter ["a"]) corpus_common
                 (built_length corpus_common) = Some (top, index') ∧
    "d1" ∈ map fst (entries index' top) ∧
    "d2" ∈ map fst (entries index' top) ∧
    ∀ s1 s2, ("d1", s1) ∈ entries index' top →
             ("d2", s2) ∈ entries index' top → (s1 < s2)%R.
Proof.
  assert (NoDup (map sceneId corpus_common)) as Hnd
    by (apply (bool_decide_unpack _); vm_compute; exact I).
  assert ("a" ∈ tokens (mkDoc "d1" "a a")) as Ha1
    by (apply (bool_decide_unpack _); vm_compute; exact I).
  assert ("a" ∈ tokens (mkDoc "d2" "a b")) as Ha2
    by (apply (bool_decide_unpack _); vm_compute; exact I).
  split; [done|]. split.
  { intros t ->%list_elem_of_singleton. split_and!; [done..|]. vm_compute. lia. }
  split; [reflexivity|].
  assert (corpus_common ≠ []) as Hne by done.
  destruct (bm25_built corpus_common ["a"] Hne Hnd)
    as (top & index' & Hsc & Hr & Hd & _ & Htop).
  assert (length top ≤ 100) as Hlen.
  { rewrite Htop. vm_compute. lia. }
  exists (top_k (score_of index') 100 top), index'.
  split; [by apply bm25_ranking_scoring|].
  assert (∀ d, d ∈ corpus_common → "a" ∈ tokens d →
            sceneId d ∈ map fst (entries index' (top_k (score_of index') 100 top)))
    as Hpres.
  { intros d Hdc Hda.
    destruct (Hd d "a" Hdc) as (j & p & Hin & Hp & Hid & _); [by left|done|].
    apply entries_ids. exists ("a", j), p. split_and!; [|done..].
    rewrite top_k_all by done. by rewrite sort_desc_perm. }
  split; [apply (Hpres (mkDoc "d1" "a a")); [left | done]|].
  split; [apply (Hpres (mkDoc "d2" "a b")); [right; left | done]|].
  assert (∀ d s, d ∈ corpus_common →
            (sceneId d, s) ∈ entries index' (top_k (score_of index') 100 top) →
            s = bm25_term_weight corpus_common (Counter ["a"]) "a" d) as Hval.
  { intros d s Hdc Hin. apply entries_top_k in Hin.
    apply entries_elem_inv in Hin as (r & p & Hin & Hp & Hid & <-).
    destruct (Hr r Hin) as (d' & p' & Hd' & Ht & Htd & Hp' & Hid' & Hs).
    assert (p' = p) as -> by congruence.
    assert (d' = d) as ->
      by (apply (corpus_id_inj corpus_common); [done..| congruence]).
    apply list_elem_of_singleton in Ht. rewrite Ht in Hs, Htd.
    rewrite Hs. unfold bm25_partial.
    change (unique_terms (Counter ["a"])) with ["a"].
    change (prefix_upto "a" ["a"]) with ["a"].
    rewrite bm25_sum_cons, bm25_sum_nil. unfold bm25_hit.
    rewrite decide_True by done. lra. }
  intros s1 s2 H1 H2.
  rewrite (Hval (mkDoc "d1" "a a") s1) by (done || left).
  rewrite (Hval (mkDoc "d2" "a b") s2) by (done || (right; left)).
  unfold bm25_term_weight.
  change (length (tokens (mkDoc "d1" "a a"))) with 2.
  change (length (tokens (mkDoc "d2" "a b"))) with 2.
  apply bm25_weight_antitone.
  - apply bm25_idf_neg; [apply df_le | vm_compute; lia].
  - by apply (avgdl_of_pos corpus_common (mkDoc "d1" "a a") "a"); [left|].
  - vm_compute. lia.
  - vm_compute. lia.
Qed.

(** ** The QL loops *)

Lemma ql_term_Some cqi cardC t fqi cardD c :
  cqi !! t = Some c → 0 < c → 0 < cardC →
  ql_term cqi cardC t fqi cardD = Some (ql_weight c cardC fqi cardD).
Proof.
  intros Hc Hpos HC. unfold ql_term. rewrite Hc. simpl.
  apply (lt_INR 0) in Hpos, HC. simpl in Hpos, HC.
  rewrite (pydiv_Some _ (INR cardC)) by lra. simpl.
  pose proof (pos_INR cardD) as HD. pose proof (pos_INR fqi) as Hf.
  assert (0 < INR c / INR cardC)%R as Hr by (by apply Rdiv_lt_0_compat).
  rewrite pydiv_Some by (unfold QL.mue; lra). simpl.
  rewrite math_log_e; [done|].
  apply Rdiv_lt_0_compat; unfold QL.mue; lra.
Qed.

Lemma ql_postings_shape sid t cqi cardC ps :
  ∀ i s top ps' s' top',
    ql_postings sid t cqi cardC i ps s top = Some (ps', s', top') →
    map erase ps' = map erase ps ∧
    top' = top ++ map (pair t) (seq i (length ps)).
Proof.
  induction ps as [|p ps IH]; intros i s top ps' s' top' H; simpl in H.
  - injection H as <- <- <-. simpl. by rewrite app_nil_r.
  - destruct (String.eqb (doc_id p) sid).
    + destruct (ql_term cqi cardC t _ _) as [c|]; simpl in H; [|done].
      destruct (ql_postings _ _ _ _ _ _ _ _)
        as [[[ps'' s''] top'']|] eqn:Hrec; simpl in H; [|done].
      injection H as <- <- <-. apply IH in Hrec as [H1 ->].
      simpl. rewrite H1. split; [done|]. by rewrite <- app_assoc.
    + destruct (ql_term cqi cardC t _ _) as [c|]; simpl in H; [|done].
      destruct (ql_postings _ _ _ _ _ _ _ _)
        as [[[ps'' s''] top'']|] eqn:Hrec; simpl in H; [|done].
      injection H as <- <- <-. apply IH in Hrec as [H1 ->].
      simpl. rewrite H1. split; [done|]. by rewrite <- app_assoc.
Qed.

Lemma ql_postings_total sid t cqi cardC ps :
  ∀ i s top,
    (∀ p fqi, p ∈ ps → is_Some (ql_term cqi cardC t fqi (docLen p))) →
    is_Some (ql_postings sid t cqi cardC i ps s top).
Proof.
  induction ps as [|p ps IH]; intros i s top Hdef; simpl; [done|].
  assert (∀ p' fqi, p' ∈ ps →
            is_Some (ql_term cqi cardC t fqi (docLen p'))) as Hdef'.
  { intros p' fqi Hp'. apply Hdef. by right. }
  destruct (String.eqb (doc_id p) sid).
  - destruct (Hdef p (termCount p)) as [c ->]; [by left|]. simpl.
    destruct (IH (S i) c (top ++ [(t, i)]) Hdef')
      as [[[ps'' s''] top''] ->]. done.
  - destruct (Hdef p 0) as [c ->]; [by left|]. simpl.
    destruct (IH (S i) c (top ++ [(t, i)]) Hdef')
      as [[[ps'' s''] top''] ->]. done.
Qed.

Lemma ql_terms_cons sid cqi cardC t ts index s top :
  ql_terms sid cqi cardC (t :: ts) index s top =
  '(l', s1, top1) ←
    ql_postings sid t cqi cardC 0 (postings_at index t) s top;
  ql_terms sid cqi cardC ts (<[t := l']> index) s1 top1.
Proof.
  simpl. unfold index_get, postings_at.
  destruct (index !! t) as [l|] eqn:Hl; simpl; [done|].
  by rewrite insert_insert_eq.
Qed.

Lemma ql_terms_shape sid cqi cardC ts :
  ∀ index s top index' s' top',
    ql_terms sid cqi cardC ts index s top = Some (index', s', top') →
    same_shape index index' ∧
    (∀ t, t ∈ ts → is_Some (index' !! t)) ∧
    (∀ t, is_Some (index !! t) → is_Some (index' !! t)) ∧
    (∀ t, t ∉ ts → index' !! t = index !! t).
Proof.
  induction ts as [|t ts IH]; intros index s top index' s' top' H.
  - simpl in H. injection H as <- <- <-.
    split_and!; try done. intros t Ht. by apply elem_of_nil in Ht.
  - rewrite ql_terms_cons in H.
    destruct (ql_postings _ _ _ _ _ _ _ _) as [[[l' s1] top1]|] eqn:Hp;
      simpl in H; [|done].
    apply ql_postings_shape in Hp as [Hl' _].
    apply IH in H as (H1 & H2 & H3 & H4).
    pose proof (same_shape_insert index t l' Hl') as Hs.
    split_and!.
    + by eapply same_shape_trans.
    + intros t' [->|Ht']%elem_of_cons; [|by apply H2].
      apply H3. rewrite lookup_insert_eq. done.
    + intros t' Ht'. apply H3. rewrite lookup_insert_is_Some.
      destruct (decide (t = t')); naive_solver.
    + intros t' [Hne Ht']%not_elem_of_cons.
      rewrite H4 by done. by rewrite lookup_insert_ne.
Qed.

Lemma ql_defined_shape cqi cardC index index' :
  same_shape index index' → ql_defined cqi cardC index →
  ql_defined cqi cardC index'.
Proof.
  intros Hs Hd t p fqi Hp.
  assert (erase p ∈ map erase (postings_at index t)) as Hin.
  { rewrite <- (Hs t). by apply list_elem_of_fmap_2. }
  apply list_elem_of_fmap in Hin as (p0 & He & Hp0).
  pose proof (f_equal docLen He) as Hdl. simpl in Hdl.
  rewrite Hdl. by apply Hd.
Qed.

Lemma ql_terms_total sid cqi cardC ts :
  ∀ index s top,
    ql_defined cqi cardC index →
    is_Some (ql_terms sid cqi cardC ts index s top).
Proof.
  induction ts as [|t ts IH]; intros index s top Hd; [done|].
  rewrite ql_terms_cons.
  destruct (ql_postings_total sid t cqi cardC (postings_at index t) 0 s top)
    as [[[l' s1] top1] Hp]; [intros p fqi Hp; by apply Hd|].
  rewrite Hp. simpl. apply IH.
  apply ql_postings_shape in Hp as [Hl' _].
  eapply ql_defined_shape; [|exact Hd]. by apply same_shape_insert.
Qed.

Lemma ql_docs_shape cqi cardC ts docs :
  ∀ index top index' top',
    ql_docs cqi cardC ts docs index top = Some (index', top') →
    same_shape index index' ∧
    (docs ≠ [] → ∀ t, t ∈ ts → is_Some (index' !! t)) ∧
    (∀ t, is_Some (index !! t) → is_Some (index' !! t)) ∧
    (∀ t, t ∉ ts → index' !! t = index !! t) ∧
    (docs = [] → index' = index).
Proof.
  induction docs as [|d docs IH]; intros index top index' top' H.
  - simpl in H. injection H as <- <-. split_and!; done.
  - simpl in H.
    destruct (ql_terms _ _ _ _ _ _ _) as [[[index1 s1] top1]|] eqn:Ht;
      simpl in H; [|done].
    apply ql_terms_shape in Ht as (T1 & T2 & T3 & T4).
    apply IH in H as (H1 & H2 & H3 & H4 & _).
    split_and!.
    + by eapply same_shape_trans.
    + intros _ t Ht. by apply H3, T2.
    + intros t Ht. by apply H3, T3.
    + intros t Ht. rewrite H4 by done. by apply T4.
    + done.
Qed.

Lemma ql_docs_total cqi cardC ts docs :
  ∀ index top,
    ql_defined cqi cardC index →
    is_Some (ql_docs cqi cardC ts docs index top).
Proof.
  induction docs as [|d docs IH]; intros index top Hd; [done|].
  simpl.
  destruct (ql_terms_total (sceneId d) cqi cardC ts index 0%R top Hd)
    as [[[index1 s1] top1] Ht].
  rewrite Ht. simpl. apply IH.
  apply ql_terms_shape in Ht as (T1 & _).
  by eapply ql_defined_shape.
Qed.

Lemma cf_pos corpus d t : d ∈ corpus → t ∈ tokens d → 0 < cf t corpus.
Proof.
  unfold cf. induction corpus as [|d' corpus IH]; intros Hd Ht.
  - by apply elem_of_nil in Hd.
  - simpl. apply elem_of_cons in Hd as [<-|Hd].
    + apply tf_pos in Ht. lia.
    + specialize (IH Hd Ht). lia.
Qed.

Lemma built_cqi_lookup corpus d t :
  d ∈ corpus → t ∈ tokens d → built_cqi corpus !! t = Some (cf t corpus).
Proof.
  intros Hd Ht. destruct (build_index_spec corpus) as [_ Hs].
  destruct (Hs t) as (_ & _ & H3 & H4).
  destruct (built_cqi corpus !! t) as [c|] eqn:Hc; [by rewrite <- H3|].
  exfalso. apply proj1 in H4. specialize (H4 eq_refl).
  unfold df in H4.
  assert (d ∈ filter (fun d => t ∈ tokens d) corpus) as Hin
    by (by apply list_elem_of_filter).
  destruct (filter _ corpus); [by apply elem_of_nil in Hin | done].
Qed.

Lemma shaped_ql_defined corpus index :
  shaped corpus index →
  ql_defined (built_cqi corpus) (total_length corpus) index.
Proof.
  intros Hs t p fqi Hp.
  destruct (shaped_elem _ _ _ _ Hs Hp) as (d & Hd & Ht & _).
  erewrite ql_term_Some; [done | by eapply built_cqi_lookup | ..].
  - by eapply cf_pos.
  - by eapply total_length_pos.
Qed.

(** QL scoring returns on every index of a corpus, the empty one too. *)
Lemma ql_scoring_shaped corpus index terms :
  shaped corpus index →
  ∃ top index',
    ql_scoring index terms corpus (total_length corpus) (built_cqi corpus) =
      Some (top, index') ∧
    same_shape index index' ∧
    (corpus ≠ [] → ∀ t, t ∈ map fst terms → is_Some (index' !! t)) ∧
    (∀ t, t ∉ map fst terms → index' !! t = index !! t) ∧
    (corpus = [] → index' = index).
Proof.
  intros Hs. unfold ql_scoring.
  destruct (ql_docs_total (built_cqi corpus) (total_length corpus)
              (map fst terms) corpus index [] (shaped_ql_defined _ _ Hs))
    as [[index' top] Hd].
  rewrite Hd. simpl.
  apply ql_docs_shape in Hd as (H1 & H2 & H3 & H4 & H5).
  exists top, index'. split_and!; auto.
Qed.

Lemma ql_ranking_scoring index q corpus cl cqi top index' :
  ql_scoring index q corpus cl cqi = Some (top, index') →
  ql_ranking index q corpus cl cqi =
  Some (top_k (score_of index') 100 top, index').
Proof. intros H. unfold ql_ranking. by rewrite H. Qed.

(** ** The index after a query *)

Lemma same_shape_empty index index' u :
  same_shape index index' → index !! u = None → is_Some (index' !! u) →
  index' !! u = Some [].
Proof.
  intros Hs Hu [l Hl]. specialize (Hs u). unfold postings_at in Hs.
  rewrite Hu, Hl in Hs. simpl in Hs. destruct l; [done | discriminate].
Qed.

(** C10, as amended: on a non-empty corpus, a query with a term that is
    not a key of the index leaves the index with that term bound to the
    empty posting list, after [bm25_ranking] and after [ql_ranking] alike;
    the next lookup of the term finds the entry. *)
Theorem index_insertion (corpus : list Doc) (terms : list string)
    (u : string) :
  corpus ≠ [] → u ∈ terms → built_index corpus !! u = None →
  (∃ top index',
     bm25_ranking (built_index corpus) (Counter terms) corpus
                  (built_length corpus) = Some (top, index') ∧
     index' !! u = Some [] ∧ index_get index' u = ([], index')) ∧
  (∃ top index',
     ql_ranking (built_index corpus) (Counter terms) corpus
                (built_length corpus) (built_cqi corpus) =
       Some (top, index') ∧
     index' !! u = Some [] ∧ index_get index' u = ([], index')).
Proof.
  intros Hne Hu Hnone. rewrite built_length_total.
  pose proof (built_shaped corpus) as Hs. split.
  - destruct (bm25_scoring_shaped corpus _ (Counter terms) Hne Hs)
      as (index' & Hsc & Hsh & Hk & _).
    eexists _, index'. split; [by apply bm25_ranking_scoring|].
    assert (index' !! u = Some []) as Hl.
    { apply (same_shape_empty (built_index corpus)); [done..|].
      by apply Hk, unique_terms_Counter. }
    split; [done|]. unfold index_get. by rewrite Hl.
  - destruct (ql_scoring_shaped corpus _ (Counter terms) Hs)
      as (top & index' & Hsc & Hsh & Hk & _).
    eexists _, index'. split; [by apply ql_ranking_scoring|].
    assert (index' !! u = Some []) as Hl.
    { apply (same_shape_empty (built_index corpus)); [done..|].
      by apply Hk, Counter_keys. }
    split; [done|]. unfold index_get. by rewrite Hl.
Qed.

Lemma index_insertion_witness :
  ∃ top index',
    ql_ranking (built_index [mkDoc "d1" "the cat sat"]) (Counter ["dog"])
               [mkDoc "d1" "the cat sat"]
               (built_length [mkDoc "d1" "the cat sat"])
               (built_cqi [mkDoc "d1" "the cat sat"]) = Some (top, index') ∧
    index' !! "dog" = Some [].
Proof.
  assert ([mkDoc "d1" "the cat sat"] ≠ []) as Hne by done.
  assert ("dog" ∈ ["dog"]) as Hin by left.
  assert (built_index [mkDoc "d1" "the cat sat"] !! "dog" = None) as Hnone
    by (vm_compute; reflexivity).
  destruct (index_insertion _ _ _ Hne Hin Hnone)
    as [_ (top & index' & Hrk & Hl & _)].
  exists top, index'. split; [exact Hrk | exact Hl].
Defined.

Lemma ql_ranking_empty index q cl cqi :
  ql_ranking index q [] cl cqi = Some ([], index).
Proof. reflexivity. Qed.

(** C10, as stated, fails on the empty corpus: [bm25_ranking] raises
    before any lookup, and [ql_ranking] never enters its loops, so the
    index stays without the unknown term. *)
Lemma index_insertion_counterexample :
  built_index [] !! "a" = None ∧
  bm25_ranking (built_index []) (Counter ["a"]) [] (built_length []) = None ∧
  ∃ top index',
    ql_ranking (built_index []) (Counter ["a"]) [] (built_length [])
               (built_cqi []) = Some (top, index') ∧
    index' !! "a" = None.
Proof.
  split; [reflexivity|]. split; [apply bm25_ranking_empty|].
  exists [], (built_index []). split; [apply ql_ranking_empty | reflexivity].
Qed.

(** ** A query term that occurs nowhere *)

Lemma agree_but_at u i1 i2 t :
  agree_but u i1 i2 → postings_at i1 t = postings_at i2 t.
Proof.
  intros (H1 & H2 & H3). destruct (decide (t = u)) as [->|Hne].
  - by rewrite H1, H2.
  - unfold postings_at. by rewrite H3.
Qed.

Lemma agree_but_touch u i1 i2 :
  agree_but u i1 i2 → agree_but u (<[u := []]> i1) i2.
Proof.
  intros (H1 & H2 & H3). split_and!; [|done|].
  - by rewrite postings_at_insert, decide_True.
  - intros t Ht. rewrite lookup_insert_ne by done. by apply H3.
Qed.

Lemma agree_but_insert u i1 i2 t l :
  t ≠ u → agree_but u i1 i2 → agree_but u (<[t := l]> i1) (<[t := l]> i2).
Proof.
  intros Hne (H1 & H2 & H3). split_and!.
  - by rewrite postings_at_insert, decide_False.
  - by rewrite postings_at_insert, decide_False.
  - intros t' Ht'. rewrite !lookup_insert. case_decide; [done | by apply H3].
Qed.

Lemma agree_but_deref u i1 i2 r :
  agree_but u i1 i2 → deref i1 r = deref i2 r.
Proof.
  intros Ha. unfold deref. fold (postings_at i1 r.1) (postings_at i2 r.1).
  by rewrite (agree_but_at u i1 i2).
Qed.

Lemma bm25_terms_skip sid Nc avgdl q q' u ts :
  (∀ t, t ≠ u → counter_get q t = counter_get q' t) →
  ∀ i1 i2 s top,
    agree_but u i1 i2 →
    same_terms_outcome u
      (bm25_terms sid Nc avgdl q ts i1 s top)
      (bm25_terms sid Nc avgdl q' (filter (fun t => t ≠ u) ts) i2 s top).
Proof.
  intros Hq. induction ts as [|t ts IH]; intros i1 i2 s top Ha.
  - simpl. done.
  - rewrite filter_cons, bm25_terms_cons.
    destruct (decide (t ≠ u)) as [Hne|Heq].
    + rewrite bm25_terms_cons, (agree_but_at u i1 i2 t Ha), (Hq t Hne).
      destruct (bm25_postings _ _ _ _ _ _ _ _ _ _) as [[[l' s1] top1]|];
        simpl; [|done].
      apply IH. by apply agree_but_insert.
    + apply dec_stable in Heq. subst t.
      rewrite (proj1 Ha). simpl. apply IH. by apply agree_but_touch.
Qed.

Lemma bm25_docs_skip Nc avgdl q q' u ts docs :
  (∀ t, t ≠ u → counter_get q t = counter_get q' t) →
  ∀ i1 i2 top,
    agree_but u i1 i2 →
    same_docs_outcome u
      (bm25_docs Nc avgdl q ts docs i1 top)
      (bm25_docs Nc avgdl q' (filter (fun t => t ≠ u) ts) docs i2 top).
Proof.
  intros Hq. induction docs as [|d docs IH]; intros i1 i2 top Ha.
  - simpl. done.
  - simpl.
    pose proof (bm25_terms_skip (sceneId d) Nc avgdl q q' u ts Hq
                  i1 i2 0%R top Ha) as Ht.
    destruct (bm25_terms _ _ _ q _ _ _ _) as [[[j1 s1] t1]|];
      destruct (bm25_terms _ _ _ q' _ _ _ _) as [[[j2 s2] t2]|];
      simpl in *; try done.
    destruct Ht as (_ & -> & Ha'). by apply IH.
Qed.

Lemma ql_terms_skip sid cqi cardC u ts :
  ∀ i1 i2 s top,
    agree_but u i1 i2 →
    same_terms_outcome u
      (ql_terms sid cqi cardC ts i1 s top)
      (ql_terms sid cqi cardC (filter (fun t => t ≠ u) ts) i2 s top).
Proof.
  induction ts as [|t ts IH]; intros i1 i2 s top Ha.
  - simpl. done.
  - rewrite filter_cons, ql_terms_cons.
    destruct (decide (t ≠ u)) as [Hne|Heq].
    + rewrite ql_terms_cons, (agree_but_at u i1 i2 t Ha).
      destruct (ql_postings _ _ _ _ _ _ _ _) as [[[l' s1] top1]|];
        simpl; [|done].
      apply IH. by apply agree_but_insert.
    + apply dec_stable in Heq. subst t.
      rewrite (proj1 Ha). simpl. apply IH. by apply agree_but_touch.
Qed.

Lemma ql_docs_skip cqi cardC u ts docs :
  ∀ i1 i2 top,
    agree_but u i1 i2 →
    same_docs_outcome u
      (ql_docs cqi cardC ts docs i1 top)
      (ql_docs cqi cardC (filter (fun t => t ≠ u) ts) docs i2 top).
Proof.
  induction docs as [|d docs IH]; intros i1 i2 top Ha.
  - simpl. done.
  - simpl.
    pose proof (ql_terms_skip (sceneId d) cqi cardC u ts i1 i2 0%R top Ha)
      as Ht.
    destruct (ql_terms _ _ _ ts _ _ _) as [[[j1 s1] t1]|];
      destruct (ql_terms _ _ _ (filter _ ts) _ _ _) as [[[j2 s2] t2]|];
      simpl in *; try done.
    destruct Ht as (_ & -> & Ha'). by apply IH.
Qed.

Lemma counter_incr_fst t c :
  map fst (counter_incr t c) =
  if decide (t ∈ map fst c) then map fst c else map fst c ++ [t].
Proof.
  induction c as [|[k n] c IH]; simpl.
  - done.
  - destruct (String.eqb_spec k t) as [->|Hkt]; simpl.
    + rewrite decide_True; [done | by left].
    + rewrite IH. destruct (decide (t ∈ map fst c)) as [Hin|Hnin].
      * rewrite decide_True; [done | by right].
      * rewrite decide_False; [done|].
        intros [Heq|Hin]%elem_of_cons; [congruence | done].
Qed.

Lemma Counter_filter_fold u terms : ∀ c c',
  map fst c' = filter (fun t => t ≠ u) (map fst c) →
  map fst (fold_left (fun c t => counter_incr t c)
                     (filter (fun t => t ≠ u) terms) c') =
  filter (fun t => t ≠ u)
         (map fst (fold_left (fun c t => counter_incr t c) terms c)).
Proof.
  induction terms as [|x terms IH]; intros c c' Hc; simpl; [done|].
  rewrite filter_cons. destruct (decide (x ≠ u)) as [Hne|Heq].
  - simpl. apply IH. rewrite !counter_incr_fst, Hc.
    destruct (decide (x ∈ map fst c)) as [Hin|Hnin].
    + rewrite decide_True; [done|]. by apply list_elem_of_filter.
    + rewrite decide_False by (by intros [_ ?]%list_elem_of_filter).
      rewrite filter_app, filter_cons, decide_True by done. done.
  - apply dec_stable in Heq. subst x. apply IH.
    rewrite counter_incr_fst, Hc.
    destruct (decide (u ∈ map fst c)); [done|].
    rewrite filter_app, filter_cons, decide_False by (by intros H; apply H).
    by rewrite app_nil_r.
Qed.

Lemma Counter_filter_keys u terms :
  map fst (Counter (filter (fun t => t ≠ u) terms)) =
  filter (fun t => t ≠ u) (map fst (Counter terms)).
Proof. by apply Counter_filter_fold. Qed.

Lemma Counter_filter_get u terms t :
  t ≠ u →
  counter_get (Counter terms) t =
  counter_get (Counter (filter (fun t => t ≠ u) terms)) t.
Proof.
  intros Hne. rewrite !Counter_get.
  induction terms as [|x terms IH]; [done|].
  rewrite !filter_cons.
  destruct (decide (x = t)) as [->|Hxt].
  - rewrite decide_True by done. rewrite filter_cons, decide_True by done.
    simpl. by rewrite IH.
  - destruct (decide (x ≠ u)); [|done].
    by rewrite filter_cons, decide_False.
Qed.

Lemma unique_terms_filter u terms :
  unique_terms (Counter (filter (fun t => t ≠ u) terms)) =
  filter (fun t => t ≠ u) (unique_terms (Counter terms)).
Proof.
  rewrite !unique_terms_keys by apply Counter_keys_NoDup.
  apply Counter_filter_keys.
Qed.

Lemma insert_desc_ext {A} (key key' : A → R) x l :
  (∀ y, key y = key' y) → insert_desc key x l = insert_desc key' x l.
Proof.
  intros Hk. induction l as [|y l IH]; simpl; [done|].
  rewrite !Hk, IH. done.
Qed.

Lemma sort_desc_ext {A} (key key' : A → R) l :
  (∀ y, key y = key' y) → sort_desc key l = sort_desc key' l.
Proof.
  intros Hk. induction l as [|x l IH]; simpl; [done|].
  rewrite IH. by apply insert_desc_ext.
Qed.

Lemma entries_ext i1 i2 l :
  (∀ r, deref i1 r = deref i2 r) → entries i1 l = entries i2 l.
Proof.
  intros Hd. unfold entries. induction l as [|r l IH]; [done|].
  cbn [omap list_omap]. by rewrite Hd, IH.
Qed.

Lemma top_k_agree u i1 i2 top :
  agree_but u i1 i2 →
  top_k (score_of i1) 100 top = top_k (score_of i2) 100 top ∧
  entries i1 (top_k (score_of i1) 100 top) =
  entries i2 (top_k (score_of i2) 100 top).
Proof.
  intros Ha.
  assert (top_k (score_of i1) 100 top = top_k (score_of i2) 100 top) as Heq.
  { unfold top_k. f_equal. apply sort_desc_ext. intros r.
    unfold score_of. by rewrite (agree_but_deref u i1 i2). }
  split; [done|]. rewrite Heq. apply entries_ext.
  intros r. by apply (agree_but_deref u).
Qed.

Lemma bm25_ranking_skip index u terms corpus cl :
  postings_at index u = [] →
  same_ranking u
    (bm25_ranking index (Counter terms) corpus cl)
    (bm25_ranking index (Counter (filter (fun t => t ≠ u) terms)) corpus cl).
Proof.
  intros Hu. unfold bm25_ranking, bm25_scoring.
  destruct (pydiv _ _) as [avgdl|]; simpl; [|done].
  rewrite unique_terms_filter.
  pose proof (bm25_docs_skip (length corpus) avgdl (Counter terms)
                (Counter (filter (fun t => t ≠ u) terms)) u
                (unique_terms (Counter terms)) corpus
                (Counter_filter_get u terms) index index []) as Hd.
  destruct (bm25_docs _ _ (Counter terms) _ _ _ _) as [[j1 t1]|];
    destruct (bm25_docs _ _ (Counter (filter _ terms)) _ _ _ _) as [[j2 t2]|];
    simpl in *; try (by apply Hd).
  destruct Hd as (-> & Ha); [done|].
  destruct (top_k_agree u j1 j2 t2 Ha) as [H1 H2]. done.
Qed.

Lemma ql_ranking_skip index u terms corpus cl cqi :
  postings_at index u = [] →
  same_ranking u
    (ql_ranking index (Counter terms) corpus cl cqi)
    (ql_ranking index (Counter (filter (fun t => t ≠ u) terms)) corpus cl cqi).
Proof.
  intros Hu. unfold ql_ranking, ql_scoring.
  rewrite Counter_filter_keys.
  pose proof (ql_docs_skip cqi cl u (map fst (Counter terms)) corpus
                index index []) as Hd.
  destruct (ql_docs _ _ (map fst (Counter terms)) _ _ _) as [[j1 t1]|];
    destruct (ql_docs _ _ (filter _ _) _ _ _) as [[j2 t2]|];
    simpl in *; try (by apply Hd).
  destruct Hd as (-> & Ha); [done|].
  destruct (top_k_agree u j1 j2 t2 Ha) as [H1 H2]. done.
Qed.

Lemma built_unknown corpus u :
  df u corpus = 0 → postings_at (built_index corpus) u = [].
Proof.
  intros Hdf. destruct (build_index_spec corpus) as [_ Hs].
  destruct (Hs u) as (-> & _).
  apply length_zero_iff_nil. by rewrite postings_of_length.
Qed.

(** C9, as amended: a query term that occurs nowhere in the corpus makes
    neither scorer raise, on a non-empty corpus for [bm25_ranking] and on
    any corpus for [ql_ranking]; the scorer returns, and what it returns
    (the references, their documents and their scores) is what it returns
    for the query without that term. *)
Theorem unknown_term_neutral (corpus : list Doc) (terms : list string)
    (u : string) :
  df u corpus = 0 →
  let rest := filter (fun t => t ≠ u) terms in
  (corpus ≠ [] →
   ∃ top i1 i2,
     bm25_ranking (built_index corpus) (Counter terms) corpus
                  (built_length corpus) = Some (top, i1) ∧
     bm25_ranking (built_index corpus) (Counter rest) corpus
                  (built_length corpus) = Some (top, i2) ∧
     entries i1 top = entries i2 top) ∧
  (∃ top i1 i2,
     ql_ranking (built_index corpus) (Counter terms) corpus
                (built_length corpus) (built_cqi corpus) = Some (top, i1) ∧
     ql_ranking (built_index corpus) (Counter rest) corpus
                (built_length corpus) (built_cqi corpus) = Some (top, i2) ∧
     entries i1 top = entries i2 top).
Proof.
  intros Hdf rest. pose proof (built_unknown corpus u Hdf) as Hu.
  pose proof (built_shaped corpus) as Hs. rewrite built_length_total. split.
  - intros Hne.
    pose proof (bm25_ranking_skip (built_index corpus) u terms corpus
                  (total_length corpus) Hu) as Hsk.
    destruct (bm25_scoring_shaped corpus _ (Counter terms) Hne Hs)
      as (j1 & Hsc1 & _).
    destruct (bm25_scoring_shaped corpus _ (Counter rest) Hne Hs)
      as (j2 & Hsc2 & _).
    apply bm25_ranking_scoring in Hsc1, Hsc2.
    fold rest in Hsk. rewrite Hsc1, Hsc2 in Hsk. simpl in Hsk.
    destruct Hsk as (Htop & Hent & _).
    rewrite <- Htop in Hsc2, Hent.
    eexists _, j1, j2. split; [exact Hsc1|]. split; [exact Hsc2 | exact Hent].
  - pose proof (ql_ranking_skip (built_index corpus) u terms corpus
                  (total_length corpus) (built_cqi corpus) Hu) as Hsk.
    destruct (ql_scoring_shaped corpus _ (Counter terms) Hs)
      as (t1 & j1 & Hsc1 & _).
    destruct (ql_scoring_shaped corpus _ (Counter rest) Hs)
      as (t2 & j2 & Hsc2 & _).
    apply ql_ranking_scoring in Hsc1, Hsc2.
    fold rest in Hsk. rewrite Hsc1, Hsc2 in Hsk. simpl in Hsk.
    destruct Hsk as (Htop & Hent & _).
    rewrite <- Htop in Hsc2, Hent.
    eexists _, j1, j2. split; [exact Hsc1|]. split; [exact Hsc2 | exact Hent].
Qed.

Lemma unknown_term_neutral_witness :
  ∃ top i1 i2,
    ql_ranking (built_index [mkDoc "d1" "the cat sat"])
               (Counter ["cat"; "dog"]) [mkDoc "d1" "the cat sat"]
               (built_length [mkDoc "d1" "the cat sat"])
               (built_cqi [mkDoc "d1" "the cat sat"]) = Some (top, i1) ∧
    ql_ranking (built_index [mkDoc "d1" "the cat sat"])
               (Counter ["cat"]) [mkDoc "d1" "the cat sat"]
               (built_length [mkDoc "d1" "the cat sat"])
               (built_cqi [mkDoc "d1" "the cat sat"]) = Some (top, i2) ∧
    entries i1 top = entries i2 top.
Proof.
  assert (df "dog" [mkDoc "d1" "the cat sat"] = 0) as Hdf by reflexivity.
  exact (proj2 (unknown_term_neutral [mkDoc "d1" "the cat sat"]
                  ["cat"; "dog"] "dog" Hdf)).
Defined.

(** C9, as stated, fails on the empty corpus, where every term is unknown:
    [bm25_ranking] divides by the number of documents first. *)
Lemma unknown_term_counterexample :
  df "a" [] = 0 ∧
  bm25_ranking (built_index []) (Counter ["a"]) [] (built_length []) = None.
Proof. split; [reflexivity | apply bm25_ranking_empty]. Qed.

(** ** The QL scorer on small corpora *)

Lemma ql_postings_exact sid t cqi cardC c ps :
  cqi !! t = Some c → 0 < c → 0 < cardC →
  ∀ i s top,
    ∃ s',
      ql_postings sid t cqi cardC i ps s top =
      Some (map (fun p =>
                   add_score p
                     (ql_weight c cardC
                        (if String.eqb (doc_id p) sid then termCount p else 0)
                        (docLen p))) ps,
            s', top ++ map (pair t) (seq i (length ps))).
Proof.
  intros Hc Hpos HC. induction ps as [|p ps IH]; intros i s top.
  - exists s. simpl. by rewrite app_nil_r.
  - simpl. destruct (String.eqb (doc_id p) sid).
    + rewrite (ql_term_Some _ _ _ _ _ c) by done. simpl.
      destruct (IH (S i) (ql_weight c cardC (termCount p) (docLen p))
                   (top ++ [(t, i)])) as [s' ->].
      exists s'. simpl. by rewrite <- app_assoc.
    + rewrite (ql_term_Some _ _ _ _ _ c) by done. simpl.
      destruct (IH (S i) (ql_weight c cardC 0 (docLen p))
                   (top ++ [(t, i)])) as [s' ->].
      exists s'. simpl. by rewrite <- app_assoc.
Qed.

Lemma sort_desc_constant {A} (key : A → R) (x : A) (l : list A) :
  (∀ y, y ∈ l → key y = key x) → sort_desc key l = l.
Proof.
  intros Hl. apply sort_desc_id. unfold desc_sorted.
  induction l as [|y l IH]; [constructor|].
  constructor.
  - apply IH. intros z Hz. apply Hl. by right.
  - apply Forall_forall. intros z Hz.
    rewrite (Hl y) by (by left). rewrite (Hl z) by (by right). lra.
Qed.

Lemma ql_weight_neg c cardC cardD :
  0 < c → c ≤ cardC → 0 < cardD → (ql_weight c cardC 0 cardD < 0)%R.
Proof.
  intros Hc Hle HD. unfold ql_weight, QL.mue. rewrite <- ln_1.
  apply (lt_INR 0) in Hc, HD. simpl in Hc, HD. apply le_INR in Hle.
  assert (0 < INR c / INR cardC)%R as H1 by (apply Rdiv_lt_0_compat; lra).
  assert (INR c / INR cardC <= 1)%R as H2.
  { apply (Rmult_le_reg_r (INR cardC)); [lra|].
    unfold Rdiv. rewrite Rmult_assoc, Rinv_l by lra. lra. }
  simpl (INR 0). apply ln_increasing.
  - apply Rdiv_lt_0_compat; lra.
  - apply Rdiv_lt_one; lra.
Qed.

Lemma ql_terms_single sid cqi cardC t index s top :
  ql_terms sid cqi cardC [t] index s top =
  '(l', s1, top1) ←
    ql_postings sid t cqi cardC 0 (postings_at index t) s top;
  Some (<[t := l']> index, s1, top1).
Proof. by rewrite ql_terms_cons. Qed.

(** C1 on the corpus d1 = ["a"], d2 = ["b"] and the query ["a"]: the QL
    scorer returns two entries, both for d1 and none for d2, and the score
    they carry is d1's contribution for ["a"] plus the contribution
    computed, with [fqi = 0], while the loop stood at d2. *)
Theorem ql_two_documents :
  ∃ top index',
    ql_ranking (built_index corpus_ab) (Counter ["a"]) corpus_ab
               (built_length corpus_ab) (built_cqi corpus_ab) =
      Some (top, index') ∧
    entries index' top =
      [("d1", (0 + ql_weight 1 2 1 1 + ql_weight 1 2 0 1)%R);
       ("d1", (0 + ql_weight 1 2 1 1 + ql_weight 1 2 0 1)%R)] ∧
    ("d2" ∉ map fst (entries index' top)) ∧
    (0 + ql_weight 1 2 1 1 + ql_weight 1 2 0 1)%R ≠ ql_weight 1 2 1 1.
Proof.
  assert (built_cqi corpus_ab !! "a" = Some 1) as Hc by (vm_compute; reflexivity).
  assert (postings_at (built_index corpus_ab) "a" = [mkPosting "d1" [0] 1 1 0 2])
    as Hp by (vm_compute; reflexivity).
  change (built_length corpus_ab) with 2.
  assert (∀ index : gmap string (list Posting),
            top_k (score_of index) 100 [("a", 0); ("a", 0)] =
            [("a", 0); ("a", 0)]) as Hsort.
  { intros index. unfold top_k.
    rewrite (sort_desc_constant _ ("a", 0)); [done|].
    intros y Hy. by repeat (apply elem_of_cons in Hy as [->|Hy]; [done|]);
      apply elem_of_nil in Hy. }
  eexists _, _. split.
  { unfold ql_ranking, ql_scoring.
    change (map fst (Counter ["a"])) with ["a"].
    unfold corpus_ab at 2. cbn [ql_docs sceneId].
    rewrite ql_terms_single, Hp.
    destruct (ql_postings_exact "d1" "a" _ 2 1 [mkPosting "d1" [0] 1 1 0 2]
                Hc ltac:(lia) ltac:(lia) 0 0%R []) as [s1 ->].
    cbn [mbind option_bind map].
    rewrite ql_terms_single, postings_at_insert, decide_True by done.
    match goal with |- context [ql_postings "d2" "a" _ 2 0 ?l ?s ?t] =>
      destruct (ql_postings_exact "d2" "a" _ 2 1 l Hc ltac:(lia) ltac:(lia)
                  0 s t) as [s2 ->] end.
    cbn [mbind option_bind map length seq app].
    rewrite Hsort. reflexivity. }
  unfold entries, deref. cbn [fst snd omap list_omap].
  rewrite lookup_insert_eq. cbn -[ql_weight Rplus].
  split; [reflexivity|]. split.
  - intros Hin.
    by repeat (apply elem_of_cons in Hin as [Hin|Hin]; [done|]);
      apply elem_of_nil in Hin.
  - pose proof (ql_weight_neg 1 2 1 ltac:(lia) ltac:(lia) ltac:(lia)). lra.
Qed.

Lemma ql_weight_half_neg : (ql_weight 1 2 1 2 < 0)%R.
Proof.
  unfold ql_weight, QL.mue. rewrite <- ln_1. simpl INR.
  apply ln_increasing.
  - apply Rdiv_lt_0_compat; lra.
  - apply Rdiv_lt_one; lra.
Qed.

(** C2 on the corpus d1 = ["a b"] and the query ["a"], scored twice in
    succession with [ql_ranking]: the second evaluation starts from the
    score the first one left on the posting, and returns the double. *)
Theorem ql_twice :
  ∃ top1 index1 top2 index2,
    ql_ranking (built_index corpus_one) (Counter ["a"]) corpus_one
               (built_length corpus_one) (built_cqi corpus_one) =
      Some (top1, index1) ∧
    ql_ranking index1 (Counter ["a"]) corpus_one
               (built_length corpus_one) (built_cqi corpus_one) =
      Some (top2, index2) ∧
    entries index1 top1 = [("d1", (0 + ql_weight 1 2 1 2)%R)] ∧
    entries index2 top2 =
      [("d1", (0 + ql_weight 1 2 1 2 + ql_weight 1 2 1 2)%R)] ∧
    (0 + ql_weight 1 2 1 2 + ql_weight 1 2 1 2)%R ≠
    (0 + ql_weight 1 2 1 2)%R.
Proof.
  assert (built_cqi corpus_one !! "a" = Some 1) as Hc
    by (vm_compute; reflexivity).
  assert (postings_at (built_index corpus_one) "a" =
          [mkPosting "d1" [0] 1 2 0 1]) as Hp by (vm_compute; reflexivity).
  change (built_length corpus_one) with 2.
  eexists _, _, _, _. split; [|split].
  { unfold ql_ranking, ql_scoring.
    change (map fst (Counter ["a"])) with ["a"].
    unfold corpus_one at 2. cbn [ql_docs sceneId].
    rewrite ql_terms_single, Hp.
    destruct (ql_postings_exact "d1" "a" _ 2 1 [mkPosting "d1" [0] 1 2 0 1]
                Hc ltac:(lia) ltac:(lia) 0 0%R []) as [s1 ->].
    cbn [mbind option_bind map length seq app]. reflexivity. }
  { unfold ql_ranking, ql_scoring.
    change (map fst (Counter ["a"])) with ["a"].
    unfold corpus_one at 2. cbn [ql_docs sceneId].
    rewrite ql_terms_single, postings_at_insert, decide_True by done.
    match goal with |- context [ql_postings "d1" "a" _ 2 0 ?l ?s ?t] =>
      destruct (ql_postings_exact "d1" "a" _ 2 1 l Hc ltac:(lia) ltac:(lia)
                  0 s t) as [s2 ->] end.
    cbn [mbind option_bind map length seq app]. reflexivity. }
  unfold entries, deref, top_k. cbn [fst snd omap list_omap sort_desc foldr insert_desc take].
  rewrite !lookup_insert_eq. cbn -[ql_weight Rplus].
  split; [reflexivity|]. split; [reflexivity|].
  pose proof ql_weight_half_neg. lra.
Qed.


(** ** BM25 scored twice *)

Lemma deref_postings_at i1 i2 :
  (∀ t, postings_at i1 t = postings_at i2 t) → ∀ r, deref i1 r = deref i2 r.
Proof.
  intros H r. unfold deref. fold (postings_at i1 r.1) (postings_at i2 r.1).
  by rewrite H.
Qed.

(** [bm25_ranking] assigns the score field, so a second evaluation of the
    same query finds nothing of the first: it returns the same references
    with the same documents and scores. *)
Lemma bm25_ranking_repeat corpus terms :
  corpus ≠ [] → NoDup (map sceneId corpus) →
  ∃ top i1 i2,
    bm25_ranking (built_index corpus) (Counter terms) corpus
                 (built_length corpus) = Some (top, i1) ∧
    bm25_ranking i1 (Counter terms) corpus (built_length corpus) =
      Some (top, i2) ∧
    entries i1 top = entries i2 top.
Proof.
  intros Hne Hnd. rewrite built_length_total.
  pose proof (built_shaped corpus) as Hs.
  destruct (bm25_scoring_exact corpus _ (Counter terms) Hne Hnd Hs)
    as (i1 & Hsc1 & Hsh1 & _ & _ & Hex1).
  pose proof (shaped_same_shape _ _ _ Hs Hsh1) as Hs1.
  destruct (bm25_scoring_exact corpus i1 (Counter terms) Hne Hnd Hs1)
    as (i2 & Hsc2 & _ & _ & _ & Hex2).
  rewrite (all_refs_shape (built_index corpus) i1) in Hsc2 by done.
  assert (∀ t, postings_at i1 t = postings_at i2 t) as Heq.
  { intros t. rewrite Hex2, Hex1, map_map. apply map_ext_on. intros p _.
    destruct (doc_by_id corpus (doc_id p)) as [d|] eqn:Hd; simpl.
    - destruct (decide (t ∈ unique_terms (Counter terms))); simpl.
      + by rewrite Hd.
      + by rewrite Hd.
    - by rewrite Hd. }
  pose proof (deref_postings_at i1 i2 Heq) as Hderef.
  assert (top_k (score_of i2) 100
            (all_refs (built_index corpus) (unique_terms (Counter terms)) corpus) =
          top_k (score_of i1) 100
            (all_refs (built_index corpus) (unique_terms (Counter terms)) corpus))
    as Htop.
  { unfold top_k. f_equal. apply sort_desc_ext. intros r.
    unfold score_of. by rewrite Hderef. }
  apply bm25_ranking_scoring in Hsc1, Hsc2. rewrite Htop in Hsc2.
  eexists _, i1, i2. split; [exact Hsc1|]. split; [exact Hsc2|].
  by apply entries_ext.
Qed.

(* ================================================================= *)
(** * Further properties of the code *)

(** ** The tokenizer *)

Lemma append_cons c a b : String c a +:+ b = String c (a +:+ b).
Proof. reflexivity. Qed.

Lemma chars_app a b :
  String.list_ascii_of_string (a +:+ b) =
  String.list_ascii_of_string a ++ String.list_ascii_of_string b.
Proof.
  induction a as [|c a IH]; [done|].
  rewrite append_cons. simpl. by f_equal.
Qed.

Lemma append_snoc a c b : (a +:+ String c "") +:+ b = a +:+ String c b.
Proof.
  induction a as [|c' a IH]; [done|].
  rewrite !append_cons. by f_equal.
Qed.

Lemma append_empty_r a : a +:+ "" = a.
Proof.
  induction a as [|c a IH]; [done|].
  rewrite append_cons. by f_equal.
Qed.

Lemma eqb_empty a : String.eqb a "" = true ↔ a = "".
Proof. apply String.eqb_eq. Qed.

Lemma split_from_tokens s : ∀ cur,
  Forall (fun c => is_space c = false) (String.list_ascii_of_string cur) →
  Forall is_token (split_from cur s).
Proof.
  induction s as [|c s IH]; intros cur Hcur; simpl.
  - destruct (String.eqb_spec cur ""); [constructor|].
    constructor; [done | constructor].
  - destruct (is_space c) eqn:Hc.
    + destruct (String.eqb_spec cur "").
      * apply IH. constructor.
      * constructor; [done|]. apply IH. constructor.
    + apply IH. rewrite chars_app. apply Forall_app. split; [done|].
      simpl. by constructor.
Qed.

Lemma split_from_app t : ∀ cur s,
  Forall (fun c => is_space c = false) (String.list_ascii_of_string t) →
  split_from cur (t +:+ s) = split_from (cur +:+ t) s.
Proof.
  induction t as [|c t IH]; intros cur s Ht.
  - by rewrite append_empty_r.
  - simpl in Ht. apply Forall_cons in Ht as [Hc Ht].
    rewrite append_cons. cbn [split_from].
    rewrite Hc, IH by done. by rewrite append_snoc.
Qed.

Lemma split_join toks :
  Forall is_token toks → split (join_spaces toks) = toks.
Proof.
  unfold split. induction toks as [|t toks IH]; intros Htoks; [done|].
  apply Forall_cons in Htoks as [[Hne Ht] Htoks].
  destruct toks as [|t2 toks].
  - simpl. rewrite <- (append_empty_r t) at 1.
    rewrite split_from_app by done. simpl.
    change ("" +:+ t) with t.
    by destruct (String.eqb_spec t "").
  - change (join_spaces (t :: t2 :: toks))
      with (t +:+ " " +:+ join_spaces (t2 :: toks)).
    rewrite split_from_app by done.
    change ("" +:+ t) with t.
    change (" " +:+ join_spaces (t2 :: toks))
      with (String (Ascii.ascii_of_nat 32) (join_spaces (t2 :: toks))).
    cbn [split_from].
    change (is_space (Ascii.ascii_of_nat 32)) with true. cbv iota.
    destruct (String.eqb_spec t ""); [done|].
    f_equal. by apply IH.
Qed.

Lemma tokens_Forall (d : Doc) : Forall is_token (tokens d).
Proof. unfold tokens, split. apply split_from_tokens. constructor. Qed.

(** X1: whatever the text, the tokens [build_index] sees are non-empty
    and free of whitespace characters. *)
Theorem tokens_are_tokens (d : Doc) : Forall is_token (tokens d).
Proof. apply tokens_Forall. Qed.

(** X2: a text made of tokens joined by single spaces is split back into
    exactly those tokens. *)
Theorem tokens_join (id : string) (toks : list string) :
  Forall is_token toks → tokens (mkDoc id (join_spaces toks)) = toks.
Proof. intros H. unfold tokens. simpl. by apply split_join. Qed.

Lemma tokens_join_witness :
  tokens (mkDoc "d" (join_spaces ["the"; "cat"; "sat"])) =
  ["the"; "cat"; "sat"].
Proof.
  apply (tokens_join "d" ["the"; "cat"; "sat"]).
  repeat constructor; (discriminate || (vm_compute; reflexivity)).
Defined.

(** ** More on [build_index] *)

Lemma df_zero t corpus : df t corpus = 0 ↔ ∀ d, d ∈ corpus → t ∉ tokens d.
Proof.
  unfold df. rewrite length_zero_iff_nil. split.
  - intros Hnil d Hd Ht.
    assert (d ∈ filter (fun d => t ∈ tokens d) corpus) as Hin
      by (by apply list_elem_of_filter).
    rewrite Hnil in Hin. by apply elem_of_nil in Hin.
  - intros Hno. apply filter_none. intros d Hd. by apply Hno.
Qed.

Lemma df_nonzero t corpus :
  df t corpus ≠ 0 ↔ ∃ d, d ∈ corpus ∧ t ∈ tokens d.
Proof.
  split.
  - intros Hdf. destruct (decide (Exists (fun d => t ∈ tokens d) corpus))
      as [He|Hn].
    + apply Exists_exists in He. done.
    + exfalso. apply Hdf, df_zero. intros d Hd Ht.
      apply Hn, Exists_exists. eauto.
  - intros (d & Hd & Ht) Hdf. by apply (proj1 (df_zero t corpus) Hdf d).
Qed.

(** X3: the index and [cqi] have the same keys, namely the terms that
    occur in some document; documents without tokens add no key; every
    key is a non-empty string without whitespace. *)
Theorem build_index_keys (corpus : list Doc) :
  dom (built_index corpus) = dom (built_cqi corpus) ∧
  (∀ t, t ∈ dom (built_index corpus) ↔ ∃ d, d ∈ corpus ∧ t ∈ tokens d) ∧
  (∀ t, t ∈ dom (built_index corpus) → is_token t).
Proof.
  destruct (build_index_spec corpus) as [_ Hs].
  assert (∀ t, t ∈ dom (built_index corpus) ↔
               ∃ d, d ∈ corpus ∧ t ∈ tokens d) as Hdom.
  { intros t. destruct (Hs t) as (_ & H2 & _).
    rewrite elem_of_dom, <- not_eq_None_Some, H2. apply df_nonzero. }
  split_and!; [|done|].
  - apply set_eq. intros t. rewrite Hdom.
    destruct (Hs t) as (_ & _ & _ & H4).
    rewrite elem_of_dom, <- not_eq_None_Some, H4. symmetry. apply df_nonzero.
  - intros t (d & _ & Ht)%Hdom.
    pose proof (tokens_Forall d) as Hall.
    by apply (proj1 (Forall_forall _ _) Hall).
Qed.

(** X4: the positions a posting lists are exactly the offsets at which
    its term stands in its document. *)
Theorem build_index_positions (corpus : list Doc) (t : string)
    (l : list Posting) :
  built_index corpus !! t = Some l →
  Forall2 (fun p d => ∀ i, i ∈ positions p ↔ tokens d !! i = Some t)
          l (filter (fun d => t ∈ tokens d) corpus).
Proof.
  intros Hl. apply build_index_lookup in Hl as [-> _].
  unfold postings_of. apply Forall2_fmap_l, Forall_Forall2_diag, Forall_forall.
  intros d _ i. simpl. unfold term_positions.
  rewrite positions_from_elem. split.
  - intros (k & -> & Hk). done.
  - intros Hi. exists i. done.
Qed.

Lemma build_index_positions_witness :
  Forall2 (fun p d => ∀ i, i ∈ positions p ↔ tokens d !! i = Some "a")
          [mkPosting "doc" [0; 2] 2 3 0 1] [mkDoc "doc" "a b a"].
Proof.
  apply (build_index_positions [mkDoc "doc" "a b a"] "a"
           [mkPosting "doc" [0; 2] 2 3 0 1]).
  vm_compute. reflexivity.
Defined.

Lemma sum_list_add {A} (f g : A → nat) (l : list A) :
  sum_list (map (fun x => f x + g x) l) =
  sum_list (map f l) + sum_list (map g l).
Proof. induction l as [|x l IH]; simpl; [done | rewrite IH; lia]. Qed.

Lemma sum_list_indicator (K : list string) (x : string) :
  NoDup K → x ∈ K →
  sum_list (map (fun k => if String.eqb x k then 1 else 0) K) = 1.
Proof.
  induction K as [|k K IH]; intros Hnd Hx.
  - by apply elem_of_nil in Hx.
  - apply NoDup_cons in Hnd as [Hk Hnd]. simpl.
    destruct (String.eqb_spec x k) as [->|Hne].
    + assert (sum_list (map (fun k0 => if String.eqb k k0 then 1 else 0) K)
              = 0) as ->; [|done].
      clear IH Hnd Hx. induction K as [|k' K IH]; [done|]. simpl.
      apply not_elem_of_cons in Hk as [Hne Hk].
      destruct (String.eqb_spec k k'); [done|]. by apply IH.
    + apply elem_of_cons in Hx as [->|Hx]; [done|]. by apply IH.
Qed.

Lemma sum_positions_from (K : list string) (l : list string) : ∀ i,
  NoDup K → (∀ x, x ∈ l → x ∈ K) →
  sum_list (map (fun k => length (positions_from k i l)) K) = length l.
Proof.
  induction l as [|x l IH]; intros i Hnd Hsub.
  - simpl. clear Hnd Hsub. by induction K as [|k K IHK].
  - rewrite (map_ext_on _
      (fun k => (if String.eqb x k then 1 else 0) +
                length (positions_from k (S i) l))).
    2:{ intros k _. simpl. by destruct (String.eqb x k). }
    rewrite sum_list_add, sum_list_indicator by (done || apply Hsub; by left).
    rewrite IH; [done | done |]. intros y Hy. apply Hsub. by right.
Qed.

Lemma sum_cf (K : list string) corpus :
  NoDup K → (∀ d t, d ∈ corpus → t ∈ tokens d → t ∈ K) →
  sum_list (map (fun k => cf k corpus) K) = total_length corpus.
Proof.
  intros Hnd. unfold cf, total_length.
  induction corpus as [|d corpus IH]; intros Hsub; simpl.
  - clear Hsub Hnd. by induction K as [|k K IHK].
  - rewrite sum_list_add, IH.
    + f_equal. unfold tf, term_positions. apply sum_positions_from; [done|].
      intros t Ht. apply (Hsub d); [by left | done].
    + intros d' t Hd' Ht. apply (Hsub d'); [by right | done].
Qed.

(** X5: the corpus-wide frequencies in [cqi] add up to
    [collectionLength]. *)
Theorem cqi_total_length (corpus : list Doc) :
  cqi_total (built_cqi corpus) = built_length corpus.
Proof.
  rewrite built_length_total. unfold cqi_total.
  destruct (build_index_spec corpus) as [_ Hs].
  rewrite (map_ext_on snd (fun kv => cf kv.1 corpus)).
  2:{ intros [k v] Hkv. apply elem_of_map_to_list in Hkv. simpl.
      destruct (Hs k) as (_ & _ & H3 & _). rewrite Hkv in H3. done. }
  rewrite <- (map_map fst (fun k => cf k corpus)).
  apply sum_cf; [apply NoDup_fst_map_to_list|].
  intros d t Hd Ht.
  destruct (built_cqi corpus !! t) as [c|] eqn:Hc.
  - apply list_elem_of_fmap. exists (t, c). split; [done|].
    by apply elem_of_map_to_list.
  - exfalso. destruct (Hs t) as (_ & _ & _ & H4).
    apply H4 in Hc. by apply (proj1 (df_zero t corpus) Hc d).
Qed.

(** ** [Posting.__eq__] and [Posting.__hash__] *)

Lemma Posting_eq_spec p q :
  Posting_eq p q = true ↔ doc_id p = doc_id q ∧ positions p = positions q.
Proof.
  unfold Posting_eq. rewrite andb_true_iff, String.eqb_eq.
  by rewrite bool_decide_eq_true.
Qed.

(** X6: [__eq__] is an equivalence that looks at the document id and the
    positions only, so a posting stays equal to itself whatever score is
    written to it; postings that are equal have equal hashes. *)
Theorem Posting_eq_hash (hash : string * list nat → Z) (p q r : Posting)
    (s : R) :
  Posting_eq p p = true ∧
  (Posting_eq p q = true → Posting_eq q p = true) ∧
  (Posting_eq p q = true → Posting_eq q r = true → Posting_eq p r = true) ∧
  Posting_eq (set_score p s) p = true ∧
  Posting_eq (add_score p s) p = true ∧
  (Posting_eq p q = true → Posting_hash hash p = Posting_hash hash q).
Proof.
  rewrite !Posting_eq_spec. unfold Posting_hash. simpl.
  split_and!; try done.
  - intros [-> ->]. done.
  - intros [-> ->] [-> ->]. done.
  - intros [-> ->]. done.
Qed.

(** ** What the scorers leave alone *)

Lemma ql_doc_refs_shape index index' terms :
  same_shape index index' → ql_doc_refs index' terms = ql_doc_refs index terms.
Proof.
  intros Hs. unfold ql_doc_refs. induction terms as [|t ts IH]; [done|].
  rewrite !bind_cons, IH. do 3 f_equal. apply same_shape_length, Hs.
Qed.

Lemma ql_terms_refs sid cqi cardC ts :
  ∀ index s top index' s' top',
    ql_terms sid cqi cardC ts index s top = Some (index', s', top') →
    top' = top ++ ql_doc_refs index ts.
Proof.
  induction ts as [|t ts IH]; intros index s top index' s' top' H.
  - simpl in H. injection H as <- <- <-. unfold ql_doc_refs. simpl.
    by rewrite app_nil_r.
  - rewrite ql_terms_cons in H.
    destruct (ql_postings _ _ _ _ _ _ _ _) as [[[l' s1] top1]|] eqn:Hp;
      simpl in H; [|done].
    apply ql_postings_shape in Hp as [Hl' ->].
    apply IH in H as ->.
    rewrite (ql_doc_refs_shape index) by (by apply same_shape_insert).
    unfold ql_doc_refs. rewrite bind_cons. by rewrite app_assoc.
Qed.

Lemma ql_docs_refs cqi cardC ts docs :
  ∀ index top index' top',
    ql_docs cqi cardC ts docs index top = Some (index', top') →
    top' = top ++ ql_all_refs index ts docs.
Proof.
  induction docs as [|d docs IH]; intros index top index' top' H.
  - simpl in H. injection H as <- <-. unfold ql_all_refs. simpl.
    by rewrite app_nil_r.
  - simpl in H.
    destruct (ql_terms _ _ _ _ _ _ _) as [[[index1 s1] top1]|] eqn:Ht;
      simpl in H; [|done].
    pose proof (ql_terms_shape _ _ _ _ _ _ _ _ _ _ Ht) as (Hsh & _).
    apply ql_terms_refs in Ht as ->. apply IH in H as ->.
    unfold ql_all_refs in *. rewrite bind_cons, app_assoc. f_equal.
    clear IH. induction docs as [|d' docs IH']; [done|].
    by rewrite !bind_cons, IH', (ql_doc_refs_shape index index1).
Qed.

Lemma bm25_ranking_inv index q corpus cl top index' :
  bm25_ranking index q corpus cl = Some (top, index') →
  ∃ avgdl top0,
    bm25_docs (length corpus) avgdl q (unique_terms q) corpus index [] =
      Some (index', top0) ∧
    top = top_k (score_of index') 100 top0.
Proof.
  unfold bm25_ranking, bm25_scoring.
  destruct (pydiv _ _) as [avgdl|]; simpl; [|done].
  destruct (bm25_docs _ _ _ _ _ _ _) as [[index1 top1]|] eqn:Hd;
    simpl; [|done].
  intros [= <- <-]. eauto.
Qed.

Lemma ql_ranking_inv index q corpus cl cqi top index' :
  ql_ranking index q corpus cl cqi = Some (top, index') →
  ∃ top0,
    ql_docs cqi cl (map fst q) corpus index [] = Some (index', top0) ∧
    top = top_k (score_of index') 100 top0.
Proof.
  unfold ql_ranking, ql_scoring.
  destruct (ql_docs _ _ _ _ _ _) as [[index1 top1]|] eqn:Hd; simpl; [|done].
  intros [= <- <-]. eauto.
Qed.

(** X7: whenever a scorer returns, on any index and arguments, the index
    it leaves differs from the one it got in score fields and in empty
    posting lists for query terms only: every posting list has the same
    postings up to their scores, keys are never removed, and the entries
    of terms outside the query are untouched. *)
Theorem ranking_frame (index : gmap string (list Posting))
    (q : list (string * nat)) (corpus : list Doc) (cl : nat)
    (cqi : gmap string nat) (top : list Ref)
    (index' : gmap string (list Posting)) :
  bm25_ranking index q corpus cl = Some (top, index') ∨
  ql_ranking index q corpus cl cqi = Some (top, index') →
  (∀ t, map erase (postings_at index' t) = map erase (postings_at index t)) ∧
  (∀ t, is_Some (index !! t) → is_Some (index' !! t)) ∧
  (∀ t, t ∉ map fst q → index' !! t = index !! t).
Proof.
  intros [H|H].
  - apply bm25_ranking_inv in H as (avgdl & top0 & Hd & _).
    apply bm25_docs_shape in Hd as (H1 & _ & H3 & H4 & _).
    split_and!; [done..|].
    intros t Ht. apply H4. by rewrite unique_terms_elem.
  - apply ql_ranking_inv in H as (top0 & Hd & _).
    apply ql_docs_shape in Hd as (H1 & _ & H3 & H4 & _). done.
Qed.

Lemma ranking_frame_witness :
  ∃ top index',
    ql_ranking (built_index corpus_ab) (Counter ["a"]) corpus_ab
               (built_length corpus_ab) (built_cqi corpus_ab) =
      Some (top, index') ∧
    index' !! "b" = built_index corpus_ab !! "b".
Proof.
  destruct (ql_scoring_shaped corpus_ab (built_index corpus_ab)
              (Counter ["a"]) (built_shaped corpus_ab))
    as (top & index' & Hsc & _).
  apply ql_ranking_scoring in Hsc.
  rewrite <- built_length_total in Hsc.
  exists (top_k (score_of index') 100 top), index'. split; [exact Hsc|].
  apply (ranking_frame _ _ _ _ _ _ _ (or_intror Hsc)).
  vm_compute. intros Hin.
  by repeat (apply elem_of_cons in Hin as [Hin|Hin]; [done|]);
    apply elem_of_nil in Hin.
Defined.

(** ** What the scorers return *)

Lemma ql_all_refs_elem index ts docs (r : Ref) :
  r ∈ ql_all_refs index ts docs →
  r.1 ∈ ts ∧ r.2 < length (postings_at index r.1).
Proof.
  unfold ql_all_refs, ql_doc_refs. rewrite list_elem_of_bind.
  intros (d & Hr & _). apply list_elem_of_bind in Hr as (t & Hr & Ht).
  apply list_elem_of_fmap in Hr as (j & -> & Hj). simpl.
  apply elem_of_seq in Hj. split; [done | lia].
Qed.

Lemma same_shape_deref index index' (r : Ref) :
  same_shape index index' →
  is_Some (deref index r) → is_Some (deref index' r).
Proof.
  intros Hs. unfold deref. fold (postings_at index r.1) (postings_at index' r.1).
  rewrite !lookup_lt_is_Some. by rewrite (same_shape_length _ _ (Hs r.1)).
Qed.

Lemma entries_sorted index l :
  (∀ r, r ∈ l → is_Some (deref index r)) →
  desc_sorted (score_of index) l →
  length (entries index l) = length l ∧ desc_sorted snd (entries index l).
Proof.
  unfold desc_sorted. induction l as [|r l IH]; intros Hv Hs.
  - split; [done | constructor].
  - apply StronglySorted_cons in Hs as [Hr Hs].
    destruct (IH (fun r' Hr' => Hv r' (list_elem_of_further _ _ _ Hr')) Hs)
      as [IH1 IH2].
    destruct (Hv r (list_elem_of_here _ _)) as [p Hp].
    unfold entries in *. cbn [omap list_omap]. rewrite Hp. simpl.
    split; [by rewrite IH1|].
    constructor; [done|]. apply Forall_forall. intros [sid s] Hin. simpl.
    apply entries_elem_inv in Hin as (r' & p' & Hr' & Hp' & _ & <-).
    pose proof (proj1 (Forall_forall _ _) Hr r' Hr') as Hle.
    unfold score_of in Hle. by rewrite Hp, Hp' in Hle.
Qed.

(** X8: whatever a scorer returns holds at most 100 references, each to a
    posting of a query term that is in the index returned with it; read
    through that index they give as many entries, in non-increasing score
    order. *)
Theorem ranking_result (index : gmap string (list Posting))
    (q : list (string * nat)) (corpus : list Doc) (cl : nat)
    (cqi : gmap string nat) (top : list Ref)
    (index' : gmap string (list Posting)) :
  bm25_ranking index q corpus cl = Some (top, index') ∨
  ql_ranking index q corpus cl cqi = Some (top, index') →
  length top ≤ 100 ∧
  (∀ r : Ref, r ∈ top → r.1 ∈ map fst q ∧ is_Some (deref index' r)) ∧
  length (entries index' top) = length top ∧
  desc_sorted snd (entries index' top).
Proof.
  intros H.
  assert (∃ top0, top = top_k (score_of index') 100 top0 ∧
            ∀ r : Ref, r ∈ top0 → r.1 ∈ map fst q ∧ is_Some (deref index' r))
    as (top0 & -> & Hv).
  { destruct H as [H|H].
    - apply bm25_ranking_inv in H as (avgdl & top0 & Hd & ->).
      apply bm25_docs_shape in Hd as (Hs & _ & _ & _ & ->).
      eexists. split; [done|]. simpl.
      intros r (d & p & _ & Ht & Hp & _)%all_refs_elem.
      split; [by apply unique_terms_elem|].
      apply (same_shape_deref index); [done|]. by exists p.
    - apply ql_ranking_inv in H as (top0 & Hd & ->).
      pose proof (ql_docs_shape _ _ _ _ _ _ _ _ Hd) as (Hs & _).
      apply ql_docs_refs in Hd as ->.
      eexists. split; [done|]. simpl.
      intros r [Ht Hlt]%ql_all_refs_elem. split; [done|].
      apply (same_shape_deref index); [done|].
      unfold deref. fold (postings_at index r.1).
      by apply lookup_lt_is_Some. }
  assert (∀ r : Ref, r ∈ top_k (score_of index') 100 top0 →
            r.1 ∈ map fst q ∧ is_Some (deref index' r)) as Hv'.
  { intros r Hr. apply Hv. by eapply top_k_sublist. }
  destruct (entries_sorted index' (top_k (score_of index') 100 top0))
    as [H1 H2]; [intros r Hr; by apply Hv' | apply top_k_sorted |].
  split_and!; [rewrite top_k_length; lia | done..].
Qed.

Lemma ranking_result_witness :
  ∃ top index',
    ql_ranking (built_index corpus_ab) (Counter ["a"]) corpus_ab
               (built_length corpus_ab) (built_cqi corpus_ab) =
      Some (top, index') ∧
    length (entries index' top) = length top.
Proof.
  destruct (ql_scoring_shaped corpus_ab (built_index corpus_ab)
              (Counter ["a"]) (built_shaped corpus_ab))
    as (top & index' & Hsc & _).
  apply ql_ranking_scoring in Hsc.
  rewrite <- built_length_total in Hsc.
  exists (top_k (score_of index') 100 top), index'. split; [exact Hsc|].
  apply (ranking_result _ _ _ _ _ _ _ (or_intror Hsc)).
Defined.

(** ** Empty query, empty corpus *)

Lemma bm25_docs_no_terms Nc avgdl q docs : ∀ index top,
  bm25_docs Nc avgdl q [] docs index top = Some (index, top).
Proof. induction docs as [|d docs IH]; intros index top; simpl; [done|apply IH]. Qed.

Lemma ql_docs_no_terms cqi cardC docs : ∀ index top,
  ql_docs cqi cardC [] docs index top = Some (index, top).
Proof. induction docs as [|d docs IH]; intros index top; simpl; [done|apply IH]. Qed.

(** X9: on the empty corpus [bm25_ranking] raises and [ql_ranking]
    returns nothing and leaves the index alone, whatever the query; with
    no query terms both return nothing and leave the index alone,
    [bm25_ranking] provided the corpus has a document. *)
Theorem ranking_edge_cases (index : gmap string (list Posting))
    (q : list (string * nat)) (d : Doc) (docs : list Doc) (cl : nat)
    (cqi : gmap string nat) :
  bm25_ranking index q [] cl = None ∧
  ql_ranking index q [] cl cqi = Some ([], index) ∧
  bm25_ranking index (Counter []) (d :: docs) cl = Some ([], index) ∧
  ql_ranking index (Counter []) (d :: docs) cl cqi = Some ([], index) ∧
  ql_ranking index (Counter []) [] cl cqi = Some ([], index).
Proof.
  split_and!; [apply bm25_ranking_empty | done | | | done].
  - unfold bm25_ranking, bm25_scoring.
    rewrite pydiv_Some by (apply not_0_INR; simpl; lia). simpl.
    change (unique_terms (Counter [])) with (@nil string).
    by rewrite bm25_docs_no_terms.
  - unfold ql_ranking, ql_scoring.
    change (map fst (Counter [])) with (@nil string).
    by rewrite ql_docs_no_terms.
Qed.

(** ** BM25 and the queries before it *)

Lemma insert_desc_ext_on {A} (key key' : A → R) x l :
  (∀ y, y ∈ x :: l → key y = key' y) →
  insert_desc key x l = insert_desc key' x l.
Proof.
  intros Hk. induction l as [|y l IH]; simpl; [done|].
  rewrite (Hk x) by (by left). rewrite (Hk y) by (right; by left).
  rewrite IH; [done|].
  intros z [->|Hz]%elem_of_cons; apply Hk; [by left | right; by right].
Qed.

Lemma sort_desc_ext_on {A} (key key' : A → R) l :
  (∀ y, y ∈ l → key y = key' y) → sort_desc key l = sort_desc key' l.
Proof.
  induction l as [|x l IH]; intros Hk; simpl; [done|].
  rewrite IH by (intros y Hy; apply Hk; by right).
  apply insert_desc_ext_on.
  intros y [->|Hy]%elem_of_cons; apply Hk; [by left|].
  right. by rewrite <- (sort_desc_perm key' l).
Qed.

Lemma entries_ext_on i1 i2 l :
  (∀ r, r ∈ l → deref i1 r = deref i2 r) → entries i1 l = entries i2 l.
Proof.
  unfold entries. induction l as [|r l IH]; intros Hd; [done|].
  cbn [omap list_omap]. rewrite (Hd r) by (by left).
  rewrite IH; [done|]. intros r' Hr'. apply Hd. by right.
Qed.

Lemma rescore_erase corpus q t l :
  NoDup (map sceneId corpus) →
  map erase l = postings_of (length corpus) t corpus →
  t ∈ unique_terms q →
  map (fun p =>
         match doc_by_id corpus (doc_id p) with
         | Some d =>
             if decide (t ∈ unique_terms q)
             then set_score p (bm25_partial corpus q d t)
             else p
         | None => p
         end) l =
  map (fun d => set_score (posting_of (length corpus) t d)
                          (bm25_partial corpus q d t))
      (filter (fun d => t ∈ tokens d) corpus).
Proof.
  intros Hnd H Ht. unfold postings_of in H.
  assert (∀ d, d ∈ filter (fun d => t ∈ tokens d) corpus → d ∈ corpus)
    as Hsub by (by intros d [_ ?]%list_elem_of_filter).
  revert H Hsub. generalize (filter (fun d => t ∈ tokens d) corpus).
  induction l as [|p l IH]; intros [|d L] H Hsub; try done.
  simpl in H. injection H as Hid Hpos Htc Hdl HN Hl.
  simpl. rewrite (IH L Hl) by (intros d' Hd'; apply Hsub; by right).
  f_equal. rewrite Hid, doc_by_id_Some by (done || apply Hsub; by left).
  rewrite decide_True by done. destruct p. simpl in *. by subst.
Qed.

Lemma bm25_same_on_shaped (corpus : list Doc) (terms : list string)
    (index : gmap string (list Posting)) :
  corpus ≠ [] → NoDup (map sceneId corpus) → shaped corpus index →
  ∃ top i1 i2,
    bm25_ranking index (Counter terms) corpus (built_length corpus) =
      Some (top, i1) ∧
    bm25_ranking (built_index corpus) (Counter terms) corpus
                 (built_length corpus) = Some (top, i2) ∧
    entries i1 top = entries i2 top.
Proof.
  intros Hne Hnd Hs. rewrite built_length_total.
  pose proof (built_shaped corpus) as Hb.
  destruct (bm25_scoring_exact corpus index (Counter terms) Hne Hnd Hs)
    as (i1 & Hsc1 & _ & _ & _ & Hex1).
  destruct (bm25_scoring_exact corpus _ (Counter terms) Hne Hnd Hb)
    as (i2 & Hsc2 & _ & _ & _ & Hex2).
  assert (same_shape (built_index corpus) index) as Hsh
    by (intros t; by rewrite Hs, Hb).
  rewrite (all_refs_shape (built_index corpus) index) in Hsc1 by done.
  set (top0 := all_refs (built_index corpus)
                 (unique_terms (Counter terms)) corpus) in *.
  assert (∀ r : Ref, r ∈ top0 → deref i1 r = deref i2 r) as Hderef.
  { intros r (d & p & _ & Ht & _)%all_refs_elem.
    unfold deref. fold (postings_at i1 r.1) (postings_at i2 r.1).
    rewrite Hex1, Hex2.
    by rewrite (rescore_erase corpus _ r.1 _ Hnd (Hs r.1) Ht),
               (rescore_erase corpus _ r.1 _ Hnd (Hb r.1) Ht). }
  assert (top_k (score_of i1) 100 top0 = top_k (score_of i2) 100 top0)
    as Htop.
  { unfold top_k. f_equal. apply sort_desc_ext_on. intros r Hr.
    unfold score_of. by rewrite Hderef. }
  apply bm25_ranking_scoring in Hsc1, Hsc2. rewrite <- Htop in Hsc2.
  eexists _, i1, i2. split; [exact Hsc1|]. split; [exact Hsc2|].
  apply entries_ext_on. intros r Hr. apply Hderef.
  by eapply top_k_sublist.
Qed.

(** X10: on a non-empty corpus with distinct ids, whatever earlier
    queries left in the index (any scores, any empty entries),
    [bm25_ranking] returns what it returns on the fresh index: the same
    references, documents and scores. *)
Theorem bm25_history_independent (corpus : list Doc) (terms : list string)
    (index : gmap string (list Posting)) :
  corpus ≠ [] → NoDup (map sceneId corpus) → shaped corpus index →
  ∃ top i1 i2,
    bm25_ranking index (Counter terms) corpus (built_length corpus) =
      Some (top, i1) ∧
    bm25_ranking (built_index corpus) (Counter terms) corpus
                 (built_length corpus) = Some (top, i2) ∧
    entries i1 top = entries i2 top.
Proof. apply bm25_same_on_shaped. Qed.

Lemma shaped_after_ranking corpus index q cl cqi top index' :
  shaped corpus index →
  bm25_ranking index q corpus cl = Some (top, index') ∨
  ql_ranking index q corpus cl cqi = Some (top, index') →
  shaped corpus index'.
Proof.
  intros Hs H. intros t.
  destruct H as [H|H].
  - apply bm25_ranking_inv in H as (avgdl & top0 & Hd & _).
    apply bm25_docs_shape in Hd as (H1 & _). by rewrite H1.
  - apply ql_ranking_inv in H as (top0 & Hd & _).
    apply ql_docs_shape in Hd as (H1 & _). by rewrite H1.
Qed.

Lemma bm25_history_independent_witness :
  ∃ top0 index top i1 i2,
    ql_ranking (built_index corpus_ab) (Counter ["a"]) corpus_ab
               (built_length corpus_ab) (built_cqi corpus_ab) =
      Some (top0, index) ∧
    bm25_ranking index (Counter ["a"; "b"]) corpus_ab
                 (built_length corpus_ab) = Some (top, i1) ∧
    bm25_ranking (built_index corpus_ab) (Counter ["a"; "b"]) corpus_ab
                 (built_length corpus_ab) = Some (top, i2) ∧
    entries i1 top = entries i2 top.
Proof.
  destruct (ql_scoring_shaped corpus_ab (built_index corpus_ab)
              (Counter ["a"]) (built_shaped corpus_ab))
    as (top0 & index & Hsc & _).
  apply ql_ranking_scoring in Hsc.
  rewrite <- built_length_total in Hsc.
  assert (shaped corpus_ab index) as Hs.
  { eapply shaped_after_ranking; [apply built_shaped | right; exact Hsc]. }
  assert (corpus_ab ≠ []) as Hne by done.
  assert (NoDup (map sceneId corpus_ab)) as Hnd
    by (apply (bool_decide_unpack _); vm_compute; exact I).
  destruct (bm25_history_independent corpus_ab ["a"; "b"] index Hne Hnd Hs)
    as (top & i1 & i2 & H1 & H2 & H3).
  exists (top_k (score_of index) 100 top0), index, top, i1, i2.
  split; [exact Hsc|]. split; [exact H1|].
  split; [exact H2 | exact H3].
Defined.

(** ** The scores [ql_ranking] leaves *)

Lemma ql_postings_step sid t cqi cardC ps :
  ps = [] ∨ (∃ c, cqi !! t = Some c ∧ 0 < c ∧ 0 < cardC) →
  ∀ i s top,
    ∃ s',
      ql_postings sid t cqi cardC i ps s top =
      Some (map (fun p => add_score p (ql_step cqi cardC t sid p)) ps,
            s', top ++ map (pair t) (seq i (length ps))).
Proof.
  intros [->|(c & Hc & Hpos & HC)] i s top.
  - exists s. simpl. by rewrite app_nil_r.
  - destruct (ql_postings_exact sid t cqi cardC c ps Hc Hpos HC i s top)
      as [s' ->].
    exists s'. unfold ql_step. by rewrite Hc.
Qed.

Lemma ql_terms_exact sid cqi cardC ts :
  NoDup ts →
  ∀ index s top,
    ql_ready cqi cardC index ts →
    ∃ index' s' top',
      ql_terms sid cqi cardC ts index s top = Some (index', s', top') ∧
      ∀ t, postings_at index' t =
           if decide (t ∈ ts)
           then map (fun p => add_score p (ql_step cqi cardC t sid p))
                    (postings_at index t)
           else postings_at index t.
Proof.
  induction 1 as [|t ts Hnin Hnd IH]; intros index s top Hr.
  - exists index, s, top. split; [done|]. intros t.
    rewrite decide_False; [done | apply not_elem_of_nil].
  - rewrite ql_terms_cons.
    destruct (ql_postings_step sid t cqi cardC (postings_at index t)
                (Hr t ltac:(by left)) 0 s top) as [s1 ->].
    simpl.
    set (l' := map _ (postings_at index t)).
    destruct (IH (<[t := l']> index) s1
                 (top ++ map (pair t)
                             (seq 0 (length (postings_at index t)))))
      as (index' & s' & top' & -> & Hex).
    { intros t' Ht'. rewrite postings_at_insert.
      rewrite decide_False by (intros ->; done).
      apply Hr. by right. }
    exists index', s', top'. split; [done|]. intros t0.
    rewrite Hex, postings_at_insert.
    destruct (decide (t = t0)) as [<-|Hne].
    + rewrite decide_False by done.
      rewrite decide_True by (by left). done.
    + destruct (decide (t0 ∈ ts)) as [Hin|Hin].
      * rewrite decide_True by (by right). done.
      * rewrite decide_False; [done|].
        intros [->|?]%elem_of_cons; done.
Qed.

Lemma add_score_add p a b :
  add_score (add_score p a) b = add_score p (a + b).
Proof. unfold add_score, set_score. simpl. f_equal. lra. Qed.

Lemma add_score_zero p : add_score p 0 = p.
Proof.
  destruct p. unfold add_score, set_score. simpl. f_equal. lra.
Qed.

Lemma ql_step_add_score cqi cardC t sid p a :
  ql_step cqi cardC t sid (add_score p a) = ql_step cqi cardC t sid p.
Proof. done. Qed.

Lemma ql_docs_exact cqi cardC ts docs :
  NoDup ts →
  ∀ index top,
    ql_ready cqi cardC index ts →
    ∃ index' top',
      ql_docs cqi cardC ts docs index top = Some (index', top') ∧
      ∀ t, postings_at index' t =
           if decide (t ∈ ts)
           then map (fun p => add_score p (ql_gain cqi cardC t docs p))
                    (postings_at index t)
           else postings_at index t.
Proof.
  intros Hnd. induction docs as [|d docs IH]; intros index top Hr.
  - exists index, top. split; [done|]. intros t.
    destruct (decide (t ∈ ts)); [|done].
    unfold ql_gain. simpl. rewrite <- (map_id (postings_at index t)) at 1.
    apply map_ext. intros p. by rewrite add_score_zero.
  - simpl.
    destruct (ql_terms_exact (sceneId d) cqi cardC ts Hnd index 0%R top Hr)
      as (index1 & s1 & top1 & -> & Hex1).
    simpl.
    destruct (IH index1 top1) as (index' & top' & -> & Hex).
    { intros t Ht. rewrite Hex1, decide_True by done.
      destruct (Hr t Ht) as [->|?]; [by left | by right]. }
    exists index', top'. split; [done|]. intros t.
    rewrite Hex, Hex1. destruct (decide (t ∈ ts)); [|done].
    rewrite map_map. apply map_ext. intros p.
    rewrite add_score_add. unfold ql_gain. simpl. done.
Qed.

Lemma sum_R_no_id {A} (g : A → R) (sid : string) (a b : A)
    (docs : list Doc) :
  sid ∉ map sceneId docs →
  sum_R (map (fun d => g (if String.eqb sid (sceneId d) then a else b))
             docs) =
  (INR (length docs) * g b)%R.
Proof.
  unfold sum_R. induction docs as [|d docs IH]; intros Hn.
  - simpl. lra.
  - apply not_elem_of_cons in Hn as [Hne Hn].
    cbn [map foldr length]. rewrite IH by done.
    apply String.eqb_neq in Hne. rewrite Hne, S_INR. lra.
Qed.

Lemma sum_R_one_id {A} (g : A → R) (d0 : Doc) (a b : A) (docs : list Doc) :
  NoDup (map sceneId docs) → d0 ∈ docs →
  sum_R (map (fun d => g (if String.eqb (sceneId d0) (sceneId d)
                          then a else b)) docs) =
  (g a + INR (length docs - 1) * g b)%R.
Proof.
  induction docs as [|d docs IH]; intros Hnd Hd.
  - by apply elem_of_nil in Hd.
  - cbn [map] in Hnd. apply NoDup_cons in Hnd as [Hn Hnd].
    change (sum_R (map ?f (d :: docs))) with
      (f d + sum_R (map f docs))%R.
    cbn [length]. rewrite Nat.sub_succ, Nat.sub_0_r.
    destruct (decide (sceneId d0 = sceneId d)) as [He|Hne].
    + rewrite He, String.eqb_refl, <- He.
      rewrite sum_R_no_id by (by rewrite He). done.
    + apply elem_of_cons in Hd as [->|Hd]; [done|].
      rewrite IH by done. apply String.eqb_neq in Hne. rewrite Hne.
      destruct docs as [|d1 docs]; [by apply elem_of_nil in Hd|].
      cbn [length]. rewrite Nat.sub_succ, Nat.sub_0_r, S_INR. lra.
Qed.

Lemma shaped_ql_ready corpus index ts :
  shaped corpus index →
  ql_ready (built_cqi corpus) (total_length corpus) index ts.
Proof.
  intros Hs t _. destruct (postings_at index t) as [|p l] eqn:Hl;
    [by left | right].
  destruct (shaped_elem corpus index t p Hs) as (d & Hd & Ht & _).
  { rewrite Hl. by left. }
  exists (cf t corpus). split_and!.
  - by eapply built_cqi_lookup.
  - by eapply cf_pos.
  - by eapply total_length_pos.
Qed.

(** X11: on the index of a corpus with distinct ids (fresh or used),
    [ql_ranking] returns, and it adds to every posting of every query term
    the weight of the posting's own document plus, for each of the other
    [length corpus - 1] documents, the weight at term frequency 0 and the
    same document length; what other terms the query has, and how often it
    has this one, does not matter. *)
Theorem ql_scores (corpus : list Doc) (terms : list string)
    (index : gmap string (list Posting)) :
  NoDup (map sceneId corpus) → shaped corpus index →
  ∃ top index',
    ql_ranking index (Counter terms) corpus (built_length corpus)
               (built_cqi corpus) = Some (top, index') ∧
    ∀ t, t ∈ terms →
      postings_at index' t =
      map (fun p =>
             add_score p
               (ql_weight (cf t corpus) (total_length corpus)
                          (termCount p) (docLen p) +
                INR (length corpus - 1) *
                ql_weight (cf t corpus) (total_length corpus) 0 (docLen p)))
          (postings_at index t).
Proof.
  intros Hnd Hs. rewrite built_length_total.
  destruct (ql_docs_exact (built_cqi corpus) (total_length corpus)
              (map fst (Counter terms)) corpus (Counter_keys_NoDup terms)
              index [] (shaped_ql_ready _ _ _ Hs))
    as (index' & top' & Hd & Hex).
  exists (top_k (score_of index') 100 top'), index'. split.
  - apply ql_ranking_scoring. unfold ql_scoring. by rewrite Hd.
  - intros t Ht. rewrite Hex, decide_True by (by apply Counter_keys).
    apply map_ext_on. intros p Hp. f_equal.
    destruct (shaped_elem corpus index t p Hs Hp) as (d & Hdc & Htd & He).
    pose proof (f_equal doc_id He) as Hid. simpl in Hid.
    unfold ql_gain, ql_step.
    rewrite (built_cqi_lookup corpus d t) by done. simpl.
    rewrite Hid.
    by rewrite (sum_R_one_id
                  (fun fqi => ql_weight (cf t corpus) (total_length corpus)
                                        fqi (docLen p))).
Qed.

Lemma ql_scores_witness :
  ∃ top index',
    ql_ranking (built_index corpus_ab) (Counter ["a"; "a"]) corpus_ab
               (built_length corpus_ab) (built_cqi corpus_ab) =
      Some (top, index') ∧
    map score (postings_at index' "a") =
    [(0 + (ql_weight 1 2 1 1 + 1 * ql_weight 1 2 0 1))%R].
Proof.
  assert (NoDup (map sceneId corpus_ab)) as Hnd
    by (apply (bool_decide_unpack _); vm_compute; exact I).
  destruct (ql_scores corpus_ab ["a"; "a"] (built_index corpus_ab) Hnd
              (built_shaped corpus_ab)) as (top & index' & Hr & Hex).
  exists top, index'. split; [exact Hr|].
  rewrite (Hex "a") by (by left).
  vm_compute. reflexivity.
Defined.

(** ** How many results a query has *)

Lemma length_bind_sum {A B} (f : A → list B) (l : list A) :
  length (l ≫= f) = sum_list (map (fun x => length (f x)) l).
Proof.
  induction l as [|x l IH]; [done|].
  rewrite bind_cons, length_app, IH. done.
Qed.

Lemma sum_list_swap {A B} (g : A → B → nat) (la : list A) (lb : list B) :
  sum_list (map (fun a => sum_list (map (g a) lb)) la) =
  sum_list (map (fun b => sum_list (map (fun a => g a b) la)) lb).
Proof.
  induction la as [|a la IH]; simpl.
  - induction lb as [|b lb IHb]; simpl; [done | by rewrite <- IHb].
  - rewrite IH, <- sum_list_add. done.
Qed.

Lemma sum_list_ext_on {A} (f g : A → nat) (l : list A) :
  (∀ x, x ∈ l → f x = g x) → sum_list (map f l) = sum_list (map g l).
Proof. intros H. f_equal. by apply map_ext_on. Qed.

Lemma sum_list_const {A} (c : nat) (l : list A) :
  sum_list (map (fun _ => c) l) = length l * c.
Proof. induction l as [|x l IH]; simpl; [done | by rewrite IH]. Qed.

Lemma all_refs_length corpus index ts :
  NoDup (map sceneId corpus) → shaped corpus index →
  length (all_refs index ts corpus) =
  sum_list (map (fun t => df t corpus) ts).
Proof.
  intros Hnd Hs. unfold all_refs. rewrite length_bind_sum.
  rewrite (sum_list_ext_on _
             (fun d => sum_list
                (map (fun t => length
                        (positions_from (sceneId d) 0
                           (map doc_id (postings_at index t)))) ts))).
  2:{ intros d _. unfold doc_refs. rewrite length_bind_sum.
      apply sum_list_ext_on. intros t _. by rewrite length_map. }
  rewrite (sum_list_swap
             (fun d t => length (positions_from (sceneId d) 0
                                   (map doc_id (postings_at index t))))).
  apply sum_list_ext_on. intros t _.
  rewrite <- (shaped_length corpus index t Hs).
  rewrite <- (length_map doc_id (postings_at index t)).
  rewrite <- (sum_positions_from (map sceneId corpus)
                (map doc_id (postings_at index t)) 0 Hnd).
  - by rewrite map_map.
  - intros x Hx. rewrite (shaped_ids corpus index t Hs) in Hx.
    apply list_elem_of_fmap in Hx as (d & -> & Hd).
    apply list_elem_of_filter in Hd as [_ Hd].
    by apply list_elem_of_fmap_2.
Qed.

Lemma ql_all_refs_length corpus index ts :
  shaped corpus index →
  length (ql_all_refs index ts corpus) =
  length corpus * sum_list (map (fun t => df t corpus) ts).
Proof.
  intros Hs. unfold ql_all_refs. rewrite length_bind_sum.
  rewrite sum_list_const. f_equal.
  unfold ql_doc_refs. rewrite length_bind_sum.
  apply sum_list_ext_on. intros t _.
  by rewrite length_map, length_seq, (shaped_length corpus).
Qed.

(** X12: on a non-empty corpus with distinct ids, a BM25 query returns one
    result for each pair of a distinct query term and a document that has
    it, and a QL query returns each of those once for every document of
    the corpus, both cut at 100. *)
Theorem ranking_sizes (corpus : list Doc) (terms : list string)
    (index : gmap string (list Posting)) :
  corpus ≠ [] → NoDup (map sceneId corpus) → shaped corpus index →
  ∃ tb ib tq iq,
    bm25_ranking index (Counter terms) corpus (built_length corpus) =
      Some (tb, ib) ∧
    ql_ranking index (Counter terms) corpus (built_length corpus)
               (built_cqi corpus) = Some (tq, iq) ∧
    length tb =
      min 100 (sum_list (map (fun t => df t corpus)
                             (unique_terms (Counter terms)))) ∧
    length tq =
      min 100 (length corpus *
               sum_list (map (fun t => df t corpus)
                             (unique_terms (Counter terms)))).
Proof.
  intros Hne Hnd Hs. rewrite built_length_total.
  destruct (bm25_scoring_exact corpus index (Counter terms) Hne Hnd Hs)
    as (ib & Hb & _).
  destruct (ql_scoring_shaped corpus index (Counter terms) Hs)
    as (tq0 & iq & Hq & _).
  pose proof Hq as Hq0. unfold ql_scoring in Hq0.
  destruct (ql_docs _ _ _ _ _ _) as [[iq' tq']|] eqn:Hd;
    simpl in Hq0; [|done].
  injection Hq0 as -> ->.
  apply ql_docs_refs in Hd. simpl in Hd.
  apply bm25_ranking_scoring in Hb. apply ql_ranking_scoring in Hq.
  eexists _, ib, _, iq. split; [exact Hb|]. split; [exact Hq|].
  rewrite !top_k_length. split.
  - by rewrite all_refs_length.
  - rewrite Hd, ql_all_refs_length by done.
    by rewrite unique_terms_keys by apply Counter_keys_NoDup.
Qed.

Lemma ranking_sizes_witness :
  ∃ tb ib tq iq,
    bm25_ranking (built_index corpus_ab) (Counter ["a"; "b"; "a"]) corpus_ab
                 (built_length corpus_ab) = Some (tb, ib) ∧
    ql_ranking (built_index corpus_ab) (Counter ["a"; "b"; "a"]) corpus_ab
               (built_length corpus_ab) (built_cqi corpus_ab) =
      Some (tq, iq) ∧
    length tb = 2 ∧ length tq = 4.
Proof.
  assert (corpus_ab ≠ []) as Hne by done.
  assert (NoDup (map sceneId corpus_ab)) as Hnd
    by (apply (bool_decide_unpack _); vm_compute; exact I).
  destruct (ranking_sizes corpus_ab ["a"; "b"; "a"] (built_index corpus_ab)
              Hne Hnd (built_shaped corpus_ab))
    as (tb & ib & tq & iq & Hb & Hq & Lb & Lq).
  exists tb, ib, tq, iq. split; [exact Hb|]. split; [exact Hq|].
  split; [exact Lb | exact Lq].
Defined.

(** ** [main] *)

Lemma main_built can_open corpus rows out files :
  main can_open corpus rows out files =
  main_rows can_open out corpus (total_length corpus) (built_cqi corpus)
            files (built_index corpus) rows.
Proof.
  rewrite <- built_length_total.
  unfold main, built_length, built_cqi, built_index, build_index.
  by destruct (fold_left _ _ _) as [[index cl] cqi].
Qed.

Lemma main_rows_app can_open out corpus cl cqi rows rows' : ∀ files index,
  main_rows can_open out corpus cl cqi files index (rows ++ rows') =
  match main_rows can_open out corpus cl cqi files index rows with
  | (files', Some index') =>
      main_rows can_open out corpus cl cqi files' index' rows'
  | (files', None) => (files', None)
  end.
Proof.
  induction rows as [|row rows IH]; intros files index; [done|].
  simpl. destruct (main_row _ _ _ _ _ _ _ _) as [files1 [index1|]]; [|done].
  apply IH.
Qed.

Lemma rows_open_cons can_open out row rows :
  rows_open can_open out (row :: rows) →
  (∀ r0, head row = Some r0 → can_open (path_of out r0) = true) ∧
  rows_open can_open out rows.
Proof.
  intros H. split.
  - intros r0. apply H. by left.
  - intros row' r0 Hin. apply H. by right.
Qed.

Lemma rows_open_app can_open out rows rows' :
  rows_open can_open out (rows ++ rows') →
  rows_open can_open out rows ∧ rows_open can_open out rows'.
Proof.
  intros H. split; intros row r0 Hin; apply H, elem_of_app; auto.
Qed.

Lemma entries_corpus corpus index top sid s :
  shaped corpus index → (sid, s) ∈ entries index top →
  sid ∈ map sceneId corpus.
Proof.
  intros Hs (r & p & _ & Hr & <- & _)%entries_elem_inv.
  unfold deref in Hr. apply list_elem_of_lookup_2 in Hr.
  destruct (shaped_elem corpus index r.1 p Hs Hr) as (d & Hd & _ & He).
  pose proof (f_equal doc_id He) as Hid. simpl in Hid. rewrite Hid.
  by apply list_elem_of_fmap_2.
Qed.

Lemma write_lines_of corpus index top r0 r1 :
  shaped corpus index → length top ≤ 100 →
  lines_of corpus r0 r1 (write_lines r0 r1 (entries index top)).
Proof.
  intros Hs Hl. split.
  - unfold write_lines. rewrite length_map.
    pose proof (entries_length index top). lia.
  - intros l ([sid s] & -> & He)%list_elem_of_fmap. simpl.
    split_and!; [done..|]. by eapply entries_corpus.
Qed.

Lemma main_row_ok can_open out corpus files index r0 r1 model ts :
  corpus ≠ [] → shaped corpus index →
  can_open (path_of out r0) = true →
  ∃ lines index',
    main_row can_open out corpus (total_length corpus) (built_cqi corpus)
             files index (r0 :: r1 :: model :: ts) =
      (<[path_of out r0 := lines]> files, Some index') ∧
    shaped corpus index' ∧ lines_of corpus r0 r1 lines.
Proof.
  intros Hne Hs Hopen. cbn [main_row]. rewrite Hopen.
  destruct (String.eqb model "bm25").
  - destruct (bm25_scoring_shaped corpus index (Counter ts) Hne Hs)
      as (index' & Hsc & Hsh & _).
    apply bm25_ranking_scoring in Hsc. rewrite Hsc.
    assert (shaped corpus index') as Hs'
      by (by eapply shaped_same_shape).
    eexists _, index'. rewrite insert_insert_eq.
    split_and!; [done | done |].
    apply write_lines_of; [done|]. rewrite top_k_length. lia.
  - destruct (String.eqb model "ql").
    + destruct (ql_scoring_shaped corpus index (Counter ts) Hs)
        as (top & index' & Hsc & Hsh & _).
      apply ql_ranking_scoring in Hsc. rewrite Hsc.
      assert (shaped corpus index') as Hs'
        by (by eapply shaped_same_shape).
      eexists _, index'. rewrite insert_insert_eq.
      split_and!; [done | done |].
      apply write_lines_of; [done|]. rewrite top_k_length. lia.
    + exists [], index. split_and!; [done | done |].
      split; [simpl; lia|]. intros l Hl. by apply elem_of_nil in Hl.
Qed.

Lemma main_rows_ok can_open out corpus rows :
  corpus ≠ [] → Forall (fun row => 3 ≤ length row) rows →
  rows_open can_open out rows →
  ∀ files index, shaped corpus index →
  ∃ files' index',
    main_rows can_open out corpus (total_length corpus) (built_cqi corpus)
              files index rows = (files', Some index') ∧
    shaped corpus index' ∧
    (∀ row r0, row ∈ rows → head row = Some r0 →
       is_Some (files' !! path_of out r0)) ∧
    ∀ path,
      files' !! path = files !! path ∨
      ∃ r0 r1 rest lines,
        (r0 :: r1 :: rest) ∈ rows ∧ path = path_of out r0 ∧
        files' !! path = Some lines ∧ lines_of corpus r0 r1 lines.
Proof.
  intros Hne. induction 1 as [|row rows Hrow Hrows IH];
    intros Hopen files index Hs.
  - exists files, index. split_and!; [done | done | |by left].
    intros row r0 Hr. by apply elem_of_nil in Hr.
  - destruct row as [|r0 [|r1 [|model ts]]]; simpl in Hrow; try lia.
    apply rows_open_cons in Hopen as [Hopen0 Hopen].
    destruct (main_row_ok can_open out corpus files index r0 r1 model ts
                Hne Hs (Hopen0 r0 eq_refl))
      as (lines & index1 & Hr & Hs1 & Hl).
    destruct (IH Hopen (<[path_of out r0 := lines]> files) index1 Hs1)
      as (files' & index' & Hrs & Hs' & Hall & Hpaths).
    exists files', index'. split_and!.
    + cbn [main_rows]. rewrite Hr. exact Hrs.
    + done.
    + intros row q0 [->|Hin]%elem_of_cons Hq0.
      * injection Hq0 as <-.
        destruct (Hpaths (path_of out r0))
          as [He|(q0 & q1 & rest & lines' & _ & _ & He & _)].
        -- rewrite He, lookup_insert_eq. done.
        -- by rewrite He.
      * by eapply Hall.
    + intros path.
      destruct (Hpaths path)
        as [He|(q0 & q1 & rest & lines' & Hin & Hp & He & Hl')].
      * destruct (decide (path = path_of out r0)) as [->|Hp].
        -- right. exists r0, r1, (model :: ts), lines.
           rewrite He, lookup_insert_eq. split_and!; try done. by left.
        -- left. by rewrite He, lookup_insert_ne.
      * right. exists q0, q1, rest, lines'.
        split_and!; try done. by right.
Qed.



(** X14: on a non-empty corpus with distinct ids, when the rows have
    three fields or more and their files can be opened, the file [main]
    writes for a last row of model bm25 is the file it writes when that
    row is the only one: what the rows before it did to the scores in the
    shared index does not reach a BM25 result. *)
Theorem main_bm25_last (can_open : string → bool) (corpus : list Doc)
    (rows : list (list string)) (r0 r1 : string) (ts : list string)
    (out : string) (files : gmap string (list Line)) :
  corpus ≠ [] → NoDup (map sceneId corpus) →
  Forall (fun row => 3 ≤ length row) rows →
  rows_open can_open out (rows ++ [r0 :: r1 :: "bm25" :: ts]) →
  (main can_open corpus (rows ++ [r0 :: r1 :: "bm25" :: ts]) out files).1
    !! path_of out r0 =
  (main can_open corpus [r0 :: r1 :: "bm25" :: ts] out ∅).1
    !! path_of out r0.
Proof.
  intros Hne Hnd Hrows [Hopen Hlast]%rows_open_app.
  rewrite !main_built, main_rows_app.
  destruct (main_rows_ok can_open out corpus rows Hne Hrows Hopen files
              (built_index corpus) (built_shaped corpus))
    as (files1 & index1 & -> & Hs & _).
  destruct (bm25_same_on_shaped corpus ts index1 Hne Hnd Hs)
    as (top & i1 & i2 & H1 & H2 & He).
  rewrite built_length_total in H1, H2.
  cbn [main_rows main_row].
  rewrite (Hlast (r0 :: r1 :: "bm25" :: ts) r0) by (done || by left).
  rewrite String.eqb_refl, H1, H2.
  cbn [fst]. by rewrite !lookup_insert_eq, He.
Qed.

Lemma main_bm25_last_witness :
  (main (fun _ => true) corpus_ab
        [["1"; "q"; "ql"; "a"]; ["2"; "q"; "bm25"; "a"; "b"]]
        "out" ∅).1 !! path_of "out" "2" =
  (main (fun _ => true) corpus_ab [["2"; "q"; "bm25"; "a"; "b"]] "out" ∅).1
    !! path_of "out" "2".
Proof.
  assert (corpus_ab ≠ []) as Hne by done.
  assert (NoDup (map sceneId corpus_ab)) as Hnd
    by (apply (bool_decide_unpack _); vm_compute; exact I).
  assert (Forall (fun row : list string => 3 ≤ length row)
            [["1"; "q"; "ql"; "a"]]) as Hrows
    by (repeat constructor; simpl; lia).
  assert (rows_open (fun _ => true) "out"
            ([["1"; "q"; "ql"; "a"]] ++ [["2"; "q"; "bm25"; "a"; "b"]]))
    as Hopen by done.
  exact (main_bm25_last (fun _ => true) corpus_ab [["1"; "q"; "ql"; "a"]]
           "2" "q" ["a"; "b"] "out" ∅ Hne Hnd Hrows Hopen).
Defined.



(** ** A document with two query terms *)

Lemma bm25_weight_one_doc :
  bm25_weight 1 1 1 (avgdl_of corpus_one) 1 2 = ln (1 / 3).
Proof.
  unfold bm25_weight, bm25_idf, bm25_tf_weight, bm25_K, bm25_qtf_weight,
    avgdl_of, BM25.k1, BM25.k2, BM25.b.
  change (total_length corpus_one) with 2.
  change (length corpus_one) with 1. simpl INR.
  replace ((1 - 1 + 0.5) / (1 + 0.5))%R with (1 / 3)%R by lra.
  replace ((1.8 + 1) * 1 /
           (1.8 * (1 - 0.75 + 0.75 * ((1 + 1) / ((1 + 1) / 1))) + 1))%R
    with 1%R by (field_simplify_eq; lra).
  replace ((5 + 1) * 1 / (5 + 1))%R with 1%R by lra.
  lra.
Qed.

Lemma bm25_partial_one_doc (t : string) :
  t ∈ ["a"; "b"] →
  bm25_term_weight corpus_one (Counter ["a"; "b"]) t (mkDoc "d1" "a b") =
  ln (1 / 3).
Proof.
  intros Ht. rewrite <- bm25_weight_one_doc. unfold bm25_term_weight.
  repeat (apply elem_of_cons in Ht as [->|Ht]; [reflexivity|]).
  by apply elem_of_nil in Ht.
Qed.

(** C4 on the corpus of the one document d1 = ["a b"] and the query
    ["a"; "b"]: the BM25 scorer returns two entries for d1, one for each
    query term; the one ranked first carries the contribution of ["a"]
    alone, [ln (1/3)], which is not the score of d1, the sum
    [ln (1/3) + ln (1/3)] of the contributions of the two terms, carried
    by the second. *)
Theorem bm25_two_terms :
  ∃ top index',
    bm25_ranking (built_index corpus_one) (Counter ["a"; "b"]) corpus_one
                 (built_length corpus_one) = Some (top, index') ∧
    entries index' top =
      [("d1", ln (1 / 3)); ("d1", (ln (1 / 3) + ln (1 / 3))%R)] ∧
    bm25_score corpus_one (Counter ["a"; "b"]) (mkDoc "d1" "a b") =
      (ln (1 / 3) + ln (1 / 3))%R ∧
    ln (1 / 3) ≠ (ln (1 / 3) + ln (1 / 3))%R.
Proof.
  assert (corpus_one ≠ []) as Hne by done.
  assert (NoDup (map sceneId corpus_one)) as Hnd
    by (apply (bool_decide_unpack _); vm_compute; exact I).
  assert (ln (1 / 3) < 0)%R as Hneg.
  { rewrite <- ln_1. apply ln_increasing; lra. }
  set (q := Counter ["a"; "b"]).
  set (d1 := mkDoc "d1" "a b").
  assert (unique_terms q = ["a"; "b"]) as Hq by (vm_compute; reflexivity).
  assert (bm25_partial corpus_one q d1 "a" = ln (1 / 3)) as Ha.
  { unfold bm25_partial. rewrite Hq.
    change (prefix_upto "a" ["a"; "b"]) with ["a"].
    rewrite bm25_sum_cons, bm25_sum_nil. unfold bm25_hit.
    rewrite decide_True
      by (apply (bool_decide_unpack _); vm_compute; exact I).
    rewrite bm25_partial_one_doc by (by left). lra. }
  assert (bm25_partial corpus_one q d1 "b" = (ln (1 / 3) + ln (1 / 3))%R)
    as Hb.
  { unfold bm25_partial. rewrite Hq.
    change (prefix_upto "b" ["a"; "b"]) with ["a"; "b"].
    rewrite !bm25_sum_cons, bm25_sum_nil. unfold bm25_hit.
    rewrite !decide_True
      by (apply (bool_decide_unpack _); vm_compute; exact I).
    rewrite !bm25_partial_one_doc by (by left || (right; by left)). lra. }
  destruct (bm25_scoring_exact corpus_one (built_index corpus_one) q
              Hne Hnd (built_shaped corpus_one))
    as (index' & Hsc & _ & _ & _ & Hex).
  rewrite <- built_length_total in Hsc. rewrite Hq in Hsc.
  assert (all_refs (built_index corpus_one) ["a"; "b"] corpus_one =
          [("a", 0); ("b", 0)]) as Hrefs by (vm_compute; reflexivity).
  rewrite Hrefs in Hsc.
  assert (∀ t, t ∈ ["a"; "b"] →
            postings_at index' t =
            [set_score (posting_of 1 t d1) (bm25_partial corpus_one q d1 t)])
    as Hpost.
  { intros t Ht. rewrite Hex.
    rewrite (rescore_erase corpus_one q t _ Hnd (built_shaped corpus_one t))
      by (by rewrite Hq).
    repeat (apply elem_of_cons in Ht as [->|Ht]; [reflexivity|]).
    by apply elem_of_nil in Ht. }
  assert (deref index' ("a", 0) =
          Some (set_score (posting_of 1 "a" d1) (ln (1 / 3)))) as Da.
  { unfold deref. cbn [fst snd]. fold (postings_at index' "a").
    rewrite Hpost by (by left). by rewrite Ha. }
  assert (deref index' ("b", 0) =
          Some (set_score (posting_of 1 "b" d1)
                          (ln (1 / 3) + ln (1 / 3)))) as Db.
  { unfold deref. cbn [fst snd]. fold (postings_at index' "b").
    rewrite Hpost by (right; by left). by rewrite Hb. }
  exists [("a", 0); ("b", 0)], index'. split_and!.
  - rewrite (bm25_ranking_scoring _ _ _ _ _ _ Hsc). do 2 f_equal.
    unfold top_k. rewrite sort_desc_id; [done|].
    unfold desc_sorted. repeat constructor.
    unfold score_of. rewrite Da, Db. simpl. lra.
  - unfold entries. cbn [omap list_omap]. rewrite Da, Db. reflexivity.
  - unfold bm25_score. rewrite Hq.
    change ["a"; "b"] with (prefix_upto "b" ["a"; "b"]) at 1.
    rewrite <- Hq. exact Hb.
  - lra.
Qed.
